(** * MapGenerator: seeded chunk generation and the chunk cache

    A shallow embedding of [src/features/game/utils/MapGenerator.ts]
    (together with the constants of [Scale.ts] and [engine/config.tsx]),
    of its caller [TerrainLayer], and of the game around the map: the
    content layout of [ContentManager.ts], the state of [GameContext.tsx],
    the game loop of [Engine.tsx], the input controller, the wrapped
    content of [ContentItems.tsx], the content images of
    [ContentItemImageGenerator.ts] and the tiled clouds of
    [CloudLayer.tsx].

    Numbers.  JavaScript numbers are idealised as real numbers ([R]):
    [Math.sin], [Math.cos], [Math.sqrt] and [Math.PI] are the functions and
    the constant of the real analysis library, [Math.floor] is [Zfloor].
    Quantities the source only ever uses as integers (chunk coordinates, loop
    counters, tile radii) are kept in [Z] and injected with [IZR] where the
    source mixes them with real-valued draws.  The statements about the
    game loop and the input controller that equate a computed number with
    the value it stands for allow for the rounding of the program's
    doubles: they hold up to the relative error [tolerance].

    Objects.  A [Chunk] record is never mutated after [generateChunk] has
    returned it, so an object of the heap is modelled by its address paired
    with its (immutable) contents; the cache table maps the key string to
    such an object.

    The environment.  What the browser supplies is a parameter of the
    functions that use it: the values [Math.random] returns, the text
    measurements of Pixi and of the canvas, the size of the window. *)

From Stdlib Require Import Reals Lra Lia ZArith QArith Qreals Qround Ascii.
From stdpp Require Import gmap strings list fin_maps pretty.

#[local] Open Scope Z_scope.
#[local] Open Scope R_scope.

(** ** Scale.ts and engine/config.tsx *)

Definition GAME_SCALE : R := 1.
Definition SPRITE_TILE_SIZE : R := 10.
Definition TILE_SIZE : R := SPRITE_TILE_SIZE * GAME_SCALE.
Definition CHUNK_SIZE : R := 64.
Definition CLOUD_SIZE : R := 1.

(** ** Comparisons of numbers as booleans *)

Definition Rltb (a b : R) : bool := if Rlt_dec a b then true else false.
Definition Rleb (a b : R) : bool := if Rle_dec a b then true else false.
Definition Rgtb (a b : R) : bool := Rltb b a.

(** ** Seeded pseudo-random number generator *)

Definition seededRandom (x y seed : R) : R :=
  let n := sin (x * 12.9898 + y * 78.233 + seed) * 43758.5453 in
  n - IZR (Zfloor n).

(** Noise function for organic shapes: the three iterations of the loop,
    unrolled by the fold over [0; 1; 2]. *)
Definition noise2D (x y seed scale : R) : R :=
  let scaledX := x * scale in
  let scaledY := y * scale in
  let step (st : R * R * R) (i : Z) : R * R * R :=
    let '(value, amplitude, frequency) := st in
    (value + seededRandom (scaledX * frequency) (scaledY * frequency)
                          (seed + IZR i * 1000) * amplitude,
     amplitude * 0.5,
     frequency * 2) in
  let '(value, _, _) := fold_left step [0; 1; 2]%Z (0, 1, 1) in
  value / 1.75.

(** The integers [lo, lo+1, ..., hi] of a counting [for] loop. *)
Definition Zrange (lo hi : Z) : list Z :=
  map (fun k : nat => (lo + Z.of_nat k)%Z) (seq 0 (Z.to_nat (hi - lo + 1))).

Section MapGenerator.

(** The texture handles of the rendering library are opaque to the
    generator: it only copies them from the asset dictionary into tiles. *)
Context {Texture : Type}.

(** ** AssetLoader.ts: the dictionary of textures *)

Record AssetDictionary := {
  jet : Texture;
  tile : Texture;
  grass : Texture;
  sand : Texture;
  soil : Texture;
  rocks : Texture;
  mountain : Texture;
  tree : Texture;
  oceanSuperDeep : Texture;
  oceanDeep : Texture;
  oceanSemiDeep : Texture;
  oceanShallow : Texture;
  shoal : Texture;
  cloudCovered : Texture;
  cloudLessCoverLand : Texture;
  cloudLessCoverOcean : Texture;
}.

(** ** Data model *)

Record IslandTile := {
  offsetX : R;
  offsetY : R;
  texture : Texture;
}.

Record Island := {
  island_id : string;
  island_centerX : R;
  island_centerY : R;
  island_radius : R;
  island_tiles : list IslandTile;
}.

Record CloudFormation := {
  cloud_id : string;
  cloud_centerX : R;
  cloud_centerY : R;
  cloud_radius : R;
  cloud_tiles : list IslandTile;
}.

Record Point := { pt_x : R; pt_y : R }.

Record Chunk := {
  chunk_chunkX : Z;
  chunk_chunkY : Z;
  chunk_islands : list Island;
  chunk_clouds : list CloudFormation;
  chunk_deepOceanPatches : list Point;
}.

Inductive Shape := circle | oval | diagonal | irregular.

(** ** buildIsland *)

(** The texture chosen for one scanned offset: [None] is the source's
    [null], left when [normalizedDist] is 1.8 or more. *)
Definition islandTexture (assets : AssetDictionary)
    (normalizedDist tileRandom : R) : option Texture :=
  if Rltb normalizedDist 0.2 then Some (mountain assets)
  else if Rltb normalizedDist 0.4 then
    Some (if Rltb tileRandom 0.8 then rocks assets else tree assets)
  else if Rltb normalizedDist 0.6 then
    Some (if Rltb tileRandom 0.3 then soil assets
          else if Rltb tileRandom 0.5 then tree assets
          else if Rltb tileRandom 0.75 then grass assets
          else sand assets)
  else if Rltb normalizedDist 0.8 then
    Some (if Rltb tileRandom 0.6 then sand assets else grass assets)
  else if Rltb normalizedDist 1.0 then
    Some (if Rltb tileRandom 0.7 then sand assets else shoal assets)
  else if Rltb normalizedDist 1.2 then Some (shoal assets)
  else if Rltb normalizedDist 1.5 then Some (oceanShallow assets)
  else if Rltb normalizedDist 1.8 then Some (oceanSemiDeep assets)
  else None.

(** [stretchX], [stretchY] and [rotation] of a shape. *)
Definition shapeModifiers (shape : Shape) (seed : R) : R * R * R :=
  match shape with
  | oval =>
      let horizontal := Rgtb (seededRandom 0 0 seed) 0.5 in
      (if horizontal then 1.5 else 0.7, if horizontal then 0.7 else 1.5, 0)
  | diagonal => (1.4, 0.8, seededRandom 1 0 seed * PI / 2)
  | _ => (1, 1, 0)
  end.

(** The body of the two nested scan loops, for one offset [(dx, dy)]. *)
Definition islandTileAt (assets : AssetDictionary) (radiusTiles : Z)
    (shape : Shape) (seed : R) (stretchX stretchY rotation : R) (dy dx : Z)
    : list IslandTile :=
  let '(rx, ry) :=
    if Req_dec_T rotation 0 then (IZR dx, IZR dy)
    else (IZR dx * cos rotation - IZR dy * sin rotation,
          IZR dx * sin rotation + IZR dy * cos rotation) in
  let rx := rx / stretchX in
  let ry := ry / stretchY in
  let distance := sqrt (rx * rx + ry * ry) in
  let distance :=
    match shape with
    | irregular => distance + (noise2D (IZR dx) (IZR dy) seed 0.2 - 0.5) * 3
    | _ => distance
    end in
  let normalizedDist := distance / IZR radiusTiles in
  let tileRandom := seededRandom (IZR dx) (IZR dy) seed in
  match islandTexture assets normalizedDist tileRandom with
  | Some t => [ {| offsetX := IZR dx * TILE_SIZE;
                   offsetY := IZR dy * TILE_SIZE;
                   texture := t |} ]
  | None => []
  end.

(** The two nested scan loops. *)
Definition islandTiles (assets : AssetDictionary) (radiusTiles : Z)
    (shape : Shape) (seed : R) : list IslandTile :=
  let '(stretchX, stretchY, rotation) := shapeModifiers shape seed in
  let scanRadius := (radiusTiles + 8)%Z in
  flat_map (fun dy =>
    flat_map (fun dx =>
                islandTileAt assets radiusTiles shape seed
                  stretchX stretchY rotation dy dx)
             (Zrange (- scanRadius) scanRadius))
    (Zrange (- scanRadius) scanRadius).

Definition buildIsland (id : string) (centerX centerY : R) (baseRadius : Z)
    (shape : Shape) (seed : R) (assets : AssetDictionary) : Island :=
  let radiusTiles := baseRadius in
  {| island_id := id;
     island_centerX := centerX;
     island_centerY := centerY;
     island_radius := IZR radiusTiles * TILE_SIZE;
     island_tiles := islandTiles assets radiusTiles shape seed |}.

(** ** generateIslandsForChunk *)

(** Center and base radius drawn for candidate [i]. *)
Definition islandCandidate (chunkX chunkY : Z) (seed : R) (i : Z)
    : R * R * Z :=
  let offsetX :=
    seededRandom (IZR chunkX) (IZR chunkY) (seed + IZR i * 10)
      * CHUNK_SIZE * 0.6 + CHUNK_SIZE * 0.2 in
  let offsetY :=
    seededRandom (IZR chunkX) (IZR chunkY) (seed + IZR i * 10 + 1)
      * CHUNK_SIZE * 0.6 + CHUNK_SIZE * 0.2 in
  let centerX := (IZR chunkX * CHUNK_SIZE + offsetX) * TILE_SIZE in
  let centerY := (IZR chunkY * CHUNK_SIZE + offsetY) * TILE_SIZE in
  let baseRadius :=
    (Zfloor (seededRandom (IZR chunkX) (IZR chunkY) (seed + IZR i * 10 + 2)
             * 10) + 8)%Z in
  (centerX, centerY, baseRadius).

Definition wouldOverlap (islands : list Island)
    (centerX centerY estimatedRadius : R) : bool :=
  existsb (fun existing =>
    let dx := centerX - island_centerX existing in
    let dy := centerY - island_centerY existing in
    let distance := sqrt (dx * dx + dy * dy) in
    let minDistance := estimatedRadius + island_radius existing + 50 in
    Rltb distance minDistance) islands.

Definition islandShape (chunkX chunkY : Z) (seed : R) (i : Z) : Shape :=
  let shapeType :=
    seededRandom (IZR chunkX) (IZR chunkY) (seed + IZR i * 10 + 3) in
  if Rltb shapeType 0.3 then circle
  else if Rltb shapeType 0.5 then oval
  else if Rltb shapeType 0.65 then diagonal
  else irregular.

Definition islandKey (chunkX chunkY i : Z) : string :=
  pretty chunkX +:+ "," +:+ pretty chunkY +:+ "," +:+ pretty i.

(** One iteration of the candidate loop; [islands] is the array built so
    far, and a rejected candidate leaves it as it is ([continue]). *)
Definition islandStep (chunkX chunkY : Z) (seed : R)
    (assets : AssetDictionary) (islands : list Island) (i : Z)
    : list Island :=
  let '(centerX, centerY, baseRadius) :=
    islandCandidate chunkX chunkY seed i in
  let estimatedRadius := IZR baseRadius * TILE_SIZE * 1.8 in
  if wouldOverlap islands centerX centerY estimatedRadius then islands
  else
    islands ++
      [buildIsland (islandKey chunkX chunkY i) centerX centerY baseRadius
         (islandShape chunkX chunkY seed i) (seed + IZR i * 100) assets].

Definition islandCount (chunkX chunkY : Z) (seed : R) : Z :=
  (Zfloor (seededRandom (IZR chunkX) (IZR chunkY) (seed + 100) * 3) + 1)%Z.

Definition generateIslandsForChunk (chunkX chunkY : Z) (seed : R)
    (assets : AssetDictionary) : list Island :=
  let chunkRandom := seededRandom (IZR chunkX) (IZR chunkY) seed in
  if Rltb chunkRandom 0.3 then
    fold_left (islandStep chunkX chunkY seed assets)
      (Zrange 0 (islandCount chunkX chunkY seed - 1)) []
  else [].

(** ** generateDeepOceanPatches *)

(** Center (in pixels) and size (in tiles) drawn for patch [i]. *)
Definition patchCandidate (chunkX chunkY : Z) (seed : R) (i : Z)
    : R * R * Z :=
  let patchCenterX :=
    Zfloor (seededRandom (IZR chunkX) (IZR chunkY) (seed + 9000 + IZR i * 3)
            * CHUNK_SIZE) in
  let patchCenterY :=
    Zfloor (seededRandom (IZR chunkX) (IZR chunkY)
              (seed + 9000 + IZR i * 3 + 1) * CHUNK_SIZE) in
  let patchSize :=
    (Zfloor (seededRandom (IZR chunkX) (IZR chunkY)
               (seed + 9000 + IZR i * 3 + 2) * 5) + 3)%Z in
  let globalX := (IZR chunkX * CHUNK_SIZE + IZR patchCenterX) * TILE_SIZE in
  let globalY := (IZR chunkY * CHUNK_SIZE + IZR patchCenterY) * TILE_SIZE in
  (globalX, globalY, patchSize).

Definition farFromIslands (islands : list Island) (globalX globalY : R)
    : bool :=
  forallb (fun island =>
    let dx := globalX - island_centerX island in
    let dy := globalY - island_centerY island in
    let dist := sqrt (dx * dx + dy * dy) in
    Rgtb dist (island_radius island + 100)) islands.

(** The disc of points pushed for an accepted patch. *)
Definition patchPoints (globalX globalY : R) (patchSize : Z) : list Point :=
  flat_map (fun py =>
    flat_map (fun px =>
      let patchDist := sqrt (IZR px * IZR px + IZR py * IZR py) in
      if Rleb patchDist (IZR patchSize) then
        [ {| pt_x := globalX + IZR px * TILE_SIZE;
             pt_y := globalY + IZR py * TILE_SIZE |} ]
      else [])
      (Zrange (- patchSize) patchSize))
    (Zrange (- patchSize) patchSize).

Definition patchStep (chunkX chunkY : Z) (seed : R) (islands : list Island)
    (patches : list Point) (i : Z) : list Point :=
  let '(globalX, globalY, patchSize) := patchCandidate chunkX chunkY seed i in
  if farFromIslands islands globalX globalY then
    patches ++ patchPoints globalX globalY patchSize
  else patches.

Definition patchCount (chunkX chunkY : Z) (seed : R) : Z :=
  (Zfloor (seededRandom (IZR chunkX) (IZR chunkY) (seed + 9000) * 6) + 3)%Z.

Definition generateDeepOceanPatches (chunkX chunkY : Z) (seed : R)
    (islands : list Island) : list Point :=
  fold_left (patchStep chunkX chunkY seed islands)
    (Zrange 0 (patchCount chunkX chunkY seed - 1)) [].

(** ** buildCloudFormation *)

(** [Math.round]: the nearest integer, halves going up. *)
Definition Math_round (v : R) : Z := Zfloor (v + 0.5).

Definition cloudAspectRatio (seed : R) : R :=
  let aspectRatioRand := seededRandom 0 2 seed in
  if Rltb aspectRatioRand 0.33 then 0.6 + seededRandom 0 3 seed * 0.2
  else if Rltb aspectRatioRand 0.66 then 1.2 + seededRandom 0 4 seed * 0.4
  else 0.9 + seededRandom 0 5 seed * 0.2.

(** The tile pushed by iteration [i] of the tile loop. *)
Definition cloudTileAt (assets : AssetDictionary) (seed : R)
    (width height rotation : R) (i : Z) : IslandTile :=
  let angle := seededRandom (IZR i) 0 seed * PI * 2 in
  let randomDist1 := seededRandom (IZR i) 1 seed in
  let randomDist2 := seededRandom (IZR i) 2 seed in
  let gaussianDist := (randomDist1 + randomDist2) / 2 in
  let distanceFactor := gaussianDist * 0.95 in
  let offX := cos angle * width * distanceFactor in
  let offY := sin angle * height * distanceFactor in
  let rotatedX := offX * cos rotation - offY * sin rotation in
  let rotatedY := offX * sin rotation + offY * cos rotation in
  {| offsetX := IZR (Math_round (rotatedX / TILE_SIZE)) * TILE_SIZE;
     offsetY := IZR (Math_round (rotatedY / TILE_SIZE)) * TILE_SIZE;
     texture := if Rltb distanceFactor 0.7 then cloudCovered assets
                else cloudLessCoverOcean assets |}.

Definition buildCloudFormation (id : string) (centerX centerY radius : R)
    (seed : R) (assets : AssetDictionary) : CloudFormation :=
  let aspectRatio := cloudAspectRatio seed in
  let rotation := seededRandom 0 6 seed * PI in
  let width := radius * aspectRatio * CLOUD_SIZE in
  let height := radius / aspectRatio * 0.8 * CLOUD_SIZE in
  let tileCount := Zfloor (width * height * 3 / (TILE_SIZE * TILE_SIZE)) in
  {| cloud_id := id;
     cloud_centerX := centerX;
     cloud_centerY := centerY;
     cloud_radius := radius;
     cloud_tiles :=
       map (cloudTileAt assets seed width height rotation)
           (Zrange 0 (tileCount - 1)) |}.

(** ** generateCloudsForChunk *)

Definition checkOverlap (clouds : list CloudFormation) (x y radius : R)
    : bool :=
  existsb (fun cloud =>
    let dx := x - cloud_centerX cloud in
    let dy := y - cloud_centerY cloud in
    let distance := sqrt (dx * dx + dy * dy) in
    let buffer := 150 * CLOUD_SIZE in
    Rltb distance
         (radius * CLOUD_SIZE + cloud_radius cloud * CLOUD_SIZE + buffer))
    clouds.

Definition maxAttempts : Z := 10.

(** Position and radius drawn by one pass of the [do] body, when
    [attempts] passes came before it. *)
Definition cloudDraw (chunkX chunkY : Z) (seed : R) (i attempts : Z)
    : R * R * R :=
  let offX :=
    seededRandom (IZR chunkX) (IZR chunkY)
      (seed + 8000 + IZR i * 5 + IZR attempts) * CHUNK_SIZE * TILE_SIZE in
  let offY :=
    seededRandom (IZR chunkX) (IZR chunkY)
      (seed + 8000 + IZR i * 5 + 1 + IZR attempts) * CHUNK_SIZE * TILE_SIZE in
  let centerX := IZR chunkX * CHUNK_SIZE * TILE_SIZE + offX in
  let centerY := IZR chunkY * CHUNK_SIZE * TILE_SIZE + offY in
  let radius :=
    IZR (Zfloor (seededRandom (IZR chunkX) (IZR chunkY)
                   (seed + 8000 + IZR i * 5 + 2 + IZR attempts) * 100) + 1) in
  (centerX, centerY, radius).

(** The [do ... while] loop of one cloud slot.  It returns the last draw
    and the value of [attempts] when the loop is left.  [fuel] bounds the
    number of further passes; [placeCloud_fuel] below shows that the loop
    is left by its own test before [maxAttempts] passes of fuel are used. *)
Fixpoint placeCloud (fuel : nat) (clouds : list CloudFormation)
    (chunkX chunkY : Z) (seed : R) (i attempts : Z) : R * R * R * Z :=
  let '(centerX, centerY, radius) :=
    cloudDraw chunkX chunkY seed i attempts in
  let attempts := (attempts + 1)%Z in
  if checkOverlap clouds centerX centerY radius && (attempts <? maxAttempts)%Z
  then
    match fuel with
    | S fuel' => placeCloud fuel' clouds chunkX chunkY seed i attempts
    | O => (centerX, centerY, radius, attempts)
    end
  else (centerX, centerY, radius, attempts).

Definition cloudStep (chunkX chunkY : Z) (seed : R)
    (assets : AssetDictionary) (clouds : list CloudFormation) (i : Z)
    : list CloudFormation :=
  let '(centerX, centerY, radius, attempts) :=
    placeCloud (Z.to_nat maxAttempts) clouds chunkX chunkY seed i 0 in
  if (maxAttempts <=? attempts)%Z && checkOverlap clouds centerX centerY radius
  then clouds
  else
    clouds ++
      [buildCloudFormation (islandKey chunkX chunkY i) centerX centerY radius
         (seed + IZR i * 50) assets].

Definition cloudCount (chunkX chunkY : Z) (seed : R) : Z :=
  (Zfloor (seededRandom (IZR chunkX) (IZR chunkY) (seed + 7000) * 3) + 1)%Z.

Definition generateCloudsForChunk (chunkX chunkY : Z) (seed : R)
    (islands : list Island) (assets : AssetDictionary)
    : list CloudFormation :=
  fold_left (cloudStep chunkX chunkY seed assets)
    (Zrange 0 (cloudCount chunkX chunkY seed - 1)) [].

(** ** generateChunk *)

Definition generateChunk (chunkX chunkY : Z) (seed : R)
    (assets : AssetDictionary) : Chunk :=
  let islands := generateIslandsForChunk chunkX chunkY seed assets in
  let deepOceanPatches :=
    generateDeepOceanPatches chunkX chunkY seed islands in
  let clouds := generateCloudsForChunk chunkX chunkY seed islands assets in
  {| chunk_chunkX := chunkX;
     chunk_chunkY := chunkY;
     chunk_islands := islands;
     chunk_clouds := clouds;
     chunk_deepOceanPatches := deepOceanPatches |}.

(** ** ChunkCache *)

(** A reference to a chunk object: the address [generateChunk]'s result was
    allocated at, and the record stored there. *)
Record ChunkRef := {
  ref_addr : nat;
  ref_chunk : Chunk;
}.

(** The fields of the class, and [heap_next], the next free address of the
    heap the cache allocates its chunks in (not a field of the class). *)
Record ChunkCache := {
  this_cache : gmap string ChunkRef;
  this_seed : R;
  this_assets : AssetDictionary;
  heap_next : nat;
}.

Definition ChunkCache_new (seed : R) (assets : AssetDictionary)
    : ChunkCache :=
  {| this_cache := ∅;
     this_seed := seed;
     this_assets := assets;
     heap_next := 0 |}.

Definition getKey (chunkX chunkY : Z) : string :=
  pretty chunkX +:+ "," +:+ pretty chunkY.

(** [getChunk] returns the cache after the call and the reference it
    hands out.  On a miss the new chunk is allocated at [heap_next] and
    stored under the key; the final [this.cache.get(key)] then reads that
    entry back. *)
Definition getChunk (this : ChunkCache) (chunkX chunkY : Z)
    : ChunkCache * ChunkRef :=
  let key := getKey chunkX chunkY in
  match this_cache this !! key with
  | Some found => (this, found)
  | None =>
      let chunk :=
        {| ref_addr := heap_next this;
           ref_chunk :=
             generateChunk chunkX chunkY (this_seed this) (this_assets this)
        |} in
      ({| this_cache := <[key := chunk]> (this_cache this);
          this_seed := this_seed this;
          this_assets := this_assets this;
          heap_next := S (heap_next this) |},
       chunk)
  end.

Definition getChunksInRadius (this : ChunkCache)
    (centerChunkX centerChunkY radius : Z) : ChunkCache * list ChunkRef :=
  fold_left (fun (st : ChunkCache * list ChunkRef) (dy : Z) =>
    fold_left (fun (st : ChunkCache * list ChunkRef) (dx : Z) =>
      let '(this, chunks) := st in
      let '(this, chunk) :=
        getChunk this (centerChunkX + dx) (centerChunkY + dy) in
      (this, chunks ++ [chunk]))
      (Zrange (- radius) radius) st)
    (Zrange (- radius) radius) (this, []).

(** The keys [cleanup] collects.  The source visits the entries in
    insertion order, the model in the table's own order; the entries
    deleted are the same. *)
Definition toDelete (this : ChunkCache)
    (centerChunkX centerChunkY keepRadius : Z) : list string :=
  map fst
    (List.filter (fun entry : string * ChunkRef =>
       let chunk := ref_chunk (snd entry) in
       let dx := Z.abs (chunk_chunkX chunk - centerChunkX) in
       let dy := Z.abs (chunk_chunkY chunk - centerChunkY) in
       (keepRadius <? dx)%Z || (keepRadius <? dy)%Z)
       (map_to_list (this_cache this))).

Definition cleanup (this : ChunkCache)
    (centerChunkX centerChunkY keepRadius : Z) : ChunkCache :=
  {| this_cache :=
       fold_left (fun m key => delete key m)
         (toDelete this centerChunkX centerChunkY keepRadius)
         (this_cache this);
     this_seed := this_seed this;
     this_assets := this_assets this;
     heap_next := heap_next this |}.

(** The states a cache built by [new ChunkCache(seed, assets)] can be in:
    any sequence of calls of its three methods on integer arguments. *)
Inductive reachable (seed : R) (assets : AssetDictionary)
    : ChunkCache -> Prop :=
| reachable_new : reachable seed assets (ChunkCache_new seed assets)
| reachable_getChunk this x y :
    reachable seed assets this ->
    reachable seed assets (fst (getChunk this x y))
| reachable_getChunksInRadius this cx cy r :
    reachable seed assets this ->
    reachable seed assets (fst (getChunksInRadius this cx cy r))
| reachable_cleanup this cx cy keep :
    reachable seed assets this ->
    reachable seed assets (cleanup this cx cy keep).

End MapGenerator.

(** * Notions the properties are stated with *)

(** Euclidean distance between two points, as the source computes it from
    the coordinate differences. *)
Definition distance (x1 y1 x2 y2 : R) : R :=
  let dx := x1 - x2 in
  let dy := y1 - y2 in
  sqrt (dx * dx + dy * dy).

(** The patch candidates of a chunk that pass the clearance test, in the
    order of their slots. *)
Definition acceptedPatches {Texture : Type} (chunkX chunkY : Z) (seed : R)
    (islands : list (@Island Texture)) : list (R * R * Z) :=
  List.filter (fun c : R * R * Z => farFromIslands islands c.1.1 c.1.2)
    (map (patchCandidate chunkX chunkY seed)
         (Zrange 0 (patchCount chunkX chunkY seed - 1))).

(** Any two clouds at different positions of the list are at least the
    sum of their scaled radii plus 150 px apart. *)
Definition cloudsApart {Texture : Type}
    (clouds : list (@CloudFormation Texture)) : Prop :=
  forall (j k : nat) (c1 c2 : @CloudFormation Texture),
    j <> k -> clouds !! j = Some c1 -> clouds !! k = Some c2 ->
    cloud_radius c1 * CLOUD_SIZE + cloud_radius c2 * CLOUD_SIZE + 150
      <= distance (cloud_centerX c1) (cloud_centerY c1)
                  (cloud_centerX c2) (cloud_centerY c2).

(** The spacing the overlap test of [generateIslandsForChunk] establishes
    between an island and every island accepted before it: the later
    island's estimated radius (1.8 times its radius), the earlier island's
    radius, and 50 px. *)
Definition islandsSpaced {Texture : Type}
    (islands : list (@Island Texture)) : Prop :=
  forall (j k : nat) (earlier later : @Island Texture),
    (j < k)%nat -> islands !! j = Some earlier -> islands !! k = Some later ->
    island_radius later * 1.8 + island_radius earlier + 50
      <= distance (island_centerX later) (island_centerY later)
                  (island_centerX earlier) (island_centerY earlier).

(** A string without the separator of the cache keys. *)
Fixpoint comma_free (s : string) : bool :=
  match s with
  | EmptyString => true
  | String c s' => negb (Ascii.eqb c ","%char) && comma_free s'
  end.

(** The coordinates [getChunksInRadius] asks for, in the order of its two
    loops ([dy] outside, [dx] inside). *)
Definition square (centerChunkX centerChunkY radius : Z) : list (Z * Z) :=
  flat_map (fun dy =>
    map (fun dx => ((centerChunkX + dx)%Z, (centerChunkY + dy)%Z))
        (Zrange (- radius) radius))
    (Zrange (- radius) radius).

(** [getChunk] called on a list of coordinates, the results pushed onto
    [chunks]: the two loops of [getChunksInRadius] flattened into one. *)
Definition getChunks {Texture : Type} (coords : list (Z * Z))
    (st : @ChunkCache Texture * list (@ChunkRef Texture))
    : @ChunkCache Texture * list (@ChunkRef Texture) :=
  fold_left (fun (st : ChunkCache * list ChunkRef) (xy : Z * Z) =>
    let '(this, chunks) := st in
    let '(this, chunk) := getChunk this xy.1 xy.2 in
    (this, chunks ++ [chunk])) coords st.

(** The entry of a chunk lies outside the keep-window of [cleanup]. *)
Definition outsideWindow {Texture : Type}
    (centerChunkX centerChunkY keepRadius : Z) (ref : @ChunkRef Texture)
    : Prop :=
  (keepRadius < Z.abs (chunk_chunkX (ref_chunk ref) - centerChunkX)
   \/ keepRadius < Z.abs (chunk_chunkY (ref_chunk ref) - centerChunkY))%Z.

(** What holds of every cache built with [seed] and [assets]: each entry
    sits under the key of its own coordinate, holds the chunk generated for
    that coordinate, and was allocated below [heap_next]. *)
Definition cache_inv {Texture : Type} (seed : R)
    (assets : @AssetDictionary Texture) (this : @ChunkCache Texture) : Prop :=
  this_seed this = seed /\ this_assets this = assets /\
  forall key ref, this_cache this !! key = Some ref ->
    key = getKey (chunk_chunkX (ref_chunk ref)) (chunk_chunkY (ref_chunk ref))
    /\ ref_chunk ref
        = generateChunk (chunk_chunkX (ref_chunk ref))
            (chunk_chunkY (ref_chunk ref)) seed assets
    /\ (ref_addr ref < heap_next this)%nat.

(** [later this this']: [this'] is [this] after some calls of [getChunk] and
    [getChunksInRadius], and no call of [cleanup]. *)
Inductive later {Texture : Type} (this : @ChunkCache Texture)
    : @ChunkCache Texture -> Prop :=
| later_now : later this this
| later_getChunk this' x y :
    later this this' -> later this (getChunk this' x y).1
| later_getChunksInRadius this' cx cy r :
    later this this' -> later this (getChunksInRadius this' cx cy r).1.

(** ** Textures as names

    The generator never inspects a texture; it copies dictionary fields.
    Run on the dictionary that stores each field's own name, it yields the
    chunk with tile classes in place of textures. *)

Inductive AssetName :=
| Jet | Tile | Grass | Sand | Soil | Rocks | Mountain | Tree
| OceanSuperDeep | OceanDeep | OceanSemiDeep | OceanShallow | Shoal
| CloudCovered | CloudLessCoverLand | CloudLessCoverOcean.

Definition assetNames : @AssetDictionary AssetName :=
  {| jet := Jet; tile := Tile; grass := Grass; sand := Sand; soil := Soil;
     rocks := Rocks; mountain := Mountain; tree := Tree;
     oceanSuperDeep := OceanSuperDeep; oceanDeep := OceanDeep;
     oceanSemiDeep := OceanSemiDeep; oceanShallow := OceanShallow;
     shoal := Shoal; cloudCovered := CloudCovered;
     cloudLessCoverLand := CloudLessCoverLand;
     cloudLessCoverOcean := CloudLessCoverOcean |}.

Definition textureOf {Texture : Type} (assets : @AssetDictionary Texture)
    (name : AssetName) : Texture :=
  match name with
  | Jet => jet assets | Tile => tile assets | Grass => grass assets
  | Sand => sand assets | Soil => soil assets | Rocks => rocks assets
  | Mountain => mountain assets | Tree => tree assets
  | OceanSuperDeep => oceanSuperDeep assets | OceanDeep => oceanDeep assets
  | OceanSemiDeep => oceanSemiDeep assets
  | OceanShallow => oceanShallow assets | Shoal => shoal assets
  | CloudCovered => cloudCovered assets
  | CloudLessCoverLand => cloudLessCoverLand assets
  | CloudLessCoverOcean => cloudLessCoverOcean assets
  end.

Definition retextureTile {A B : Type} (f : A -> B) (t : @IslandTile A)
    : @IslandTile B :=
  {| offsetX := offsetX t; offsetY := offsetY t; texture := f (texture t) |}.

Definition retextureIsland {A B : Type} (f : A -> B) (i : @Island A)
    : @Island B :=
  {| island_id := island_id i;
     island_centerX := island_centerX i;
     island_centerY := island_centerY i;
     island_radius := island_radius i;
     island_tiles := map (retextureTile f) (island_tiles i) |}.

Definition retextureCloud {A B : Type} (f : A -> B) (c : @CloudFormation A)
    : @CloudFormation B :=
  {| cloud_id := cloud_id c;
     cloud_centerX := cloud_centerX c;
     cloud_centerY := cloud_centerY c;
     cloud_radius := cloud_radius c;
     cloud_tiles := map (retextureTile f) (cloud_tiles c) |}.

Definition retextureChunk {A B : Type} (f : A -> B) (c : @Chunk A)
    : @Chunk B :=
  {| chunk_chunkX := chunk_chunkX c;
     chunk_chunkY := chunk_chunkY c;
     chunk_islands := map (retextureIsland f) (chunk_islands c);
     chunk_clouds := map (retextureCloud f) (chunk_clouds c);
     chunk_deepOceanPatches := chunk_deepOceanPatches c |}.

(** ** Enclosures of the random source at integer arguments

    To evaluate [seededRandom 0 0 k] for an integer [k], the sine of [k]
    is enclosed between two fixed-point numbers: [sin 1] and [cos 1] by
    their alternating Taylor sums, [sin k] and [cos k] from them by the
    addition formulas along the binary digits of [k], every bound rounded
    outwards to a multiple of [1 / prec]. *)

Definition prec : Z := 10 ^ 30.

(** The real number a fixed-point numerator stands for. *)
Definition fx (n : Z) : R := IZR n / IZR prec.

Record itv := { lo : Z; hi : Z }.

Definition encloses (i : itv) (v : R) : Prop := fx (lo i) <= v <= fx (hi i).

(** Division rounding up. *)
Definition cdiv (a b : Z) : Z := (- ((- a) / b))%Z.

Definition iadd (a b : itv) : itv :=
  {| lo := lo a + lo b; hi := hi a + hi b |}%Z.

Definition isub (a b : itv) : itv :=
  {| lo := lo a - hi b; hi := hi a - lo b |}%Z.

Definition imul (a b : itv) : itv :=
  let p1 := (lo a * lo b)%Z in
  let p2 := (lo a * hi b)%Z in
  let p3 := (hi a * lo b)%Z in
  let p4 := (hi a * hi b)%Z in
  {| lo := Z.min (Z.min p1 p2) (Z.min p3 p4) / prec;
     hi := cdiv (Z.max (Z.max p1 p2) (Z.max p3 p4)) prec |}%Z.

Fixpoint Zfact (n : nat) : Z :=
  match n with
  | O => 1
  | S m => Z.of_nat n * Zfact m
  end%Z.

(** The terms and partial sums of the series of [sin 1] and [cos 1]. *)
Definition sinTermQ (i : nat) : Q :=
  ((-1) ^ Z.of_nat i # Z.to_pos (Zfact (2 * i + 1)))%Q.

Definition cosTermQ (i : nat) : Q :=
  ((-1) ^ Z.of_nat i # Z.to_pos (Zfact (2 * i)))%Q.

Fixpoint sumQ (f : nat -> Q) (n : nat) : Q :=
  match n with
  | O => f O
  | S m => (sumQ f m + f n)%Q
  end.

Definition enclosureQ (l h : Q) : itv :=
  {| lo := Qfloor (l * inject_Z prec); hi := Qceiling (h * inject_Z prec) |}.

Definition sin1 : itv := enclosureQ (sumQ sinTermQ 9) (sumQ sinTermQ 10).
Definition cos1 : itv := enclosureQ (sumQ cosTermQ 9) (sumQ cosTermQ 10).

(** Enclosures of [(cos k, sin k)] for a positive integer [k]. *)
Definition itwice (cs : itv * itv) : itv * itv :=
  let '(c, s) := cs in
  (isub (imul c c) (imul s s), iadd (imul s c) (imul s c)).

Definition isucc (cs : itv * itv) : itv * itv :=
  let '(c, s) := cs in
  (isub (imul c cos1) (imul s sin1), iadd (imul s cos1) (imul c sin1)).

Fixpoint cosSin (k : positive) : itv * itv :=
  match k with
  | xH => (cos1, sin1)
  | xO k' => itwice (cosSin k')
  | xI k' => isucc (itwice (cosSin k'))
  end.

(** [n * 43758.5453 - floor (n * 43758.5453)] for [n] in the enclosure
    [s], when both ends of the scaled enclosure have the same floor. *)
Definition ifrac (s : itv) : option itv :=
  let l := (Z.min (lo s * 437585453) (hi s * 437585453) / 10000)%Z in
  let h := cdiv (Z.max (lo s * 437585453) (hi s * 437585453)) 10000 in
  let z := (l / prec)%Z in
  if (h / prec =? z)%Z
  then Some {| lo := l - z * prec; hi := h - z * prec |}%Z
  else None.

Definition randomAt (k : positive) : option itv := ifrac (cosSin k).2.

(** * TerrainLayer: the caller of the cache *)

(** Scale.ts: the terrain moves at 0.3 of the jet's speed. *)
Definition TERRAIN_PARALLAX : R := 0.3.

Section TerrainLayer.

Context {Texture : Type}.

(** [parallaxX] (or [parallaxY]) of a player coordinate. *)
Definition parallax (playerCoord : R) : R := playerCoord * TERRAIN_PARALLAX.

(** [currentChunkX] (or [currentChunkY]) of a parallax coordinate. *)
Definition currentChunk (parallaxCoord : R) : Z :=
  Zfloor (parallaxCoord / (CHUNK_SIZE * TILE_SIZE)).

(** The chunks loaded around the player: the cache after the call and the
    chunks returned. *)
Definition visibleChunks (chunkCache : @ChunkCache Texture)
    (playerX playerY : R) : @ChunkCache Texture * list (@ChunkRef Texture) :=
  getChunksInRadius chunkCache
    (currentChunk (parallax playerX)) (currentChunk (parallax playerY)) 2.

(** [visibleChunks.flatMap(chunk => chunk.islands)] *)
Definition allIslands (visible : list (@ChunkRef Texture))
    : list (@Island Texture) :=
  flat_map (fun chunk => chunk_islands (ref_chunk chunk)) visible.

(** [visibleChunks.flatMap(chunk => chunk.deepOceanPatches)] *)
Definition allDeepOceanPatches (visible : list (@ChunkRef Texture))
    : list Point :=
  flat_map (fun chunk => chunk_deepOceanPatches (ref_chunk chunk)) visible.

(** The body of the five-second interval: evict the chunks far from the
    player. *)
Definition cleanupOldChunks (chunkCache : @ChunkCache Texture)
    (playerX playerY : R) : @ChunkCache Texture :=
  cleanup chunkCache
    (currentChunk (parallax playerX)) (currentChunk (parallax playerY)) 4.

End TerrainLayer.

(** Two entries of the table at one address are one entry. *)
Definition addresses_distinct {Texture : Type} (this : @ChunkCache Texture)
    : Prop :=
  forall key1 key2 ref1 ref2,
    this_cache this !! key1 = Some ref1 ->
    this_cache this !! key2 = Some ref2 ->
    ref_addr ref1 = ref_addr ref2 -> key1 = key2.

(** * The game around the map: content, state, loop and input *)

(** ** Scale.ts, from engine/config.tsx *)

Definition PLAYER_SPEED : R := 600.
Definition ROTATION_LERP_FACTOR : R := 30.0.
Definition MAX_ZOOM : R := 2.0.
Definition MIN_ZOOM : R := 0.5.
Definition ZOOM_STEP : R := 0.1.

(** ** JavaScript operators *)

(** [a !== b] on numbers. *)
Definition Rneb (a b : R) : bool := if Req_dec_T a b then false else true.

(** The quotient of [a % b]: the division truncated towards zero. *)
Definition Ztrunc (q : R) : Z := if Rltb q 0 then Zceil q else Zfloor q.

(** [a % b] on numbers: the remainder has the sign of [a]. *)
Definition js_mod (a b : R) : R := a - b * IZR (Ztrunc (a / b)).

(** [Math.atan2(y, x)], the angle of the point [(x, y)] in (-PI, PI]. *)
Definition Math_atan2 (y x : R) : R :=
  if Rltb 0 x then atan (y / x)
  else if Rltb x 0 then
    if Rleb 0 y then atan (y / x) + PI else atan (y / x) - PI
  else if Rltb 0 y then PI / 2
  else if Rltb y 0 then - (PI / 2)
  else 0.

(** [v || 0] on numbers. *)
Definition orZero (v : R) : R := if Rneb v 0 then v else 0.

(** ** FontStyle.tsx *)

Record TextStyle := {
  fontFamily : string;
  fill : Z;
  fontSize : R;
  align : string;
  wordWrap : bool;
  wordWrapWidth : R;
}.

(** [makeContentHeaderStyle({})]; 100 is Pixi's default wrap width. *)
Definition makeContentHeaderStyle : TextStyle :=
  {| fontFamily := "Jersey 10, sans-serif"; fill := 0x333333; fontSize := 80;
     align := "center"; wordWrap := false; wordWrapWidth := 100 |}.

(** [makeContentTextStyle({})] *)
Definition makeContentTextStyle : TextStyle :=
  {| fontFamily := "Jersey 10, sans-serif"; fill := 0x555555; fontSize := 32;
     align := "left"; wordWrap := false; wordWrapWidth := 100 |}.

(** [style.wordWrap = true; style.wordWrapWidth = width] *)
Definition withWordWrap (style : TextStyle) (width : R) : TextStyle :=
  {| fontFamily := fontFamily style; fill := fill style;
     fontSize := fontSize style; align := align style;
     wordWrap := true; wordWrapWidth := width |}.

(** ** ContentManager.ts *)

Inductive ContentType := whois | works | social_network.

Record ContentData := {
  header : string;
  content : string;
  image : option string;
  url_link : option string;
}.

Record ContentItem := {
  item_id : string;
  item_type : ContentType;
  item_position : R * R;
  item_data : ContentData;
}.

Definition minSpacing : R := 150.
Definition viewportBuffer : R := 200.

Section ContentManager.

(** The width and height Pixi measures for [new Text({ text, style })]. *)
Variable measureText : TextStyle -> string -> R * R.

(** The values [Math.random()] returns, in the order of the calls. *)
Variable random : nat -> R.

Definition calculateContentSize (data : ContentData) : R * R :=
  let hStyle := makeContentHeaderStyle in
  let bStyle := makeContentTextStyle in
  let maxTextWidth := 700 in
  let '(headerWidth, headerHeight) := measureText hStyle (header data) in
  let '(headerWidth, headerHeight) :=
    if Rgtb headerWidth maxTextWidth
    then measureText (withWordWrap hStyle maxTextWidth) (header data)
    else (headerWidth, headerHeight) in
  let '(bodyWidth, bodyHeight) := measureText bStyle (content data) in
  let '(bodyWidth, bodyHeight) :=
    if Rgtb bodyWidth maxTextWidth
    then measureText (withWordWrap bStyle maxTextWidth) (content data)
    else (bodyWidth, bodyHeight) in
  let padding := 40 in
  let verticalGap := 20 in
  (Rmax headerWidth bodyWidth + padding * 2,
   headerHeight + verticalGap + bodyHeight + padding * 2).

(** [randomOffset(min, max)] as the [n]-th call of [Math.random]: the
    offset and the number of calls made. *)
Definition randomOffset (min max : R) (n : nat) : R * nat :=
  (min + random n * (max - min), S n).

(** The extent of a box along the line its category is laid out on: the
    height for whois (upwards), the width for works (to the right) and
    social (to the left). *)
Definition extent (type : ContentType) (size : R * R) : R :=
  match type with
  | whois => size.2
  | works | social_network => size.1
  end.

(** STEP 2, one of its three [forEach] loops: the running total over the
    extents of a category. *)
Fixpoint totalSize (extents : list R) (total : R) (n : nat) : R * nat :=
  match extents with
  | [] => (total, n)
  | size :: rest =>
      let total := total + size / 2 in
      match rest with
      | next :: _ =>
          let '(gap, n) := randomOffset 0 minSpacing n in
          totalSize rest (total + (minSpacing + gap) + next / 2) n
      | [] => totalSize rest (total + size / 2) n
      end
  end.

Definition idPrefix (type : ContentType) : string :=
  match type with
  | whois => "whois-"
  | works => "works-"
  | social_network => "social-"
  end.

(** The position of an item: whois items vary in x around their line,
    the others in y. *)
Definition positionOf (type : ContentType) (offset current : R) : R * R :=
  match type with
  | whois => (offset, current)
  | works | social_network => (current, offset)
  end.

(** [currentX += step] for works, [currentY -= step] and
    [currentNegX -= step] for the others. *)
Definition advance (type : ContentType) (current step : R) : R :=
  match type with
  | works => current + step
  | whois | social_network => current - step
  end.

(** STEP 4, one of its three [forEach] loops: the items pushed, the next
    id and the number of [Math.random] calls made.  The three loops of the
    source differ in the category only: in the prefix of the id, in the
    axis and in the direction.  The object pushed as [data] also carries
    the size of STEP 1, which the interface [ContentItem] does not show
    and no reader uses. *)
Fixpoint placeItems (type : ContentType)
    (withSizes : list (ContentData * (R * R)))
    (current : R) (id : nat) (n : nat) : list ContentItem * nat * nat :=
  match withSizes with
  | [] => ([], id, n)
  | (data, size) :: rest =>
      let '(offset, n) := randomOffset (-150) 150 n in
      let item :=
        {| item_id := idPrefix type +:+ pretty (Z.of_nat id);
           item_type := type;
           item_position := positionOf type offset current;
           item_data := data |} in
      let '(current, n) :=
        match rest with
        | (_, nextSize) :: _ =>
            let currentHalf := extent type size / 2 in
            let nextHalf := extent type nextSize / 2 in
            let '(extraSpacing, n) := randomOffset 0 minSpacing n in
            (advance type current
               (currentHalf + minSpacing + extraSpacing + nextHalf), n)
        | [] => (current, n)
        end in
      let '(items, id, n) := placeItems type rest current (S id) n in
      (item :: items, id, n)
  end.

(** [withSizes[0]?.size.height / 2 || 0] (or [width]) *)
Definition firstHalf (type : ContentType)
    (withSizes : list (ContentData * (R * R))) : R :=
  match withSizes with
  | [] => 0
  | (_, size) :: _ => orZero (extent type size / 2)
  end.

Definition generateContentPositions
    (whoisData worksData socialNetwork : list ContentData)
    (viewportWidth viewportHeight : option R)
    : list ContentItem * (R * R) :=
  let viewportWidth := default 1920 viewportWidth in
  let viewportHeight := default 1080 viewportHeight in
  let withSize (data : ContentData) := (data, calculateContentSize data) in
  let whoisWithSizes := map withSize whoisData in
  let worksWithSizes := map withSize worksData in
  let socialWithSizes := map withSize socialNetwork in
  let '(totalWhoisHeight, n) :=
    totalSize (map (fun d => extent whois d.2) whoisWithSizes)
      (viewportHeight / 2 + viewportBuffer) 0 in
  let '(totalWorksWidth, n) :=
    totalSize (map (fun d => extent works d.2) worksWithSizes)
      (viewportWidth / 2 + viewportBuffer) n in
  let '(totalSocialWidth, n) :=
    totalSize (map (fun d => extent social_network d.2) socialWithSizes)
      (viewportWidth / 2 + viewportBuffer) n in
  let mapBounds :=
    (IZR (Zceil (Rmax totalWorksWidth totalSocialWidth)),
     IZR (Zceil totalWhoisHeight)) in
  let startDistanceY := viewportHeight / 2 + viewportBuffer in
  let startDistanceX := viewportWidth / 2 + viewportBuffer in
  let '(whoisItems, id, n) :=
    placeItems whois whoisWithSizes
      (- startDistanceY - firstHalf whois whoisWithSizes) 0 n in
  let '(worksItems, id, n) :=
    placeItems works worksWithSizes
      (startDistanceX + firstHalf works worksWithSizes) id n in
  let '(socialItems, id, n) :=
    placeItems social_network socialWithSizes
      (- startDistanceX - firstHalf social_network socialWithSizes) id n in
  (whoisItems ++ worksItems ++ socialItems, mapBounds).

End ContentManager.

(** ** GameContext.tsx *)

Section Game.

Context {Texture : Type}.

Record GameState := {
  playerPosition : R * R;
  playerVelocity : R * R;
  playerRotation : R;
  targetRotation : R;
  cameraOffset : R * R;
  zoom : R;
  contentItems : list ContentItem;
  contentItemTextures : option (gmap string (Texture * R * R));
  isMobile : bool;
  isPortrait : bool;
  isReady : bool;
  assetsLoaded : bool;
  showDirectionalArrows : bool;
  isResetting : bool;
  mapSeed : R;
  mapBounds : option (R * R);
}.

(** The state the provider starts with; [seedDraw] is what
    [Math.random()] returned. *)
Definition initialState (seedDraw : R) : GameState :=
  {| playerPosition := (0, 0);
     playerVelocity := (0, 0);
     playerRotation := 0;
     targetRotation := 0;
     cameraOffset := (0, 0);
     zoom := 1.0;
     contentItems := [];
     contentItemTextures := None;
     isMobile := false;
     isPortrait := false;
     isReady := false;
     assetsLoaded := false;
     showDirectionalArrows := true;
     isResetting := false;
     mapSeed := seedDraw * 10000;
     mapBounds := None |}.

Definition updatePlayerPosition (x y : R) (prev : GameState) : GameState :=
  {| playerPosition := (x, y);
     playerVelocity := playerVelocity prev;
     playerRotation := playerRotation prev;
     targetRotation := targetRotation prev;
     cameraOffset := cameraOffset prev;
     zoom := zoom prev;
     contentItems := contentItems prev;
     contentItemTextures := contentItemTextures prev;
     isMobile := isMobile prev;
     isPortrait := isPortrait prev;
     isReady := isReady prev;
     assetsLoaded := assetsLoaded prev;
     showDirectionalArrows := showDirectionalArrows prev;
     isResetting := isResetting prev;
     mapSeed := mapSeed prev;
     mapBounds := mapBounds prev |}.

Definition updatePlayerVelocity (vx vy : R) (prev : GameState) : GameState :=
  {| playerPosition := playerPosition prev;
     playerVelocity := (vx, vy);
     playerRotation := playerRotation prev;
     targetRotation := targetRotation prev;
     cameraOffset := cameraOffset prev;
     zoom := zoom prev;
     contentItems := contentItems prev;
     contentItemTextures := contentItemTextures prev;
     isMobile := isMobile prev;
     isPortrait := isPortrait prev;
     isReady := isReady prev;
     assetsLoaded := assetsLoaded prev;
     showDirectionalArrows := showDirectionalArrows prev;
     isResetting := isResetting prev;
     mapSeed := mapSeed prev;
     mapBounds := mapBounds prev |}.

Definition setPlayerRotation (rotation : R) (prev : GameState) : GameState :=
  {| playerPosition := playerPosition prev;
     playerVelocity := playerVelocity prev;
     playerRotation := rotation;
     targetRotation := targetRotation prev;
     cameraOffset := cameraOffset prev;
     zoom := zoom prev;
     contentItems := contentItems prev;
     contentItemTextures := contentItemTextures prev;
     isMobile := isMobile prev;
     isPortrait := isPortrait prev;
     isReady := isReady prev;
     assetsLoaded := assetsLoaded prev;
     showDirectionalArrows := showDirectionalArrows prev;
     isResetting := isResetting prev;
     mapSeed := mapSeed prev;
     mapBounds := mapBounds prev |}.

Definition setTargetRotation (rotation : R) (prev : GameState) : GameState :=
  {| playerPosition := playerPosition prev;
     playerVelocity := playerVelocity prev;
     playerRotation := playerRotation prev;
     targetRotation := rotation;
     cameraOffset := cameraOffset prev;
     zoom := zoom prev;
     contentItems := contentItems prev;
     contentItemTextures := contentItemTextures prev;
     isMobile := isMobile prev;
     isPortrait := isPortrait prev;
     isReady := isReady prev;
     assetsLoaded := assetsLoaded prev;
     showDirectionalArrows := showDirectionalArrows prev;
     isResetting := isResetting prev;
     mapSeed := mapSeed prev;
     mapBounds := mapBounds prev |}.

Definition setCameraOffset (x y : R) (prev : GameState) : GameState :=
  {| playerPosition := playerPosition prev;
     playerVelocity := playerVelocity prev;
     playerRotation := playerRotation prev;
     targetRotation := targetRotation prev;
     cameraOffset := (x, y);
     zoom := zoom prev;
     contentItems := contentItems prev;
     contentItemTextures := contentItemTextures prev;
     isMobile := isMobile prev;
     isPortrait := isPortrait prev;
     isReady := isReady prev;
     assetsLoaded := assetsLoaded prev;
     showDirectionalArrows := showDirectionalArrows prev;
     isResetting := isResetting prev;
     mapSeed := mapSeed prev;
     mapBounds := mapBounds prev |}.

Definition setZoom (newZoom : R) (prev : GameState) : GameState :=
  {| playerPosition := playerPosition prev;
     playerVelocity := playerVelocity prev;
     playerRotation := playerRotation prev;
     targetRotation := targetRotation prev;
     cameraOffset := cameraOffset prev;
     zoom := Rmax MIN_ZOOM (Rmin MAX_ZOOM newZoom);
     contentItems := contentItems prev;
     contentItemTextures := contentItemTextures prev;
     isMobile := isMobile prev;
     isPortrait := isPortrait prev;
     isReady := isReady prev;
     assetsLoaded := assetsLoaded prev;
     showDirectionalArrows := showDirectionalArrows prev;
     isResetting := isResetting prev;
     mapSeed := mapSeed prev;
     mapBounds := mapBounds prev |}.

Definition setContentItems (items : list ContentItem) (prev : GameState)
    : GameState :=
  {| playerPosition := playerPosition prev;
     playerVelocity := playerVelocity prev;
     playerRotation := playerRotation prev;
     targetRotation := targetRotation prev;
     cameraOffset := cameraOffset prev;
     zoom := zoom prev;
     contentItems := items;
     contentItemTextures := contentItemTextures prev;
     isMobile := isMobile prev;
     isPortrait := isPortrait prev;
     isReady := isReady prev;
     assetsLoaded := assetsLoaded prev;
     showDirectionalArrows := showDirectionalArrows prev;
     isResetting := isResetting prev;
     mapSeed := mapSeed prev;
     mapBounds := mapBounds prev |}.

Definition setContentItemTextures (textures : gmap string (Texture * R * R))
    (prev : GameState) : GameState :=
  {| playerPosition := playerPosition prev;
     playerVelocity := playerVelocity prev;
     playerRotation := playerRotation prev;
     targetRotation := targetRotation prev;
     cameraOffset := cameraOffset prev;
     zoom := zoom prev;
     contentItems := contentItems prev;
     contentItemTextures := Some textures;
     isMobile := isMobile prev;
     isPortrait := isPortrait prev;
     isReady := isReady prev;
     assetsLoaded := assetsLoaded prev;
     showDirectionalArrows := showDirectionalArrows prev;
     isResetting := isResetting prev;
     mapSeed := mapSeed prev;
     mapBounds := mapBounds prev |}.

Definition setMapBounds (bounds : R * R) (prev : GameState) : GameState :=
  {| playerPosition := playerPosition prev;
     playerVelocity := playerVelocity prev;
     playerRotation := playerRotation prev;
     targetRotation := targetRotation prev;
     cameraOffset := cameraOffset prev;
     zoom := zoom prev;
     contentItems := contentItems prev;
     contentItemTextures := contentItemTextures prev;
     isMobile := isMobile prev;
     isPortrait := isPortrait prev;
     isReady := isReady prev;
     assetsLoaded := assetsLoaded prev;
     showDirectionalArrows := showDirectionalArrows prev;
     isResetting := isResetting prev;
     mapSeed := mapSeed prev;
     mapBounds := Some bounds |}.

Definition setIsMobile (mobile : bool) (prev : GameState) : GameState :=
  {| playerPosition := playerPosition prev;
     playerVelocity := playerVelocity prev;
     playerRotation := playerRotation prev;
     targetRotation := targetRotation prev;
     cameraOffset := cameraOffset prev;
     zoom := zoom prev;
     contentItems := contentItems prev;
     contentItemTextures := contentItemTextures prev;
     isMobile := mobile;
     isPortrait := isPortrait prev;
     isReady := isReady prev;
     assetsLoaded := assetsLoaded prev;
     showDirectionalArrows := showDirectionalArrows prev;
     isResetting := isResetting prev;
     mapSeed := mapSeed prev;
     mapBounds := mapBounds prev |}.

Definition setIsPortrait (portrait : bool) (prev : GameState) : GameState :=
  {| playerPosition := playerPosition prev;
     playerVelocity := playerVelocity prev;
     playerRotation := playerRotation prev;
     targetRotation := targetRotation prev;
     cameraOffset := cameraOffset prev;
     zoom := zoom prev;
     contentItems := contentItems prev;
     contentItemTextures := contentItemTextures prev;
     isMobile := isMobile prev;
     isPortrait := portrait;
     isReady := isReady prev;
     assetsLoaded := assetsLoaded prev;
     showDirectionalArrows := showDirectionalArrows prev;
     isResetting := isResetting prev;
     mapSeed := mapSeed prev;
     mapBounds := mapBounds prev |}.

Definition setIsReady (ready : bool) (prev : GameState) : GameState :=
  {| playerPosition := playerPosition prev;
     playerVelocity := playerVelocity prev;
     playerRotation := playerRotation prev;
     targetRotation := targetRotation prev;
     cameraOffset := cameraOffset prev;
     zoom := zoom prev;
     contentItems := contentItems prev;
     contentItemTextures := contentItemTextures prev;
     isMobile := isMobile prev;
     isPortrait := isPortrait prev;
     isReady := ready;
     assetsLoaded := assetsLoaded prev;
     showDirectionalArrows := showDirectionalArrows prev;
     isResetting := isResetting prev;
     mapSeed := mapSeed prev;
     mapBounds := mapBounds prev |}.

Definition setAssetsLoaded (loaded : bool) (prev : GameState) : GameState :=
  {| playerPosition := playerPosition prev;
     playerVelocity := playerVelocity prev;
     playerRotation := playerRotation prev;
     targetRotation := targetRotation prev;
     cameraOffset := cameraOffset prev;
     zoom := zoom prev;
     contentItems := contentItems prev;
     contentItemTextures := contentItemTextures prev;
     isMobile := isMobile prev;
     isPortrait := isPortrait prev;
     isReady := isReady prev;
     assetsLoaded := loaded;
     showDirectionalArrows := showDirectionalArrows prev;
     isResetting := isResetting prev;
     mapSeed := mapSeed prev;
     mapBounds := mapBounds prev |}.

Definition hideDirectionalArrows (prev : GameState) : GameState :=
  {| playerPosition := playerPosition prev;
     playerVelocity := playerVelocity prev;
     playerRotation := playerRotation prev;
     targetRotation := targetRotation prev;
     cameraOffset := cameraOffset prev;
     zoom := zoom prev;
     contentItems := contentItems prev;
     contentItemTextures := contentItemTextures prev;
     isMobile := isMobile prev;
     isPortrait := isPortrait prev;
     isReady := isReady prev;
     assetsLoaded := assetsLoaded prev;
     showDirectionalArrows := false;
     isResetting := isResetting prev;
     mapSeed := mapSeed prev;
     mapBounds := mapBounds prev |}.

(** [resetPlayer] updates the state twice: at once, raising
    [isResetting], and from its zero-delay timeout. *)
Definition resetPlayer (prev : GameState) : GameState :=
  {| playerPosition := playerPosition prev;
     playerVelocity := playerVelocity prev;
     playerRotation := playerRotation prev;
     targetRotation := targetRotation prev;
     cameraOffset := cameraOffset prev;
     zoom := zoom prev;
     contentItems := contentItems prev;
     contentItemTextures := contentItemTextures prev;
     isMobile := isMobile prev;
     isPortrait := isPortrait prev;
     isReady := isReady prev;
     assetsLoaded := assetsLoaded prev;
     showDirectionalArrows := showDirectionalArrows prev;
     isResetting := true;
     mapSeed := mapSeed prev;
     mapBounds := mapBounds prev |}.

Definition resetPlayer_timeout (prev : GameState) : GameState :=
  {| playerPosition := (0, 0);
     playerVelocity := (0, 0);
     playerRotation := 0;
     targetRotation := 0;
     cameraOffset := (0, 0);
     zoom := 1.0;
     contentItems := contentItems prev;
     contentItemTextures := contentItemTextures prev;
     isMobile := isMobile prev;
     isPortrait := isPortrait prev;
     isReady := isReady prev;
     assetsLoaded := assetsLoaded prev;
     showDirectionalArrows := true;
     isResetting := false;
     mapSeed := mapSeed prev;
     mapBounds := mapBounds prev |}.

(** ** Engine.tsx: the game loop *)

(** [((coordinate + bound) % total + total) % total - bound] *)
Definition wrapCoordinate (coordinate bound : R) : R :=
  let total := bound * 2 in
  js_mod (js_mod (coordinate + bound) total + total) total - bound.

(** The rotation one tick of the interpolation leads to. *)
Definition lerpRotation (playerRotation targetRotation deltaTime : R) : R :=
  let rotationDiff := targetRotation - playerRotation in
  let rotationDiff :=
    if Rgtb rotationDiff PI then rotationDiff - PI * 2 else rotationDiff in
  let rotationDiff :=
    if Rltb rotationDiff (- PI) then rotationDiff + PI * 2
    else rotationDiff in
  playerRotation + rotationDiff * ROTATION_LERP_FACTOR * deltaTime.

(** The callback of [useTick] for a frame of [deltaMS] milliseconds.  It
    reads the state [seen] by the render it was created in and updates
    the state [prev] the provider holds by then. *)
Definition tick (seen : GameState) (deltaMS : R) (prev : GameState)
    : GameState :=
  match isReady seen, mapBounds seen with
  | true, Some bounds =>
      let deltaTime := deltaMS / 1000 in
      let newX := (playerPosition seen).1
                  + (playerVelocity seen).1 * deltaTime in
      let newY := (playerPosition seen).2
                  + (playerVelocity seen).2 * deltaTime in
      let newX := wrapCoordinate newX bounds.1 in
      let newY := wrapCoordinate newY bounds.2 in
      let prev := updatePlayerPosition newX newY prev in
      if Rneb (playerVelocity seen).1 0 || Rneb (playerVelocity seen).2 0
      then
        setPlayerRotation
          (lerpRotation (playerRotation seen) (targetRotation seen)
             deltaTime) prev
      else prev
  | _, _ => prev
  end.

(** ** ContentItems.tsx *)

Definition renderDistance : R := 1500.

Record WrappedItem := {
  wrapped_item : ContentItem;
  wrappedPosition : R * R;
  wrapped_key : string;
}.

(** The body of [contentItems.forEach]: the copies of one item, among
    its position and the eight wrapped ones, that are near the player. *)
Definition wrappedCopies (playerPosition : R * R)
    (totalWidth totalHeight : R) (item : ContentItem) : list WrappedItem :=
  flat_map (fun dx : Z =>
    flat_map (fun dy : Z =>
      let wrappedX := (item_position item).1 + IZR dx * totalWidth in
      let wrappedY := (item_position item).2 + IZR dy * totalHeight in
      let distX := wrappedX - playerPosition.1 in
      let distY := wrappedY - playerPosition.2 in
      let distance := sqrt (distX * distX + distY * distY) in
      if Rltb distance renderDistance
      then [ {| wrapped_item := item;
                wrappedPosition := (wrappedX, wrappedY);
                wrapped_key :=
                  item_id item +:+ "-" +:+ pretty dx +:+ "-" +:+ pretty dy |} ]
      else [])
      (Zrange (-1) 1))
    (Zrange (-1) 1).

Definition visibleItems (state : GameState) : list WrappedItem :=
  match contentItemTextures state, mapBounds state with
  | Some _, Some bounds =>
      let totalWidth := bounds.1 * 2 in
      let totalHeight := bounds.2 * 2 in
      flat_map (wrappedCopies (playerPosition state) totalWidth totalHeight)
        (contentItems state)
  | _, _ => []
  end.



(** ** UseInputController.tsx *)

(** The refs of the hook. *)
Record InputRefs := {
  keysPressed : gset string;
  spacebarHeld : bool;
  mouseHeld : bool;
  touchStartPos : option (R * R);
  lastTouchDistance : R;
}.

Definition InputRefs_new : InputRefs :=
  {| keysPressed := ∅; spacebarHeld := false; mouseHeld := false;
     touchStartPos := None; lastTouchDistance := 0 |}.

Definition has (key : string) (keys : gset string) : bool :=
  bool_decide (key ∈ keys).

(** The velocity [updateVelocityFromKeys] computes. *)
Definition keyVelocity (refs : InputRefs) : R * R :=
  let keys := keysPressed refs in
  let vx := 0 in
  let vy := 0 in
  let vx := if has "ArrowLeft" keys || has "a" keys || has "A" keys
            then vx - 1 else vx in
  let vx := if has "ArrowRight" keys || has "d" keys || has "D" keys
            then vx + 1 else vx in
  let vy := if has "ArrowUp" keys || has "w" keys || has "W" keys
            then vy - 1 else vy in
  let vy := if has "ArrowDown" keys || has "s" keys || has "S" keys
            then vy + 1 else vy in
  let '(vx, vy) :=
    if Rneb vx 0 && Rneb vy 0 then
      let length := sqrt (vx * vx + vy * vy) in
      (vx / length * PLAYER_SPEED, vy / length * PLAYER_SPEED)
    else (vx * PLAYER_SPEED, vy * PLAYER_SPEED) in
  if spacebarHeld refs then (vx * 2, vy * 2) else (vx, vy).

(** Every handler reads the state [seen] by the render that created it
    and the refs, and updates the refs and the state [prev] of the
    provider. *)
Definition updateVelocityFromKeys (seen : GameState) (refs : InputRefs)
    (prev : GameState) : GameState :=
  if isResetting seen then prev
  else
    let '(vx, vy) := keyVelocity refs in
    let prev := updatePlayerVelocity vx vy prev in
    if Rneb vx 0 || Rneb vy 0 then
      let rotation := Math_atan2 vy vx + PI / 2 in
      hideDirectionalArrows (setTargetRotation rotation prev)
    else prev.

Definition handleKeyDown (seen : GameState) (key : string)
    (st : InputRefs * GameState) : InputRefs * GameState :=
  let '(refs, prev) := st in
  if String.eqb key " " then
    let refs :=
      {| keysPressed := keysPressed refs; spacebarHeld := true;
         mouseHeld := mouseHeld refs; touchStartPos := touchStartPos refs;
         lastTouchDistance := lastTouchDistance refs |} in
    (refs, updateVelocityFromKeys seen refs prev)
  else
    let refs :=
      {| keysPressed := {[ key ]} ∪ keysPressed refs;
         spacebarHeld := spacebarHeld refs;
         mouseHeld := mouseHeld refs; touchStartPos := touchStartPos refs;
         lastTouchDistance := lastTouchDistance refs |} in
    (refs, updateVelocityFromKeys seen refs prev).

Definition handleKeyUp (seen : GameState) (key : string)
    (st : InputRefs * GameState) : InputRefs * GameState :=
  let '(refs, prev) := st in
  if String.eqb key " " then
    let refs :=
      {| keysPressed := keysPressed refs; spacebarHeld := false;
         mouseHeld := mouseHeld refs; touchStartPos := touchStartPos refs;
         lastTouchDistance := lastTouchDistance refs |} in
    (refs, updateVelocityFromKeys seen refs prev)
  else
    let refs :=
      {| keysPressed := keysPressed refs ∖ {[ key ]};
         spacebarHeld := spacebarHeld refs;
         mouseHeld := mouseHeld refs; touchStartPos := touchStartPos refs;
         lastTouchDistance := lastTouchDistance refs |} in
    (refs, updateVelocityFromKeys seen refs prev).

(** [keysPressed.current.size === 0] *)
Definition noKeys (refs : InputRefs) : bool :=
  bool_decide (keysPressed refs = ∅).

Definition updateMouseDirection (innerWidth innerHeight : R)
    (clientX clientY : R) (refs : InputRefs) (prev : GameState)
    : GameState :=
  let screenCenterX := innerWidth / 2 in
  let screenCenterY := innerHeight / 2 in
  let dx := clientX - screenCenterX in
  let dy := clientY - screenCenterY in
  let length := sqrt (dx * dx + dy * dy) in
  if Rgtb length 0 then
    let vx := dx / length * PLAYER_SPEED in
    let vy := dy / length * PLAYER_SPEED in
    let '(vx, vy) :=
      if spacebarHeld refs then (vx * 2, vy * 2) else (vx, vy) in
    let prev := updatePlayerVelocity vx vy prev in
    let rotation := Math_atan2 dy dx + PI / 2 in
    hideDirectionalArrows (setTargetRotation rotation prev)
  else prev.

Definition setMouseHeld (held : bool) (refs : InputRefs) : InputRefs :=
  {| keysPressed := keysPressed refs; spacebarHeld := spacebarHeld refs;
     mouseHeld := held; touchStartPos := touchStartPos refs;
     lastTouchDistance := lastTouchDistance refs |}.

Definition handleMouseDown (seen : GameState) (innerWidth innerHeight : R)
    (clientX clientY : R) (st : InputRefs * GameState)
    : InputRefs * GameState :=
  let '(refs, prev) := st in
  if isResetting seen || negb (noKeys refs) then (refs, prev)
  else
    let refs := setMouseHeld true refs in
    (refs, updateMouseDirection innerWidth innerHeight clientX clientY
             refs prev).

Definition handleMouseMove (innerWidth innerHeight : R)
    (clientX clientY : R) (st : InputRefs * GameState)
    : InputRefs * GameState :=
  let '(refs, prev) := st in
  if mouseHeld refs && noKeys refs
  then (refs, updateMouseDirection innerWidth innerHeight clientX clientY
                refs prev)
  else (refs, prev).

Definition handleMouseUp (st : InputRefs * GameState)
    : InputRefs * GameState :=
  let '(refs, prev) := st in
  let refs := setMouseHeld false refs in
  if noKeys refs then (refs, updatePlayerVelocity 0 0 prev)
  else (refs, prev).

(** The body of the mouse effect, run again after a render in which
    [isResetting] changed. *)
Definition mouseEffect (seen : GameState) (st : InputRefs * GameState)
    : InputRefs * GameState :=
  let '(refs, prev) := st in
  if isResetting seen then (setMouseHeld false refs, prev) else (refs, prev).

Definition handleWheel (seen : GameState) (deltaY : R)
    (st : InputRefs * GameState) : InputRefs * GameState :=
  let '(refs, prev) := st in
  let delta := if Rgtb deltaY 0 then - ZOOM_STEP else ZOOM_STEP in
  let newZoom := Rmax MIN_ZOOM (Rmin MAX_ZOOM (zoom seen + delta)) in
  (refs, setZoom newZoom prev).

Definition updateTouchDirection (innerWidth innerHeight : R)
    (touch : R * R) (prev : GameState) : GameState :=
  let screenCenterX := innerWidth / 2 in
  let screenCenterY := innerHeight / 2 in
  let dx := touch.1 - screenCenterX in
  let dy := touch.2 - screenCenterY in
  let length := sqrt (dx * dx + dy * dy) in
  if Rgtb length 20 then
    let vx := dx / length * PLAYER_SPEED in
    let vy := dy / length * PLAYER_SPEED in
    let prev := updatePlayerVelocity vx vy prev in
    let rotation := Math_atan2 dy dx + PI / 2 in
    hideDirectionalArrows (setTargetRotation rotation prev)
  else prev.

Definition setTouch (start : option (R * R)) (distance : R)
    (refs : InputRefs) : InputRefs :=
  {| keysPressed := keysPressed refs; spacebarHeld := spacebarHeld refs;
     mouseHeld := mouseHeld refs; touchStartPos := start;
     lastTouchDistance := distance |}.

Definition handleTouchStart (innerWidth innerHeight : R)
    (touches : list (R * R)) (st : InputRefs * GameState)
    : InputRefs * GameState :=
  let '(refs, prev) := st in
  match touches with
  | [touch] =>
      (setTouch (Some touch) (lastTouchDistance refs) refs,
       updateTouchDirection innerWidth innerHeight touch prev)
  | [touch0; touch1] =>
      let prev := updatePlayerVelocity 0 0 prev in
      let dx := touch0.1 - touch1.1 in
      let dy := touch0.2 - touch1.2 in
      (setTouch None (sqrt (dx * dx + dy * dy)) refs, prev)
  | _ => (refs, prev)
  end.

Definition handleTouchMove (seen : GameState) (innerWidth innerHeight : R)
    (touches : list (R * R)) (st : InputRefs * GameState)
    : InputRefs * GameState :=
  let '(refs, prev) := st in
  match touches with
  | [touch] =>
      match touchStartPos refs with
      | Some _ =>
          (refs, updateTouchDirection innerWidth innerHeight touch prev)
      | None => (refs, prev)
      end
  | [touch0; touch1] =>
      let dx := touch0.1 - touch1.1 in
      let dy := touch0.2 - touch1.2 in
      let distance := sqrt (dx * dx + dy * dy) in
      let prev :=
        if Rgtb (lastTouchDistance refs) 0 then
          let delta := (distance - lastTouchDistance refs) * 0.01 in
          let newZoom := Rmax MIN_ZOOM (Rmin MAX_ZOOM (zoom seen + delta)) in
          setZoom newZoom prev
        else prev in
      (setTouch (touchStartPos refs) distance refs, prev)
  | _ => (refs, prev)
  end.

Definition handleTouchEnd (innerWidth innerHeight : R)
    (touches : list (R * R)) (st : InputRefs * GameState)
    : InputRefs * GameState :=
  let '(refs, prev) := st in
  match touches with
  | [] =>
      let prev := if noKeys refs then updatePlayerVelocity 0 0 prev
                  else prev in
      (setTouch None 0 refs, prev)
  | [touch] =>
      (setTouch (Some touch) 0 refs,
       updateTouchDirection innerWidth innerHeight touch prev)
  | _ => (refs, prev)
  end.

(** ** The game as a transition system *)

(** What the window delivers to the listeners of the hook. *)
Inductive Event :=
| keydown (key : string)
| keyup (key : string)
| mousedown (clientX clientY : R)
| mousemove (clientX clientY : R)
| mouseup
| wheel (deltaY : R)
| touchstart (touches : list (R * R))
| touchmove (touches : list (R * R))
| touchend (touches : list (R * R)).

Definition dispatch (seen : GameState) (innerWidth innerHeight : R)
    (event : Event) (st : InputRefs * GameState) : InputRefs * GameState :=
  match event with
  | keydown key => handleKeyDown seen key st
  | keyup key => handleKeyUp seen key st
  | mousedown clientX clientY =>
      handleMouseDown seen innerWidth innerHeight clientX clientY st
  | mousemove clientX clientY =>
      handleMouseMove innerWidth innerHeight clientX clientY st
  | mouseup => handleMouseUp st
  | wheel deltaY => handleWheel seen deltaY st
  | touchstart touches => handleTouchStart innerWidth innerHeight touches st
  | touchmove touches =>
      handleTouchMove seen innerWidth innerHeight touches st
  | touchend touches => handleTouchEnd innerWidth innerHeight touches st
  end.

(** The calls of the context's actions from the rest of the application:
    the loading of the assets and of the content in [Main], the
    orientation guard, the device detection, and the reset of the
    overlay. *)
Inductive Action :=
| act_setAssetsLoaded (loaded : bool)
| act_setContentItems (items : list ContentItem)
| act_setContentItemTextures (textures : gmap string (Texture * R * R))
| act_setMapBounds (bounds : R * R)
| act_setIsReady (ready : bool)
| act_setIsPortrait (portrait : bool)
| act_setIsMobile (mobile : bool)
| act_setCameraOffset (x y : R)
| act_resetPlayer
| act_resetPlayer_timeout.

Definition perform (action : Action) (prev : GameState) : GameState :=
  match action with
  | act_setAssetsLoaded loaded => setAssetsLoaded loaded prev
  | act_setContentItems items => setContentItems items prev
  | act_setContentItemTextures textures =>
      setContentItemTextures textures prev
  | act_setMapBounds bounds => setMapBounds bounds prev
  | act_setIsReady ready => setIsReady ready prev
  | act_setIsPortrait portrait => setIsPortrait portrait prev
  | act_setIsMobile mobile => setIsMobile mobile prev
  | act_setCameraOffset x y => setCameraOffset x y prev
  | act_resetPlayer => resetPlayer prev
  | act_resetPlayer_timeout => resetPlayer_timeout prev
  end.

(** The refs and states the game goes through.  Each callback runs with
    the state [seen] of some earlier render, which is left open here. *)
Inductive playing : InputRefs * GameState -> Prop :=
| playing_mount seedDraw :
    playing (InputRefs_new, initialState seedDraw)
| playing_event seen innerWidth innerHeight event st :
    playing st -> playing (dispatch seen innerWidth innerHeight event st)
| playing_effect seen st :
    playing st -> playing (mouseEffect seen st)
| playing_tick seen deltaMS st :
    playing st -> playing (st.1, tick seen deltaMS st.2)
| playing_action action st :
    playing st -> playing (st.1, perform action st.2).

End Game.

(** ** Notions the statements about the game use *)



(** The length of a velocity, in pixels per second. *)
Definition speed (velocity : R * R) : R :=
  sqrt (velocity.1 * velocity.1 + velocity.2 * velocity.2).

(** The jet flies where its target rotation points: a sprite that faces
    up and is turned by [rotation] points along [(sin, - cos)]. *)
Definition headed (velocity : R * R) (rotation : R) : Prop :=
  velocity.1 = speed velocity * sin rotation /\
  velocity.2 = - (speed velocity * cos rotation).

(** At rest, or at one of the two speeds and headed where it flies. *)
Definition velocity_inv {Texture : Type} (state : @GameState Texture)
    : Prop :=
  playerVelocity state = (0, 0) \/
  (speed (playerVelocity state) = PLAYER_SPEED
   \/ speed (playerVelocity state) = PLAYER_SPEED * 2) /\
  headed (playerVelocity state) (targetRotation state).

(** How far along the line of its category a position lies: upwards for
    whois, to the right for works, to the left for social. *)
Definition along (type : ContentType) (position : R * R) : R :=
  match type with
  | whois => - position.2
  | works => position.1
  | social_network => - position.1
  end.

(** The same for the loop variable [currentY], [currentX] or
    [currentNegX] of the placing loops. *)
Definition alongCurrent (type : ContentType) (current : R) : R :=
  match type with works => current | _ => - current end.

(** The offset of a position from the line of its category. *)
Definition across (type : ContentType) (position : R * R) : R :=
  match type with
  | whois => position.1
  | works | social_network => position.2
  end.

Definition ContentType_eqb (a b : ContentType) : bool :=
  match a, b with
  | whois, whois | works, works | social_network, social_network => true
  | _, _ => false
  end.

(** The items of one category, in the order of the list. *)
Definition ofType (type : ContentType) (items : list ContentItem)
    : list ContentItem :=
  List.filter (fun item => ContentType_eqb (item_type item) type) items.

Section Boxes.

Variable measureText : TextStyle -> string -> R * R.

(** The extent of the box of an item along the line of its category. *)
Definition boxExtent (item : ContentItem) : R :=
  extent (item_type item) (calculateContentSize measureText (item_data item)).

(** The edge of the box of an item that is nearest to the origin, and the
    one that is farthest, along the line of its category. *)
Definition nearEdge (item : ContentItem) : R :=
  along (item_type item) (item_position item) - boxExtent item / 2.

Definition farEdge (item : ContentItem) : R :=
  along (item_type item) (item_position item) + boxExtent item / 2.

(** The free space between each box and the next in a list. *)
Fixpoint gaps (items : list ContentItem) : list R :=
  match items with
  | item :: (next :: _) as rest => (nearEdge next - farEdge item) :: gaps rest
  | _ => []
  end.

End Boxes.

(** The viewport dimension along the line of a category. *)
Definition viewportAlong (type : ContentType)
    (viewportWidth viewportHeight : R) : R :=
  match type with
  | whois => viewportHeight
  | works | social_network => viewportWidth
  end.

(** ** A small game, for the instances *)

(** A game that is ready, on a map of 5000 by 5000 pixels. *)
Definition readyState : @GameState AssetName :=
  setIsReady true (setMapBounds (2500, 2500) (initialState 0)).

(** The ready game with its textures and one item near the right edge of
    the map, the player near the left edge. *)
Definition edgeItem : ContentItem :=
  {| item_id := "works-0"; item_type := works; item_position := (2400, 0);
     item_data := {| header := "Portfolio"; content := "A game";
                     image := None; url_link := None |} |}.

Definition edgeState : @GameState AssetName :=
  updatePlayerPosition (-2400) 0
    (setContentItemTextures ∅ (setContentItems [edgeItem] readyState)).



(** A touch 30 pixels right of the centre of a window of 800 by 600,
    in a new game. *)
Definition touchedRight : InputRefs * @GameState AssetName :=
  dispatch (initialState 0) 800 600 (touchstart [(430, 300)])
    (InputRefs_new, initialState 0).


(** Texts measured at 16 by 32 pixels per character, on one line. *)
Definition measureMonospace (style : TextStyle) (text : string) : R * R :=
  (IZR (Z.of_nat (String.length text)) * 16, 32).

(** [Math.random] returning one half every time. *)
Definition randomHalf (n : nat) : R := 1 / 2.

Definition twoTexts : list ContentData :=
  [ {| header := "Who"; content := "A developer"; image := None;
       url_link := None |};
    {| header := "Where"; content := "On the web"; image := None;
       url_link := None |} ].

(** * The pre-rendered images *)

(** ** ContentItemImageGenerator.ts *)

(** [text.split(sep)] for a separator of one character. *)
Fixpoint split (sep : ascii) (text : string) : list string :=
  match text with
  | EmptyString => [EmptyString]
  | String c rest =>
      if Ascii.eqb c sep then EmptyString :: split sep rest
      else match split sep rest with
           | word :: words => String c word :: words
           | [] => [String c EmptyString]
           end
  end.

(** A string in a condition: the empty string counts as false. *)
Definition nonEmpty (text : string) : bool := negb (String.eqb text "").

Module ContentItemImage.

(** The generator's own [seededRandom(seed, index)]. *)
Definition seededRandom (seed index : R) : R :=
  let x := sin (seed + index * 12.9898) * 43758.5453 in
  x - IZR (Zfloor x).

Record TextMeasure := {
  measure_width : R;
  measure_height : R;
  measure_lines : list string;
}.

Section MeasureText.

(** What [ctx.measureText(text)] reports once [ctx.font] is set: the
    width, [actualBoundingBoxAscent] and [actualBoundingBoxDescent]. *)
Variable canvasMetrics : string -> string -> R * R * R.

Definition textWidth (font text : string) : R := (canvasMetrics font text).1.1.

(** The body of [words.forEach]: the lines pushed so far and the line
    being filled. *)
Definition wrapWord (font : string) (maxWidth : R)
    (st : list string * string) (word : string) : list string * string :=
  let '(lines, currentLine) := st in
  let testLine := if nonEmpty currentLine
                  then currentLine +:+ " " +:+ word else word in
  let testWidth := textWidth font testLine in
  if Rleb testWidth maxWidth then (lines, testLine)
  else ((if nonEmpty currentLine then lines ++ [currentLine] else lines),
        word).

Definition measureText (text font : string) (maxWidth : R) : TextMeasure :=
  let metrics := canvasMetrics font text in
  let singleLineWidth := metrics.1.1 in
  if Rleb singleLineWidth maxWidth then
    {| measure_width := singleLineWidth;
       measure_height := metrics.1.2 + metrics.2;
       measure_lines := [text] |}
  else
    let words := split " " text in
    let '(lines, currentLine) :=
      fold_left (wrapWord font maxWidth) words ([], EmptyString) in
    let lines := if nonEmpty currentLine then lines ++ [currentLine]
                 else lines in
    let maxLineWidth :=
      fold_left (fun maxLineWidth line =>
                   Rmax maxLineWidth (textWidth font line)) lines 0 in
    let lineHeight := metrics.1.2 + metrics.2 in
    let totalHeight := lineHeight * INR (length lines) * 1.2 in
    {| measure_width := maxLineWidth;
       measure_height := totalHeight;
       measure_lines := lines |}.

End MeasureText.

(** [id.split('').reduce((acc, char) => acc + char.charCodeAt(0), 0)],
    for an id of ASCII characters. *)
Fixpoint charCodeSum (acc : R) (text : string) : R :=
  match text with
  | EmptyString => acc
  | String char rest => charCodeSum (acc + INR (nat_of_ascii char)) rest
  end.

Definition idSeed (id : string) : R := charCodeSum 0 id.

Definition maxDepth : Z := 4.

Definition getDepthForAngle (seed angle : R) : Z :=
  let normalizedAngle :=
    js_mod (js_mod angle (PI * 2) + PI * 2) (PI * 2) in
  let segmentSize := PI * 2 / 8 in
  let segmentIndex := Zfloor (normalizedAngle / segmentSize) in
  let nextSegmentIndex := Z.rem (segmentIndex + 1) 8 in
  let t := (normalizedAngle - IZR segmentIndex * segmentSize) / segmentSize in
  let depth1 := Zfloor (2 + seededRandom seed (IZR segmentIndex) * 3) in
  let depth2 := Zfloor (2 + seededRandom seed (IZR nextSegmentIndex) * 3) in
  Zfloor (IZR depth1 + (IZR depth2 - IZR depth1) * t).

(** How far a tile outside the frame is from it, in tiles. *)
Definition distanceFromEdge (halfWidth halfHeight tileX tileY : Z) : R :=
  let dx := if (tileX <? - halfWidth - 1)%Z then (- halfWidth - 1 - tileX)%Z
            else if (tileX >? halfWidth + 1)%Z then (tileX - halfWidth - 1)%Z
            else 0%Z in
  let dy := if (tileY <? - halfHeight - 1)%Z then (- halfHeight - 1 - tileY)%Z
            else if (tileY >? halfHeight + 1)%Z then (tileY - halfHeight - 1)%Z
            else 0%Z in
  sqrt (IZR dx * IZR dx + IZR dy * IZR dy).

Definition isOutsideContent (halfWidth halfHeight tileX tileY : Z) : bool :=
  (tileX <? - halfWidth - 1)%Z || (tileX >? halfWidth + 1)%Z
  || (tileY <? - halfHeight - 1)%Z || (tileY >? halfHeight + 1)%Z.

(** The two [for] loops that collect the tiles of the border. *)
Definition borderTiles (seed : R) (halfWidth halfHeight : Z) : list (R * R) :=
  flat_map (fun tileY =>
    flat_map (fun tileX =>
      if isOutsideContent halfWidth halfHeight tileX tileY then
        let angle := Math_atan2 (IZR tileY) (IZR tileX) in
        let depth := getDepthForAngle seed angle in
        if Rleb (distanceFromEdge halfWidth halfHeight tileX tileY)
                (IZR depth)
        then [(IZR tileX * TILE_SIZE, IZR tileY * TILE_SIZE)]
        else []
      else [])
      (Zrange (- halfWidth - maxDepth) (halfWidth + maxDepth)))
    (Zrange (- halfHeight - maxDepth) (halfHeight + maxDepth)).

(** What [generateContentItemImage] puts on its canvas. *)
Record ContentImage := {
  contentWidth : R;
  contentHeight : R;
  canvasWidth : R;
  canvasHeight : R;
  (** [fillRect]: the dark frame and the light content area, each as
      x, y, width, height *)
  frameRect : R * R * R * R;
  contentRect : R * R * R * R;
  (** [drawImage]: the corner of each tile sprite, of [TILE_SIZE] square *)
  tileCorners : list (R * R);
  headerLines : list string;
  bodyLines : list string;
}.

Section GenerateContentItemImage.

Variable canvasMetrics : string -> string -> R * R * R.

(** The font names are quoted with double quotes in the source. *)
Definition generateContentItemImage (data : ContentData) (id : string)
    : ContentImage :=
  let headerFont := "80px 'Jersey 10', sans-serif" in
  let bodyFont := "32px 'Jersey 10', sans-serif" in
  let maxTextWidth := 700 in
  let padding := 40 in
  let verticalGap := 20 in
  let headerMeasure :=
    measureText canvasMetrics (header data) headerFont maxTextWidth in
  let bodyMeasure :=
    measureText canvasMetrics (content data) bodyFont maxTextWidth in
  let contentWidth :=
    Rmax (measure_width headerMeasure) (measure_width bodyMeasure)
    + padding * 2 in
  let contentHeight :=
    measure_height headerMeasure + verticalGap + measure_height bodyMeasure
    + padding * 2 in
  let halfWidth := Zfloor (contentWidth / 2 / TILE_SIZE) in
  let halfHeight := Zfloor (contentHeight / 2 / TILE_SIZE) in
  let borderGap := TILE_SIZE in
  let canvasWidth :=
    contentWidth + (IZR maxDepth * 2 + 2) * TILE_SIZE * 2 in
  let canvasHeight :=
    contentHeight + (IZR maxDepth * 2 + 2) * TILE_SIZE * 2 in
  let centerX := canvasWidth / 2 in
  let centerY := canvasHeight / 2 in
  let seed := idSeed id in
  {| contentWidth := contentWidth;
     contentHeight := contentHeight;
     canvasWidth := canvasWidth;
     canvasHeight := canvasHeight;
     frameRect :=
       (centerX - contentWidth / 2 - borderGap,
        centerY - contentHeight / 2 - borderGap,
        contentWidth + borderGap * 2,
        contentHeight + borderGap * 2);
     contentRect :=
       (centerX - contentWidth / 2, centerY - contentHeight / 2,
        contentWidth, contentHeight);
     tileCorners :=
       map (fun tile : R * R =>
              (centerX + tile.1 - TILE_SIZE / 2,
               centerY + tile.2 - TILE_SIZE / 2))
           (borderTiles seed halfWidth halfHeight);
     headerLines := measure_lines headerMeasure;
     bodyLines := measure_lines bodyMeasure |}.

End GenerateContentItemImage.

End ContentItemImage.

(** ** CloudLayer.tsx *)

Definition CLOUD_PARALLAX : R := 0.6.

Section CloudLayer.

Context {Texture : Type}.

Record CloudImageData := {
  cloud_imageUrl : string;
  cloud_texture : Texture;
  cloud_width : R;
  cloud_height : R;
  cloud_offsetX : R;
  cloud_offsetY : R;
  cloud_isTiled : bool;
}.

(** The positions of the sprites [CloudLayer] renders, row by row. *)
Definition CloudLayer (state : @GameState Texture)
    (cloudImage : CloudImageData) : list (R * R) :=
  let parallaxOffsetX := (playerPosition state).1 * (1 - CLOUD_PARALLAX) in
  let parallaxOffsetY := (playerPosition state).2 * (1 - CLOUD_PARALLAX) in
  match cloud_isTiled cloudImage, mapBounds state with
  | true, Some mapBounds =>
      let tileWidth := cloud_width cloudImage in
      let tileHeight := cloud_height cloudImage in
      let tiledWidth := mapBounds.1 * 2 in
      let tiledHeight := mapBounds.2 * 2 in
      let tilesX := (Zceil (tiledWidth / tileWidth) + 1)%Z in
      let tilesY := (Zceil (tiledHeight / tileHeight) + 1)%Z in
      flat_map (fun y =>
        map (fun x =>
          (- mapBounds.1 + IZR x * tileWidth
             + js_mod parallaxOffsetX tileWidth,
           - mapBounds.2 + IZR y * tileHeight
             + js_mod parallaxOffsetY tileHeight))
          (Zrange 0 (tilesX - 1)))
        (Zrange 0 (tilesY - 1))
  | _, _ =>
      [(cloud_offsetX cloudImage + parallaxOffsetX,
        cloud_offsetY cloudImage + parallaxOffsetY)]
  end.

End CloudLayer.

(** ** Small inputs, for the instances *)

(** A canvas that measures every character 10 pixels wide, 8 above and 2
    below the baseline. *)
Definition metricsMonospace (font text : string) : R * R * R :=
  (IZR (Z.of_nat (String.length text)) * 10, 8, 2).

(** The repeatable cloud pattern of 2000 by 2000 pixels. *)
Definition tiledClouds : @CloudImageData AssetName :=
  {| cloud_imageUrl := "blob:clouds"; cloud_texture := CloudCovered;
     cloud_width := 2000; cloud_height := 2000;
     cloud_offsetX := 0; cloud_offsetY := 0; cloud_isTiled := true |}.

(** * Properties *)

(** ** Booleans of comparisons *)

Lemma Rltb_true a b : Rltb a b = true <-> a < b.
Proof. unfold Rltb. destruct (Rlt_dec a b); split; [done|done|done|lra]. Qed.

Lemma Rltb_false a b : Rltb a b = false <-> b <= a.
Proof. unfold Rltb. destruct (Rlt_dec a b); split; [done|lra|lra|done]. Qed.

Lemma Rleb_true a b : Rleb a b = true <-> a <= b.
Proof. unfold Rleb. destruct (Rle_dec a b); split; [done|done|done|lra]. Qed.

Lemma Rgtb_true a b : Rgtb a b = true <-> a > b.
Proof. unfold Rgtb. rewrite Rltb_true. lra. Qed.

(** ** The random source *)

Lemma seededRandom_range x y seed : 0 <= seededRandom x y seed < 1.
Proof.
  unfold seededRandom.
  pose proof (Zfloor_bound (sin (x * 12.9898 + y * 78.233 + seed) * 43758.5453)).
  simpl. lra.
Qed.

(** [Math.floor(r * n)] for a draw [r] and a positive integer [n] is one of
    [0 .. n-1]. *)
Lemma floor_draw (r : R) (n : Z) :
  0 <= r < 1 -> (0 < n)%Z -> (0 <= Zfloor (r * IZR n) <= n - 1)%Z.
Proof.
  intros [Hr0 Hr1] Hn.
  assert (Hn' : 0 < IZR n) by (apply IZR_lt; lia).
  pose proof (Zfloor_bound (r * IZR n)) as [Hlo Hhi].
  split.
  - apply Zfloor_lub. simpl. nra.
  - assert (IZR (Zfloor (r * IZR n)) < IZR n) by nra.
    apply lt_IZR in H. lia.
Qed.

(** ** Counting loops *)

Lemma Zrange_In lo hi k : In k (Zrange lo hi) <-> (lo <= k <= hi)%Z.
Proof.
  unfold Zrange. rewrite in_map_iff. split.
  - intros (n & <- & Hn). apply in_seq in Hn. lia.
  - intros Hk. exists (Z.to_nat (k - lo)). split; [lia|].
    apply in_seq. lia.
Qed.

Lemma Zrange_length lo hi : length (Zrange lo hi) = Z.to_nat (hi - lo + 1).
Proof. unfold Zrange. by rewrite length_map, length_seq. Qed.

Lemma Zrange_NoDup lo hi : List.NoDup (Zrange lo hi).
Proof.
  unfold Zrange. apply Stdlib.Lists.Finite.Injective_map_NoDup; [|apply seq_NoDup].
  intros a b. lia.
Qed.

(** ** Cache keys *)

Lemma comma_free_pretty_N_go (x : N) (s : string) :
  comma_free s = true -> comma_free (pretty_N_go x s) = true.
Proof.
  revert s. induction (N.lt_wf_0 x) as [x _ IH]; intros s Hs.
  destruct (decide (x = 0)%N) as [->|Hx]; [by rewrite pretty_N_go_0|].
  rewrite pretty_N_go_step by lia.
  apply IH; [apply N.div_lt; lia|].
  cbn [comma_free]. rewrite Hs, andb_true_r.
  unfold pretty_N_char. by repeat case_match.
Qed.

Lemma comma_free_pretty_Z (z : Z) : comma_free (pretty z) = true.
Proof.
  assert (HN : forall n : N, comma_free (pretty n) = true).
  { intros n. unfold pretty, pretty_N. case_decide; [done|].
    by apply comma_free_pretty_N_go. }
  destruct z as [|p|p]; [done|apply (HN (Npos p))|].
  change (pretty (Z.neg p)) with (String "-" (pretty (Npos p))).
  cbn [comma_free]. by rewrite (HN (Npos p)).
Qed.

Lemma comma_split (a a' b b' : string) :
  comma_free a = true -> comma_free a' = true ->
  a +:+ "," +:+ b = a' +:+ "," +:+ b' -> a = a' /\ b = b'.
Proof.
  revert a'. induction a as [|c a IH]; intros [|c' a'] Ha Ha' Heq;
    cbn [String.append comma_free] in *.
  - by injection Heq.
  - injection Heq as <- _. done.
  - injection Heq as -> _. done.
  - injection Heq as <- Heq.
    apply andb_true_iff in Ha as [_ Ha], Ha' as [_ Ha'].
    destruct (IH a' Ha Ha' Heq) as [-> ->]. done.
Qed.

(** The key string of a coordinate determines the coordinate. *)
Lemma getKey_inj (x y x' y' : Z) :
  getKey x y = getKey x' y' -> x = x' /\ y = y'.
Proof.
  unfold getKey. intros Heq.
  apply comma_split in Heq as [Hx Hy]; try apply comma_free_pretty_Z.
  split; by apply (inj pretty).
Qed.

Section Properties.

Context {Texture : Type}.
#[local] Abbreviation AssetDictionary := (@AssetDictionary Texture).
#[local] Abbreviation Island := (@Island Texture).
#[local] Abbreviation CloudFormation := (@CloudFormation Texture).
#[local] Abbreviation Chunk := (@Chunk Texture).
#[local] Abbreviation ChunkCache := (@ChunkCache Texture).
#[local] Abbreviation ChunkRef := (@ChunkRef Texture).

(** ** C5: the candidates of the shape synthesizer *)

(** C5. For every island candidate [i] of a chunk, the drawn base radius
    is between 8 and 18 tiles inclusive, and the candidate's center lies
    between 0.2 and 0.8 of the chunk extent on each axis, measured from the
    chunk's origin and converted to pixels. *)
Theorem islandCandidate_bounds (chunkX chunkY : Z) (seed : R) (i : Z) :
  let '(centerX, centerY, baseRadius) := islandCandidate chunkX chunkY seed i in
  (8 <= baseRadius <= 18)%Z /\
  (IZR chunkX * CHUNK_SIZE + 0.2 * CHUNK_SIZE) * TILE_SIZE <= centerX
    <= (IZR chunkX * CHUNK_SIZE + 0.8 * CHUNK_SIZE) * TILE_SIZE /\
  (IZR chunkY * CHUNK_SIZE + 0.2 * CHUNK_SIZE) * TILE_SIZE <= centerY
    <= (IZR chunkY * CHUNK_SIZE + 0.8 * CHUNK_SIZE) * TILE_SIZE.
Proof.
  unfold islandCandidate.
  pose proof (seededRandom_range (IZR chunkX) (IZR chunkY) (seed + IZR i * 10)).
  pose proof (seededRandom_range (IZR chunkX) (IZR chunkY) (seed + IZR i * 10 + 1)).
  pose proof (floor_draw _ 10
    (seededRandom_range (IZR chunkX) (IZR chunkY) (seed + IZR i * 10 + 2))
    ltac:(lia)).
  unfold CHUNK_SIZE, TILE_SIZE, SPRITE_TILE_SIZE, GAME_SCALE.
  repeat split; try lia; lra.
Qed.

(** ** C3: clearance of the deep-water patches *)

Lemma farFromIslands_spec (islands : list Island) (globalX globalY : R) :
  farFromIslands islands globalX globalY = true <->
  forall island, In island islands ->
    distance globalX globalY (island_centerX island) (island_centerY island)
      > island_radius island + 100.
Proof.
  unfold farFromIslands. rewrite forallb_forall.
  split; intros H island Hin; specialize (H island Hin);
    apply Rgtb_true; exact H.
Qed.

Lemma patchStep_fold chunkX chunkY seed (islands : list Island) idxs patches :
  fold_left (patchStep chunkX chunkY seed islands) idxs patches
  = patches ++
    flat_map (fun c : R * R * Z => patchPoints c.1.1 c.1.2 c.2)
      (List.filter (fun c : R * R * Z => farFromIslands islands c.1.1 c.1.2)
         (map (patchCandidate chunkX chunkY seed) idxs)).
Proof.
  revert patches.
  induction idxs as [|i idxs IH]; intros patches;
    cbn [fold_left map List.filter flat_map].
  - by rewrite app_nil_r.
  - rewrite IH. unfold patchStep.
    destruct (patchCandidate chunkX chunkY seed i) as [[gx gy] sz].
    cbn [fst snd].
    destruct (farFromIslands islands gx gy); cbn [flat_map fst snd]; [|done].
    by rewrite <- app_assoc.
Qed.

(** ** C6: the candidates of the deep-water patch synthesizer *)

Lemma patchPoints_holds_center globalX globalY (patchSize : Z) :
  (0 <= patchSize)%Z ->
  In {| pt_x := globalX; pt_y := globalY |}
     (patchPoints globalX globalY patchSize).
Proof.
  intros Hs. unfold patchPoints.
  apply in_flat_map. exists 0%Z. split; [apply Zrange_In; lia|].
  apply in_flat_map. exists 0%Z. split; [apply Zrange_In; lia|].
  rewrite (proj2 (Rleb_true _ _)).
  - left. f_equal; lra.
  - replace (0 * 0 + 0 * 0) with 0 by ring. rewrite sqrt_0.
    apply IZR_le. lia.
Qed.

(** C6. For every chunk the patch synthesizer draws between 3 and 8
    candidate clusters, and every candidate cluster has a radius between
    3 and 8 tiles.  What [generateDeepOceanPatches] returns is made of
    these candidates and of nothing else: it is the discs of the
    candidates that are far from the islands, one after the other, so the
    centre of every such candidate is among the points returned, and
    without islands every one of the 3 to 8 candidates contributes its
    disc. *)
Theorem patch_candidates_bounds (chunkX chunkY : Z) (seed : R)
    (islands : list Island) :
  (3 <= patchCount chunkX chunkY seed <= 8)%Z /\
  length (Zrange 0 (patchCount chunkX chunkY seed - 1))
    = Z.to_nat (patchCount chunkX chunkY seed) /\
  (forall i : Z, (3 <= (patchCandidate chunkX chunkY seed i).2 <= 8)%Z) /\
  let candidates :=
    map (patchCandidate chunkX chunkY seed)
      (Zrange 0 (patchCount chunkX chunkY seed - 1)) in
  (3 <= length candidates <= 8)%nat /\
  generateDeepOceanPatches chunkX chunkY seed islands
  = flat_map (fun c : R * R * Z =>
                if farFromIslands islands c.1.1 c.1.2
                then patchPoints c.1.1 c.1.2 c.2 else [])
      candidates /\
  (forall c : R * R * Z,
     In c candidates -> farFromIslands islands c.1.1 c.1.2 = true ->
     In {| pt_x := c.1.1; pt_y := c.1.2 |}
        (generateDeepOceanPatches chunkX chunkY seed islands)) /\
  generateDeepOceanPatches chunkX chunkY seed (@nil Island)
  = flat_map (fun c : R * R * Z => patchPoints c.1.1 c.1.2 c.2) candidates.
Proof.
  assert (Hcount : (3 <= patchCount chunkX chunkY seed <= 8)%Z).
  { unfold patchCount.
    pose proof (floor_draw _ 6
      (seededRandom_range (IZR chunkX) (IZR chunkY) (seed + 9000))
      ltac:(lia)).
    lia. }
  assert (Hsize : forall i : Z,
            (3 <= (patchCandidate chunkX chunkY seed i).2 <= 7)%Z).
  { intros i. unfold patchCandidate. cbn [snd].
    pose proof (floor_draw _ 5
      (seededRandom_range (IZR chunkX) (IZR chunkY)
         (seed + 9000 + IZR i * 3 + 2)) ltac:(lia)).
    lia. }
  assert (Hlen : length (Zrange 0 (patchCount chunkX chunkY seed - 1))
                 = Z.to_nat (patchCount chunkX chunkY seed)).
  { rewrite Zrange_length. f_equal. lia. }
  assert (Hflat : forall (isles : list Island) (cands : list (R * R * Z)),
    flat_map (fun c : R * R * Z => patchPoints c.1.1 c.1.2 c.2)
      (List.filter (fun c : R * R * Z => farFromIslands isles c.1.1 c.1.2)
         cands)
    = flat_map (fun c : R * R * Z =>
                  if farFromIslands isles c.1.1 c.1.2
                  then patchPoints c.1.1 c.1.2 c.2 else []) cands).
  { intros isles cands. induction cands as [|c cands IH]; [done|].
    cbn [List.filter flat_map].
    destruct (farFromIslands isles c.1.1 c.1.2); cbn [flat_map app];
      by rewrite IH. }
  assert (Hgen : forall isles : list Island,
    generateDeepOceanPatches chunkX chunkY seed isles
    = flat_map (fun c : R * R * Z =>
                  if farFromIslands isles c.1.1 c.1.2
                  then patchPoints c.1.1 c.1.2 c.2 else [])
        (map (patchCandidate chunkX chunkY seed)
           (Zrange 0 (patchCount chunkX chunkY seed - 1)))).
  { intros isles. unfold generateDeepOceanPatches.
    rewrite patchStep_fold. cbn [app]. apply Hflat. }
  split; [exact Hcount|]. split; [exact Hlen|].
  split; [intros i; specialize (Hsize i); lia|].
  cbv zeta. split; [rewrite length_map, Hlen; lia|].
  split; [apply Hgen|]. split.
  - intros c Hc Hfar. rewrite Hgen. apply in_flat_map.
    exists c. split; [done|]. rewrite Hfar.
    apply patchPoints_holds_center.
    apply in_map_iff in Hc as (i & <- & _). specialize (Hsize i). lia.
  - rewrite Hgen. apply flat_map_ext. intros c. reflexivity.
Qed.

(** ** C3: the clearance theorem *)

(** C3. In every generated chunk the patch points are the discs around the
    accepted patch centers; every accepted center is strictly farther than
    [island.radius + 100] from the center of every island of the chunk; and
    a candidate that fails the test against some island adds nothing to the
    patches (its slot draws no second candidate). *)
Theorem patch_clearance (chunkX chunkY : Z) (seed : R)
    (assets : AssetDictionary) :
  let chunk := generateChunk chunkX chunkY seed assets in
  let accepted :=
    acceptedPatches chunkX chunkY seed (chunk_islands chunk) in
  chunk_deepOceanPatches chunk
    = flat_map (fun c : R * R * Z => patchPoints c.1.1 c.1.2 c.2) accepted /\
  (forall globalX globalY patchSize island,
     In (globalX, globalY, patchSize) accepted ->
     In island (chunk_islands chunk) ->
     distance globalX globalY (island_centerX island) (island_centerY island)
       > island_radius island + 100) /\
  (forall i patches island,
     In island (chunk_islands chunk) ->
     distance (patchCandidate chunkX chunkY seed i).1.1
              (patchCandidate chunkX chunkY seed i).1.2
              (island_centerX island) (island_centerY island)
       <= island_radius island + 100 ->
     patchStep chunkX chunkY seed (chunk_islands chunk) patches i = patches).
Proof.
  cbv zeta. cbn [generateChunk chunk_islands chunk_deepOceanPatches].
  split; [|split].
  - unfold generateDeepOceanPatches, acceptedPatches. by rewrite patchStep_fold.
  - intros gx gy sz island Hin Hisl. unfold acceptedPatches in Hin.
    apply filter_In in Hin as [_ Hfar]. simpl in Hfar.
    by apply (proj1 (farFromIslands_spec _ _ _) Hfar).
  - intros i patches island Hisl Hnear. unfold patchStep.
    destruct (patchCandidate chunkX chunkY seed i) as [[gx gy] sz].
    cbn [fst snd] in Hnear.
    destruct (farFromIslands _ gx gy) eqn:Hfar; [|done].
    pose proof (proj1 (farFromIslands_spec _ _ _) Hfar island Hisl). lra.
Qed.

(** ** C4: spacing of the cloud formations *)

Lemma checkOverlap_false (clouds : list CloudFormation) (x y radius : R) :
  checkOverlap clouds x y radius = false <->
  forall cloud, In cloud clouds ->
    radius * CLOUD_SIZE + cloud_radius cloud * CLOUD_SIZE + 150
      <= distance x y (cloud_centerX cloud) (cloud_centerY cloud).
Proof.
  unfold checkOverlap. rewrite <- not_true_iff_false, existsb_exists.
  split.
  - intros H cloud Hin.
    destruct (Rle_lt_dec
      (radius * CLOUD_SIZE + cloud_radius cloud * CLOUD_SIZE + 150)
      (distance x y (cloud_centerX cloud) (cloud_centerY cloud)))
      as [Hle|Hlt]; [done|].
    exfalso. apply H. exists cloud. split; [done|].
    apply Rltb_true. unfold distance, CLOUD_SIZE in *. lra.
  - intros H (cloud & Hin & Hlt). apply Rltb_true in Hlt.
    specialize (H cloud Hin). unfold distance, CLOUD_SIZE in *. lra.
Qed.

Lemma distance_sym x1 y1 x2 y2 : distance x1 y1 x2 y2 = distance x2 y2 x1 y1.
Proof. unfold distance. f_equal. ring. Qed.

(** What the [do ... while] loop of a cloud slot computes when it is
    entered with [attempts = a]: it leaves with [a < attempts <= 10], the
    draw it returns is the one of pass [attempts - 1], every earlier pass
    drew an overlapping cloud, and leaving before the tenth pass means the
    last draw does not overlap. *)
Lemma placeCloud_spec fuel (clouds : list CloudFormation)
    chunkX chunkY seed i (a : Z) :
  (0 <= a < maxAttempts)%Z -> (maxAttempts - a <= Z.of_nat fuel + 1)%Z ->
  let '(centerX, centerY, radius, attempts) :=
    placeCloud fuel clouds chunkX chunkY seed i a in
  (a < attempts <= maxAttempts)%Z /\
  (centerX, centerY, radius) = cloudDraw chunkX chunkY seed i (attempts - 1) /\
  (forall k, (a <= k < attempts - 1)%Z ->
     let '(x, y, r) := cloudDraw chunkX chunkY seed i k in
     checkOverlap clouds x y r = true) /\
  ((attempts < maxAttempts)%Z -> checkOverlap clouds centerX centerY radius = false).
Proof.
  revert a. induction fuel as [|fuel IH]; intros a Ha Hfuel;
    cbn [placeCloud];
    destruct (cloudDraw chunkX chunkY seed i a) as [[cx cy] r] eqn:Hdraw;
    destruct (checkOverlap clouds cx cy r) eqn:Hov; cbn [andb];
    try destruct (Z.ltb_spec (a + 1) maxAttempts) as [Hlt|Hge].
  all: try (unfold maxAttempts in *; lia).
  all: try (replace (a + 1 - 1)%Z with a by lia; rewrite Hdraw;
            split; [unfold maxAttempts in *; lia|];
            split; [done|]; split; [intros k Hk; lia|]; try done;
            intros; unfold maxAttempts in *; lia).
  specialize (IH (a + 1)%Z ltac:(unfold maxAttempts in *; lia)
                 ltac:(unfold maxAttempts in *; lia)).
  destruct (placeCloud fuel clouds chunkX chunkY seed i (a + 1))
    as [[[cx' cy'] r'] att].
  destruct IH as (Hatt & Hlast & Hprev & Hfree).
  split; [lia|]. split; [done|]. split; [|done].
  intros k Hk. destruct (decide (k = a)) as [->|Hne].
  - by rewrite Hdraw.
  - apply Hprev. lia.
Qed.

(** The fuel of [placeCloud] is never the reason the loop stops: any two
    amounts of fuel that cover the passes left give the same result. *)
Lemma placeCloud_fuel fuel1 fuel2 (clouds : list CloudFormation)
    chunkX chunkY seed i (a : Z) :
  (0 <= a)%Z ->
  (maxAttempts - a <= Z.of_nat fuel1 + 1)%Z ->
  (maxAttempts - a <= Z.of_nat fuel2 + 1)%Z ->
  placeCloud fuel1 clouds chunkX chunkY seed i a
  = placeCloud fuel2 clouds chunkX chunkY seed i a.
Proof.
  revert fuel2 a. induction fuel1 as [|fuel1 IH]; intros [|fuel2] a Ha H1 H2;
    cbn [placeCloud];
    destruct (cloudDraw chunkX chunkY seed i a) as [[cx cy] r];
    destruct (checkOverlap clouds cx cy r); cbn [andb]; try done;
    destruct (Z.ltb_spec (a + 1) maxAttempts) as [Hlt|Hge]; try done;
    try (unfold maxAttempts in *; lia).
  apply IH; unfold maxAttempts in *; lia.
Qed.

Lemma cloudsApart_snoc (clouds : list CloudFormation) (c : CloudFormation) :
  cloudsApart clouds ->
  checkOverlap clouds (cloud_centerX c) (cloud_centerY c) (cloud_radius c)
    = false ->
  cloudsApart (clouds ++ [c]).
Proof.
  intros Hall Hfree j k c1 c2 Hjk Hj Hk.
  pose proof (proj1 (checkOverlap_false _ _ _ _) Hfree) as Hnew.
  destruct (decide (j < length clouds)%nat) as [Hjl|Hjl];
    destruct (decide (k < length clouds)%nat) as [Hkl|Hkl].
  - rewrite lookup_app_l in Hj, Hk by done. by eapply Hall.
  - rewrite lookup_app_l in Hj by done.
    rewrite lookup_app_r in Hk by lia.
    apply list_lookup_singleton_Some in Hk as [_ <-].
    apply list_elem_of_lookup_2, list_elem_of_In in Hj.
    specialize (Hnew c1 Hj). rewrite distance_sym. lra.
  - rewrite lookup_app_l in Hk by done.
    rewrite lookup_app_r in Hj by lia.
    apply list_lookup_singleton_Some in Hj as [_ <-].
    apply list_elem_of_lookup_2, list_elem_of_In in Hk.
    specialize (Hnew c2 Hk). lra.
  - rewrite lookup_app_r in Hj, Hk by lia.
    apply list_lookup_singleton_Some in Hj as [Hj _].
    apply list_lookup_singleton_Some in Hk as [Hk _]. lia.
Qed.

Lemma cloudStep_apart chunkX chunkY seed (assets : AssetDictionary)
    (clouds : list CloudFormation) i :
  cloudsApart clouds -> cloudsApart (cloudStep chunkX chunkY seed assets clouds i).
Proof.
  intros Hall. unfold cloudStep.
  pose proof (placeCloud_spec (Z.to_nat maxAttempts) clouds
                chunkX chunkY seed i 0 ltac:(done) ltac:(done)) as Hspec.
  destruct (placeCloud (Z.to_nat maxAttempts) clouds chunkX chunkY seed i 0)
    as [[[cx cy] r] att].
  destruct Hspec as (Hatt & _ & _ & Hfree).
  destruct (Z.leb_spec maxAttempts att) as [Hge|Hlt]; cbn [andb].
  - destruct (checkOverlap clouds cx cy r) eqn:Hov; [done|].
    by apply cloudsApart_snoc.
  - apply cloudsApart_snoc; [done|]. by apply Hfree.
Qed.

Lemma cloudStep_fold_apart chunkX chunkY seed (assets : AssetDictionary)
    idxs (clouds : list CloudFormation) :
  cloudsApart clouds ->
  cloudsApart (fold_left (cloudStep chunkX chunkY seed assets) idxs clouds).
Proof.
  revert clouds. induction idxs as [|i idxs IH]; intros clouds Hall;
    cbn [fold_left]; [done|].
  by apply IH, cloudStep_apart.
Qed.

(** C4. In every generated chunk any two accepted cloud formations are at
    least [radius1 + radius2] (each times the cloud size multiplier) plus
    150 px apart, center to center.  Every cloud slot makes at most 10
    draws of position and radius, and a slot that ends up without a cloud
    has made exactly the 10 draws, each of them overlapping an accepted
    cloud. *)
Theorem clouds_apart (chunkX chunkY : Z) (seed : R)
    (assets : AssetDictionary) :
  cloudsApart (chunk_clouds (generateChunk chunkX chunkY seed assets)) /\
  (forall (clouds : list CloudFormation) (i : Z),
     let '(centerX, centerY, radius, attempts) :=
       placeCloud (Z.to_nat maxAttempts) clouds chunkX chunkY seed i 0 in
     (1 <= attempts <= 10)%Z /\
     (centerX, centerY, radius)
       = cloudDraw chunkX chunkY seed i (attempts - 1)) /\
  (forall (clouds : list CloudFormation) (i k : Z),
     cloudStep chunkX chunkY seed assets clouds i = clouds ->
     (0 <= k < 10)%Z ->
     let '(x, y, r) := cloudDraw chunkX chunkY seed i k in
     checkOverlap clouds x y r = true).
Proof.
  split; [|split].
  - cbn [generateChunk chunk_clouds]. unfold generateCloudsForChunk.
    apply cloudStep_fold_apart. intros j k c1 c2 _ Hj. by destruct j.
  - intros clouds i.
    pose proof (placeCloud_spec (Z.to_nat maxAttempts) clouds
                  chunkX chunkY seed i 0 ltac:(done) ltac:(done)) as Hspec.
    destruct (placeCloud (Z.to_nat maxAttempts) clouds chunkX chunkY seed i 0)
      as [[[cx cy] r] att].
    destruct Hspec as (Hatt & Hlast & _ & _).
    split; [unfold maxAttempts in *; lia|done].
  - intros clouds i k Hdrop Hk. unfold cloudStep in Hdrop.
    pose proof (placeCloud_spec (Z.to_nat maxAttempts) clouds
                  chunkX chunkY seed i 0 ltac:(done) ltac:(done)) as Hspec.
    destruct (placeCloud (Z.to_nat maxAttempts) clouds chunkX chunkY seed i 0)
      as [[[cx cy] r] att].
    destruct Hspec as (Hatt & Hlast & Hprev & _).
    destruct (Z.leb_spec maxAttempts att) as [Hge|Hlt]; cbn [andb] in Hdrop.
    + destruct (checkOverlap clouds cx cy r) eqn:Hov.
      * assert (att = 10%Z) as -> by (unfold maxAttempts in *; lia).
        destruct (decide (k = 9%Z)) as [->|Hne].
        -- change (10 - 1)%Z with 9%Z in Hlast. by rewrite <- Hlast.
        -- apply Hprev. lia.
      * apply (f_equal length) in Hdrop. rewrite length_app in Hdrop.
        simpl in Hdrop. lia.
    + apply (f_equal length) in Hdrop. rewrite length_app in Hdrop.
      simpl in Hdrop. lia.
Qed.

(** ** The chunk cache *)

Lemma getChunk_hit (this : ChunkCache) x y found :
  this_cache this !! getKey x y = Some found ->
  getChunk this x y = (this, found).
Proof. unfold getChunk. by intros ->. Qed.

Lemma getChunk_lookup (this : ChunkCache) x y :
  this_cache (getChunk this x y).1 !! getKey x y = Some (getChunk this x y).2.
Proof.
  unfold getChunk. destruct (this_cache this !! getKey x y) eqn:Hk; [done|].
  cbn [fst snd this_cache]. apply lookup_insert_eq.
Qed.

Lemma getChunk_preserve (this : ChunkCache) x y key ref :
  this_cache this !! key = Some ref ->
  this_cache (getChunk this x y).1 !! key = Some ref.
Proof.
  intros Hkey. unfold getChunk.
  destruct (this_cache this !! getKey x y) eqn:Hk; [done|].
  cbn [fst this_cache]. rewrite lookup_insert_ne; [done|]. congruence.
Qed.

Lemma getChunks_cons (st : ChunkCache * list ChunkRef) xy coords :
  getChunks (xy :: coords) st
  = getChunks coords
      ((getChunk st.1 xy.1 xy.2).1, st.2 ++ [(getChunk st.1 xy.1 xy.2).2]).
Proof.
  destruct st as [this chunks]. unfold getChunks. cbn [fold_left fst snd].
  by destruct (getChunk this xy.1 xy.2).
Qed.

Lemma getChunks_nested (rows cols : list Z) cx cy
    (st : ChunkCache * list ChunkRef) :
  fold_left (fun (st : ChunkCache * list ChunkRef) (dy : Z) =>
    fold_left (fun (st : ChunkCache * list ChunkRef) (dx : Z) =>
      let '(this, chunks) := st in
      let '(this, chunk) := getChunk this (cx + dx) (cy + dy) in
      (this, chunks ++ [chunk])) cols st) rows st
  = getChunks
      (flat_map (fun dy => map (fun dx => ((cx + dx)%Z, (cy + dy)%Z)) cols)
                rows) st.
Proof.
  unfold getChunks. revert st.
  induction rows as [|dy rows IH]; intros st; [done|].
  cbn [fold_left flat_map]. rewrite fold_left_app, <- IH. f_equal.
  clear IH. revert st. induction cols as [|dx cols IH]; intros st; [done|].
  cbn [fold_left map fst snd]. by rewrite IH.
Qed.

Lemma getChunksInRadius_getChunks (this : ChunkCache) cx cy r :
  getChunksInRadius this cx cy r = getChunks (square cx cy r) (this, []).
Proof. apply getChunks_nested. Qed.

Lemma getChunks_preserve coords (st : ChunkCache * list ChunkRef) key ref :
  this_cache st.1 !! key = Some ref ->
  this_cache (getChunks coords st).1 !! key = Some ref.
Proof.
  revert st. induction coords as [|xy coords IH]; intros st Hkey; [done|].
  rewrite getChunks_cons. apply IH. cbn [fst]. by apply getChunk_preserve.
Qed.

(** The chunks [getChunks] pushes: one per coordinate, in order, each the
    entry of its coordinate in the final table. *)
Lemma getChunks_spec coords (st : ChunkCache * list ChunkRef) :
  exists pushed,
    (getChunks coords st).2 = st.2 ++ pushed /\
    Forall2 (fun (xy : Z * Z) (chunk : ChunkRef) =>
               this_cache (getChunks coords st).1 !! getKey xy.1 xy.2
                 = Some chunk) coords pushed.
Proof.
  revert st. induction coords as [|xy coords IH]; intros st.
  - exists []. split; [by rewrite app_nil_r|constructor].
  - rewrite getChunks_cons.
    destruct (IH ((getChunk st.1 xy.1 xy.2).1,
                  st.2 ++ [(getChunk st.1 xy.1 xy.2).2]))
      as (pushed & Hlist & Hall).
    exists ((getChunk st.1 xy.1 xy.2).2 :: pushed). split.
    + rewrite Hlist. cbn [snd]. by rewrite <- app_assoc.
    + constructor; [|done].
      apply getChunks_preserve. cbn [fst]. apply getChunk_lookup.
Qed.

Lemma later_preserve (this this' : ChunkCache) key ref :
  later this this' ->
  this_cache this !! key = Some ref -> this_cache this' !! key = Some ref.
Proof.
  induction 1 as [|this' x y _ IH|this' cx cy r _ IH]; intros Hkey; [done|..].
  - by apply getChunk_preserve, IH.
  - rewrite getChunksInRadius_getChunks.
    by apply (getChunks_preserve _ (this', [])), IH.
Qed.

Lemma square_In cx cy r x y :
  In (x, y) (square cx cy r) <->
  (cx - r <= x <= cx + r)%Z /\ (cy - r <= y <= cy + r)%Z.
Proof.
  unfold square. rewrite in_flat_map. split.
  - intros (dy & Hdy & Hin). apply in_map_iff in Hin as (dx & [= <- <-] & Hdx).
    apply Zrange_In in Hdy, Hdx. lia.
  - intros [Hx Hy]. exists (y - cy)%Z. split; [apply Zrange_In; lia|].
    apply in_map_iff. exists (x - cx)%Z. split; [f_equal; lia|].
    apply Zrange_In. lia.
Qed.

Lemma square_NoDup cx cy r : List.NoDup (square cx cy r).
Proof.
  unfold square.
  assert (Hrows := Zrange_NoDup (- r) r). revert Hrows.
  generalize (Zrange (- r) r) at 1 3 as rows.
  induction rows as [|dy rows IH]; intros Hrows; [constructor|].
  cbn [flat_map]. apply List.NoDup_cons_iff in Hrows as [Hdy Hrows].
  apply List.NoDup_app.
  - apply Stdlib.Lists.Finite.Injective_map_NoDup; [|apply Zrange_NoDup].
    intros a b [= ?]. lia.
  - by apply IH.
  - intros [x y] Hin1 Hin2.
    apply in_map_iff in Hin1 as (dx & [= <- <-] & _).
    apply in_flat_map in Hin2 as (dy' & Hdy' & Hin2).
    apply in_map_iff in Hin2 as (dx' & [= _ Hy] & _).
    assert (dy' = dy) as -> by lia. done.
Qed.

Lemma square_length cx cy r :
  (0 <= r)%Z -> length (square cx cy r) = Z.to_nat ((2 * r + 1) * (2 * r + 1)).
Proof.
  intros Hr. unfold square.
  rewrite (flat_map_constant_length (c := Z.to_nat (2 * r + 1))).
  - rewrite Zrange_length. replace (r - - r + 1)%Z with (2 * r + 1)%Z by lia.
    rewrite Z2Nat.inj_mul by lia. done.
  - intros dy _. rewrite length_map, Zrange_length. f_equal. lia.
Qed.


(** *** The invariant of reachable caches *)

Lemma cache_inv_new seed (assets : AssetDictionary) :
  cache_inv seed assets (ChunkCache_new seed assets).
Proof. split; [done|]. split; [done|]. intros key ref Hk. done. Qed.

Lemma cache_inv_getChunk seed (assets : AssetDictionary) this x y :
  cache_inv seed assets this -> cache_inv seed assets (getChunk this x y).1.
Proof.
  intros (Hseed & Hassets & Hentries). unfold getChunk.
  destruct (this_cache this !! getKey x y) eqn:Hk; [done|].
  cbn [fst]. split; [done|]. split; [done|].
  intros key ref. cbn [this_cache heap_next].
  destruct (decide (getKey x y = key)) as [<-|Hne].
  - rewrite lookup_insert_eq. intros [= <-].
    cbn [ref_chunk ref_addr generateChunk chunk_chunkX chunk_chunkY].
    rewrite Hseed, Hassets.
    split; [reflexivity|]. split; [reflexivity|]. lia.
  - rewrite lookup_insert_ne by done. intros Hkey.
    destruct (Hentries key ref Hkey) as (? & ? & ?).
    split; [done|]. split; [done|]. lia.
Qed.

Lemma cache_inv_getChunks seed (assets : AssetDictionary) coords
    (st : ChunkCache * list ChunkRef) :
  cache_inv seed assets st.1 -> cache_inv seed assets (getChunks coords st).1.
Proof.
  revert st. induction coords as [|xy coords IH]; intros st Hinv; [done|].
  rewrite getChunks_cons. apply IH. cbn [fst]. by apply cache_inv_getChunk.
Qed.

Lemma lookup_fold_delete {V : Type} (keys : list string) (m : gmap string V)
    (key : string) :
  fold_left (fun m key => delete key m) keys m !! key
  = if decide (key ∈ keys) then None else m !! key.
Proof.
  revert m. induction keys as [|k keys IH]; intros m; cbn [fold_left].
  - by rewrite decide_False by set_solver.
  - rewrite IH. destruct (decide (key ∈ keys)) as [Hin|Hnin].
    + by rewrite decide_True by set_solver.
    + destruct (decide (k = key)) as [->|Hne].
      * rewrite lookup_delete_eq. by rewrite decide_True by set_solver.
      * rewrite lookup_delete_ne by done.
        rewrite decide_False; [done|].
        rewrite elem_of_cons. intros [?|?]; congruence.
Qed.

Lemma toDelete_spec (this : ChunkCache) cx cy keep key :
  key ∈ toDelete this cx cy keep <->
  exists ref, this_cache this !! key = Some ref /\ outsideWindow cx cy keep ref.
Proof.
  unfold toDelete, outsideWindow. rewrite list_elem_of_In, in_map_iff. split.
  - intros ([k ref] & <- & Hin). apply filter_In in Hin as [Hin Hout].
    apply list_elem_of_In, elem_of_map_to_list in Hin.
    exists ref. split; [done|]. cbn [snd] in Hout. lia.
  - intros (ref & Hk & Hout). exists (key, ref). split; [done|].
    apply filter_In. split.
    + by apply list_elem_of_In, elem_of_map_to_list.
    + cbn [snd]. lia.
Qed.

Lemma cleanup_lookup (this : ChunkCache) cx cy keep key :
  this_cache (cleanup this cx cy keep) !! key
  = match this_cache this !! key with
    | Some ref =>
        if decide (outsideWindow cx cy keep ref) then None else Some ref
    | None => None
    end.
Proof.
  cbn [cleanup this_cache]. rewrite lookup_fold_delete.
  destruct (decide (key ∈ toDelete this cx cy keep)) as [Hin|Hnin].
  - apply toDelete_spec in Hin as (ref & -> & Hout). by rewrite decide_True.
  - destruct (this_cache this !! key) as [ref|] eqn:Hk; [|done].
    rewrite decide_False; [done|]. intros Hout. apply Hnin, toDelete_spec.
    by exists ref.
Qed.

Lemma cache_inv_cleanup seed (assets : AssetDictionary) this cx cy keep :
  cache_inv seed assets this -> cache_inv seed assets (cleanup this cx cy keep).
Proof.
  intros (Hseed & Hassets & Hentries). split; [done|]. split; [done|].
  intros key ref. rewrite cleanup_lookup.
  destruct (this_cache this !! key) as [ref'|] eqn:Hk; [|done].
  case_decide; [done|]. intros [= <-]. by apply Hentries.
Qed.

Lemma reachable_inv seed (assets : AssetDictionary) this :
  reachable seed assets this -> cache_inv seed assets this.
Proof.
  induction 1 as [|this x y _ IH|this cx cy r _ IH|this cx cy keep _ IH].
  - apply cache_inv_new.
  - by apply cache_inv_getChunk.
  - rewrite getChunksInRadius_getChunks.
    by apply (cache_inv_getChunks _ _ _ (this, [])).
  - by apply cache_inv_cleanup.
Qed.

(** In a cache that satisfies the invariant, [getChunk] hands out the
    chunk generated for the coordinate asked for. *)
Lemma getChunk_generated seed (assets : AssetDictionary) this x y :
  cache_inv seed assets this ->
  ref_chunk (getChunk this x y).2 = generateChunk x y seed assets.
Proof.
  intros (Hseed & Hassets & Hentries). unfold getChunk.
  destruct (this_cache this !! getKey x y) as [found|] eqn:Hk; cbn [snd].
  - destruct (Hentries _ _ Hk) as (Hkey & Hgen & _).
    apply getKey_inj in Hkey as [Hx Hy]. congruence.
  - cbn [ref_chunk]. rewrite Hseed, Hassets. reflexivity.
Qed.

(** ** C9: idempotence of [getChunk] *)

(** C9. Let [getChunk(x, y)] return [chunk1].  If the call was a miss,
    [chunk1] is a newly allocated object holding the chunk generated for
    [(x, y)], and it has been stored under the coordinate's key.  Whatever
    calls of [getChunk] and [getChunksInRadius] follow, as long as no
    [cleanup] intervenes, a later [getChunk(x, y)] returns the same object
    (same address, same record) and leaves the cache and the heap as they
    are: nothing is built again. *)
Theorem getChunk_idempotent (this : ChunkCache) (x y : Z) :
  let '(this1, chunk1) := getChunk this x y in
  (this_cache this !! getKey x y = None ->
     chunk1 = {| ref_addr := heap_next this;
                 ref_chunk := generateChunk x y (this_seed this)
                                (this_assets this) |} /\
     this_cache this1 = <[getKey x y := chunk1]> (this_cache this) /\
     heap_next this1 = S (heap_next this)) /\
  (forall found, this_cache this !! getKey x y = Some found ->
     chunk1 = found /\ this1 = this) /\
  (forall this2, later this1 this2 ->
     getChunk this2 x y = (this2, chunk1)).
Proof.
  pose proof (getChunk_lookup this x y) as Hstored.
  destruct (getChunk this x y) as [this1 chunk1] eqn:Hget.
  cbn [fst snd] in Hstored. split; [|split].
  - intros Hmiss. unfold getChunk in Hget. rewrite Hmiss in Hget.
    by injection Hget as <- <-.
  - intros found Hfound. rewrite (getChunk_hit _ _ _ _ Hfound) in Hget.
    by injection Hget as <- <-.
  - intros this2 Hlater. apply getChunk_hit.
    by apply (later_preserve this1).
Qed.

(** ** C10: the chunk served is the one of the coordinate asked for *)

(** C10. In every reachable state of a cache, [getChunk(x, y)] returns a
    chunk whose [chunkX] is [x] and whose [chunkY] is [y]; the key string
    is injective on pairs of integers. *)
Theorem getChunk_coordinates (seed : R) (assets : AssetDictionary)
    (this : ChunkCache) (x y : Z) :
  reachable seed assets this ->
  chunk_chunkX (ref_chunk (getChunk this x y).2) = x /\
  chunk_chunkY (ref_chunk (getChunk this x y).2) = y /\
  (forall x' y', getKey x y = getKey x' y' -> x = x' /\ y = y').
Proof.
  intros Hreach. apply reachable_inv in Hreach.
  rewrite (getChunk_generated _ _ _ _ _ Hreach).
  split; [done|]. split; [done|]. intros x' y'. apply getKey_inj.
Qed.

(** ** C8: eviction *)

(** C8. After [cleanup(cx, cy, keepRadius)] on a reachable cache, no
    resident chunk has [|chunkX - cx| > keepRadius] or
    [|chunkY - cy| > keepRadius]; every chunk that was resident and lies
    inside the keep-window is still resident, as the same object; and for a
    coordinate that was resident and lies outside the window, the entry is
    gone and the next [getChunk] allocates a new object (another address)
    whose record equals the evicted one, and stores it. *)
Theorem cleanup_evicts (seed : R) (assets : AssetDictionary)
    (this : ChunkCache) (cx cy keepRadius : Z) :
  reachable seed assets this ->
  let this' := cleanup this cx cy keepRadius in
  (forall key ref, this_cache this' !! key = Some ref ->
     (Z.abs (chunk_chunkX (ref_chunk ref) - cx) <= keepRadius)%Z /\
     (Z.abs (chunk_chunkY (ref_chunk ref) - cy) <= keepRadius)%Z) /\
  (forall key ref, this_cache this !! key = Some ref ->
     (Z.abs (chunk_chunkX (ref_chunk ref) - cx) <= keepRadius)%Z ->
     (Z.abs (chunk_chunkY (ref_chunk ref) - cy) <= keepRadius)%Z ->
     this_cache this' !! key = Some ref) /\
  (forall x y evicted, this_cache this !! getKey x y = Some evicted ->
     (keepRadius < Z.abs (x - cx) \/ keepRadius < Z.abs (y - cy))%Z ->
     this_cache this' !! getKey x y = None /\
     let '(this'', fresh) := getChunk this' x y in
     ref_chunk fresh = ref_chunk evicted /\
     ref_addr fresh <> ref_addr evicted /\
     this_cache this'' !! getKey x y = Some fresh).
Proof.
  intros Hreach. apply reachable_inv in Hreach as Hinv.
  cbv zeta. split; [|split].
  - intros key ref. rewrite cleanup_lookup.
    destruct (this_cache this !! key) as [ref'|]; [|done].
    case_decide as Hout; [done|]. intros [= <-].
    unfold outsideWindow in Hout. lia.
  - intros key ref Hk Hx Hy. rewrite cleanup_lookup, Hk.
    rewrite decide_False; [done|]. unfold outsideWindow. lia.
  - intros x y evicted Hk Hout.
    destruct Hinv as (Hseed & Hassets & Hentries).
    destruct (Hentries _ _ Hk) as (Hkey & Hgen & Haddr).
    apply getKey_inj in Hkey as [Hx Hy].
    assert (Hgone : this_cache (cleanup this cx cy keepRadius) !! getKey x y
                    = None).
    { rewrite cleanup_lookup, Hk. rewrite decide_True; [done|].
      unfold outsideWindow. rewrite <- Hx, <- Hy. done. }
    split; [done|].
    pose proof (getChunk_lookup (cleanup this cx cy keepRadius) x y) as Hstored.
    unfold getChunk in *. rewrite Hgone in *. cbn [fst snd] in Hstored.
    cbn [cleanup this_seed this_assets heap_next ref_chunk ref_addr].
    split; [|split; [lia|done]].
    congruence.
Qed.

End Properties.

(** ** C1: determinism of generation *)

Lemma map_flat_map {A B C : Type} (f : B -> C) (g : A -> list B) (l : list A) :
  map f (flat_map g l) = flat_map (fun a => map f (g a)) l.
Proof.
  induction l as [|a l IH]; [done|]. cbn [flat_map].
  by rewrite map_app, IH.
Qed.

Section Retexture.

Context {Texture : Type} (assets : @AssetDictionary Texture).

#[local] Abbreviation named := (retextureTile (textureOf assets)).

Lemma islandTexture_names normalizedDist tileRandom :
  islandTexture assets normalizedDist tileRandom
  = option_map (textureOf assets)
      (islandTexture assetNames normalizedDist tileRandom).
Proof.
  unfold islandTexture.
  repeat (destruct (Rltb normalizedDist _); [cbn [option_map]; f_equal;
          repeat (destruct (Rltb tileRandom _); [done|]); done|]).
  done.
Qed.

Lemma islandTiles_names radiusTiles shape seed :
  islandTiles assets radiusTiles shape seed
  = map named (islandTiles assetNames radiusTiles shape seed).
Proof.
  unfold islandTiles. destruct (shapeModifiers shape seed) as [[sx sy] rot].
  rewrite map_flat_map. apply flat_map_ext. intros dy.
  rewrite map_flat_map. apply flat_map_ext. intros dx.
  unfold islandTileAt. destruct (Req_dec_T rot 0);
    rewrite islandTexture_names;
    by destruct (islandTexture assetNames _ _).
Qed.

Lemma buildIsland_names id cx cy b shape seed :
  buildIsland id cx cy b shape seed assets
  = retextureIsland (textureOf assets)
      (buildIsland id cx cy b shape seed assetNames).
Proof.
  unfold buildIsland, retextureIsland.
  cbn [island_id island_centerX island_centerY island_radius island_tiles].
  by rewrite islandTiles_names.
Qed.

Lemma wouldOverlap_names (islands : list (@Island AssetName)) cx cy est :
  wouldOverlap (map (retextureIsland (textureOf assets)) islands) cx cy est
  = wouldOverlap islands cx cy est.
Proof.
  unfold wouldOverlap. induction islands as [|i l IH]; [done|].
  cbn [map existsb retextureIsland island_centerX island_centerY island_radius].
  by rewrite IH.
Qed.

Lemma islandStep_names chunkX chunkY seed (islands : list (@Island AssetName)) i :
  islandStep chunkX chunkY seed assets
    (map (retextureIsland (textureOf assets)) islands) i
  = map (retextureIsland (textureOf assets))
      (islandStep chunkX chunkY seed assetNames islands i).
Proof.
  unfold islandStep.
  destruct (islandCandidate chunkX chunkY seed i) as [[cx cy] b].
  rewrite wouldOverlap_names.
  destruct (wouldOverlap islands cx cy _); [done|].
  by rewrite map_app, buildIsland_names.
Qed.

Lemma generateIslandsForChunk_names chunkX chunkY seed :
  generateIslandsForChunk chunkX chunkY seed assets
  = map (retextureIsland (textureOf assets))
      (generateIslandsForChunk chunkX chunkY seed assetNames).
Proof.
  unfold generateIslandsForChunk. destruct (Rltb _ 0.3); [|done].
  change (@nil (@Island Texture))
    with (map (retextureIsland (textureOf assets)) []).
  generalize (@nil (@Island AssetName)) as islands.
  induction (Zrange 0 (islandCount chunkX chunkY seed - 1)) as [|i idxs IH];
    intros islands; [done|].
  cbn [fold_left]. by rewrite islandStep_names, IH.
Qed.

Lemma farFromIslands_names (islands : list (@Island AssetName)) gx gy :
  farFromIslands (map (retextureIsland (textureOf assets)) islands) gx gy
  = farFromIslands islands gx gy.
Proof.
  unfold farFromIslands. induction islands as [|i l IH]; [done|].
  cbn [map forallb retextureIsland island_centerX island_centerY island_radius].
  by rewrite IH.
Qed.

Lemma generateDeepOceanPatches_names chunkX chunkY seed
    (islands : list (@Island AssetName)) :
  generateDeepOceanPatches chunkX chunkY seed
    (map (retextureIsland (textureOf assets)) islands)
  = generateDeepOceanPatches chunkX chunkY seed islands.
Proof.
  unfold generateDeepOceanPatches. generalize (@nil Point) as patches.
  induction (Zrange 0 (patchCount chunkX chunkY seed - 1)) as [|i idxs IH];
    intros patches; [done|].
  cbn [fold_left]. rewrite <- IH. f_equal. unfold patchStep.
  destruct (patchCandidate chunkX chunkY seed i) as [[gx gy] sz].
  by rewrite farFromIslands_names.
Qed.

Lemma buildCloudFormation_names id cx cy r seed :
  buildCloudFormation id cx cy r seed assets
  = retextureCloud (textureOf assets)
      (buildCloudFormation id cx cy r seed assetNames).
Proof.
  unfold buildCloudFormation, retextureCloud.
  cbn [cloud_id cloud_centerX cloud_centerY cloud_radius cloud_tiles].
  f_equal. rewrite map_map. apply map_ext. intros i.
  unfold cloudTileAt, retextureTile. cbn [offsetX offsetY texture].
  f_equal. by destruct (Rltb _ 0.7).
Qed.

Lemma checkOverlap_names (clouds : list (@CloudFormation AssetName)) x y r :
  checkOverlap (map (retextureCloud (textureOf assets)) clouds) x y r
  = checkOverlap clouds x y r.
Proof.
  unfold checkOverlap. induction clouds as [|c l IH]; [done|].
  cbn [map existsb retextureCloud cloud_centerX cloud_centerY cloud_radius].
  by rewrite IH.
Qed.

Lemma placeCloud_names fuel (clouds : list (@CloudFormation AssetName))
    chunkX chunkY seed i attempts :
  placeCloud fuel (map (retextureCloud (textureOf assets)) clouds)
    chunkX chunkY seed i attempts
  = placeCloud fuel clouds chunkX chunkY seed i attempts.
Proof.
  revert attempts. induction fuel as [|fuel IH]; intros attempts;
    cbn [placeCloud];
    destruct (cloudDraw chunkX chunkY seed i attempts) as [[cx cy] r];
    rewrite checkOverlap_names; [done|].
  by rewrite IH.
Qed.

Lemma cloudStep_names chunkX chunkY seed
    (clouds : list (@CloudFormation AssetName)) i :
  cloudStep chunkX chunkY seed assets
    (map (retextureCloud (textureOf assets)) clouds) i
  = map (retextureCloud (textureOf assets))
      (cloudStep chunkX chunkY seed assetNames clouds i).
Proof.
  unfold cloudStep. rewrite placeCloud_names.
  destruct (placeCloud _ clouds chunkX chunkY seed i 0) as [[[cx cy] r] att].
  rewrite checkOverlap_names.
  destruct (_ && _); [done|].
  by rewrite map_app, buildCloudFormation_names.
Qed.

Lemma generateCloudsForChunk_names chunkX chunkY seed
    (islands : list (@Island Texture)) (islands' : list (@Island AssetName)) :
  generateCloudsForChunk chunkX chunkY seed islands assets
  = map (retextureCloud (textureOf assets))
      (generateCloudsForChunk chunkX chunkY seed islands' assetNames).
Proof.
  unfold generateCloudsForChunk.
  change (@nil (@CloudFormation Texture))
    with (map (retextureCloud (textureOf assets)) []).
  generalize (@nil (@CloudFormation AssetName)) as clouds.
  induction (Zrange 0 (cloudCount chunkX chunkY seed - 1)) as [|i idxs IH];
    intros clouds; [done|].
  cbn [fold_left]. by rewrite cloudStep_names, IH.
Qed.

Lemma generateChunk_names chunkX chunkY seed :
  generateChunk chunkX chunkY seed assets
  = retextureChunk (textureOf assets)
      (generateChunk chunkX chunkY seed assetNames).
Proof.
  unfold generateChunk, retextureChunk.
  cbn [chunk_chunkX chunk_chunkY chunk_islands chunk_clouds
       chunk_deepOceanPatches].
  rewrite (generateCloudsForChunk_names _ _ _ _
             (generateIslandsForChunk chunkX chunkY seed assetNames)).
  rewrite (generateIslandsForChunk_names chunkX chunkY seed).
  by rewrite generateDeepOceanPatches_names.
Qed.

(** C1. Two invocations of [generateChunk] on the same coordinate, seed
    and assets yield the same island count, the same island tile lists,
    the same cloud tile lists and the same patch points.  The result does
    not depend on the state or history of the cache it is generated for,
    and it depends on the assets only through the textures bound to the
    tile classes: it is the chunk generated over the class names, with each
    name replaced by its texture. *)
Theorem generateChunk_deterministic (chunkX chunkY : Z) (seed : R) :
  let first := generateChunk chunkX chunkY seed assets in
  let second := generateChunk chunkX chunkY seed assets in
  length (chunk_islands first) = length (chunk_islands second) /\
  map island_tiles (chunk_islands first)
    = map island_tiles (chunk_islands second) /\
  map cloud_tiles (chunk_clouds first)
    = map cloud_tiles (chunk_clouds second) /\
  chunk_deepOceanPatches first = chunk_deepOceanPatches second /\
  (forall this1 this2 : @ChunkCache Texture,
     reachable seed assets this1 -> reachable seed assets this2 ->
     ref_chunk (getChunk this1 chunkX chunkY).2 = first /\
     ref_chunk (getChunk this2 chunkX chunkY).2 = second) /\
  first = retextureChunk (textureOf assets)
            (generateChunk chunkX chunkY seed assetNames).
Proof.
  cbv zeta. repeat (split; [reflexivity|]). split.
  - intros this1 this2 H1 H2.
    split; by apply getChunk_generated, reachable_inv.
  - apply generateChunk_names.
Qed.

End Retexture.

(** ** Fixed-point enclosures *)

Lemma prec_pos : 0 < IZR prec.
Proof. apply IZR_lt. reflexivity. Qed.

Lemma fx_le a b : (a <= b)%Z -> fx a <= fx b.
Proof.
  intros H. apply IZR_le in H. unfold fx. pose proof prec_pos.
  apply Rmult_le_compat_r; [|done]. left. by apply Rinv_0_lt_compat.
Qed.

Lemma fx_plus a b : fx (a + b) = fx a + fx b.
Proof. unfold fx. rewrite plus_IZR. pose proof prec_pos. field. lra. Qed.

Lemma fx_minus a b : fx (a - b) = fx a - fx b.
Proof. unfold fx. rewrite minus_IZR. pose proof prec_pos. field. lra. Qed.

(** Rounding a numerator over [d * prec] down or up to one over [prec]. *)
Lemma fx_div_floor a d : (0 < d)%Z -> fx (a / d) <= fx a / IZR d.
Proof.
  intros Hd. pose proof prec_pos as HP.
  assert (Hd' : 0 < IZR d) by (by apply IZR_lt).
  pose proof (Z.mul_div_le a d Hd) as H. apply IZR_le in H.
  rewrite mult_IZR in H. unfold fx.
  apply (Rmult_le_reg_r (IZR prec * IZR d)); [nra|].
  replace (IZR (a / d) / IZR prec * (IZR prec * IZR d))
    with (IZR d * IZR (a / d)) by (field; lra).
  replace (IZR a / IZR prec / IZR d * (IZR prec * IZR d))
    with (IZR a) by (field; lra).
  done.
Qed.

Lemma fx_div_ceil a d : (0 < d)%Z -> fx a / IZR d <= fx (cdiv a d).
Proof.
  intros Hd. pose proof prec_pos as HP.
  assert (Hd' : 0 < IZR d) by (by apply IZR_lt).
  pose proof (Z.mul_div_le (- a) d Hd) as H.
  assert (H' : (a <= d * cdiv a d)%Z) by (unfold cdiv; lia).
  apply IZR_le in H'. rewrite mult_IZR in H'. unfold fx.
  apply (Rmult_le_reg_r (IZR prec * IZR d)); [nra|].
  replace (IZR (cdiv a d) / IZR prec * (IZR prec * IZR d))
    with (IZR d * IZR (cdiv a d)) by (field; lra).
  replace (IZR a / IZR prec / IZR d * (IZR prec * IZR d))
    with (IZR a) by (field; lra).
  done.
Qed.

Lemma fx_mul a b : fx a * fx b = fx (a * b) / IZR prec.
Proof. unfold fx. rewrite mult_IZR. pose proof prec_pos. field. lra. Qed.

(** A product of two bounded numbers lies between two of the products of
    the bounds. *)
Lemma corner_lower xl xh yl yh x y :
  xl <= x <= xh -> yl <= y <= yh ->
  xl * yl <= x * y \/ xl * yh <= x * y \/ xh * yl <= x * y \/ xh * yh <= x * y.
Proof.
  intros Hx Hy.
  destruct (Rle_lt_dec 0 y), (Rle_lt_dec 0 xl), (Rle_lt_dec 0 xh);
    first [left; nra | right; left; nra | right; right; left; nra
          | right; right; right; nra].
Qed.

Lemma corner_upper xl xh yl yh x y :
  xl <= x <= xh -> yl <= y <= yh ->
  x * y <= xl * yl \/ x * y <= xl * yh \/ x * y <= xh * yl \/ x * y <= xh * yh.
Proof.
  intros Hx Hy.
  destruct (Rle_lt_dec 0 y), (Rle_lt_dec 0 xl), (Rle_lt_dec 0 xh);
    first [left; nra | right; left; nra | right; right; left; nra
          | right; right; right; nra].
Qed.

Lemma iadd_ok a b x y :
  encloses a x -> encloses b y -> encloses (iadd a b) (x + y).
Proof.
  unfold encloses, iadd. cbn [lo hi]. rewrite !fx_plus. lra.
Qed.

Lemma isub_ok a b x y :
  encloses a x -> encloses b y -> encloses (isub a b) (x - y).
Proof.
  unfold encloses, isub. cbn [lo hi]. rewrite !fx_minus. lra.
Qed.

Lemma imul_ok a b x y :
  encloses a x -> encloses b y -> encloses (imul a b) (x * y).
Proof.
  unfold encloses, imul. cbn [lo hi]. intros Hx Hy.
  pose proof prec_pos as HP.
  assert (Hdiv : forall u v : R, u <= v -> u / IZR prec <= v / IZR prec).
  { intros u v Huv. apply Rmult_le_compat_r; [|done].
    left. by apply Rinv_0_lt_compat. }
  split.
  - etrans; [apply fx_div_floor; reflexivity|].
    destruct (corner_lower _ _ _ _ _ _ Hx Hy) as [H|[H|[H|H]]];
      rewrite fx_mul in H; (etrans; [|exact H]); apply Hdiv, fx_le; lia.
  - etrans; [|apply fx_div_ceil; reflexivity].
    destruct (corner_upper _ _ _ _ _ _ Hx Hy) as [H|[H|[H|H]]];
      rewrite fx_mul in H; (etrans; [exact H|]); apply Hdiv, fx_le; lia.
Qed.

(** *** The series of [sin 1] and [cos 1] *)

Lemma Zfact_pos n : (0 < Zfact n)%Z.
Proof. induction n as [|n IH]; [done|]. cbn [Zfact]. lia. Qed.

Lemma INR_fact n : INR (fact n) = IZR (Zfact n).
Proof.
  induction n as [|n IH]; [done|].
  change (fact (S n)) with (S n * fact n)%nat.
  cbn [Zfact]. by rewrite mult_INR, IH, INR_IZR_INZ, <- mult_IZR.
Qed.

Lemma Q2R_inject_Z z : Q2R (inject_Z z) = IZR z.
Proof. unfold Q2R. cbn [Qnum Qden inject_Z]. lra. Qed.

Lemma sin_term_Q i : sin_term 1 i = Q2R (sinTermQ i).
Proof.
  unfold sin_term, sinTermQ, Q2R. cbn [Qnum Qden].
  rewrite pow1, INR_fact, Z2Pos.id by apply Zfact_pos.
  rewrite <- pow_IZR. unfold Rdiv. by rewrite Rmult_1_l.
Qed.

Lemma cos_term_Q i : cos_term 1 i = Q2R (cosTermQ i).
Proof.
  unfold cos_term, cosTermQ, Q2R. cbn [Qnum Qden].
  rewrite pow1, INR_fact, Z2Pos.id by apply Zfact_pos.
  rewrite <- pow_IZR. unfold Rdiv. by rewrite Rmult_1_l.
Qed.

Lemma sum_Q (f : nat -> R) (g : nat -> Q) n :
  (forall i, f i = Q2R (g i)) -> sum_f_R0 f n = Q2R (sumQ g n).
Proof.
  intros Hfg. induction n as [|n IH]; cbn [sum_f_R0 sumQ]; [done|].
  by rewrite Q2R_plus, IH, Hfg.
Qed.

Lemma enclosureQ_ok l h v :
  Q2R l <= v <= Q2R h -> encloses (enclosureQ l h) v.
Proof.
  intros [Hl Hh]. pose proof prec_pos as HP.
  unfold encloses, enclosureQ, fx. cbn [lo hi]. split.
  - pose proof (Qle_Rle _ _ (Qfloor_le (l * inject_Z prec))) as H.
    rewrite Q2R_mult, !Q2R_inject_Z in H.
    apply (Rmult_le_reg_r (IZR prec)); [done|].
    unfold Rdiv. rewrite Rmult_assoc, Rinv_l by lra. nra.
  - pose proof (Qle_Rle _ _ (Qle_ceiling (h * inject_Z prec))) as H.
    rewrite Q2R_mult, !Q2R_inject_Z in H.
    apply (Rmult_le_reg_r (IZR prec)); [done|].
    unfold Rdiv. rewrite Rmult_assoc, Rinv_l by lra. nra.
Qed.

Lemma sin1_ok : encloses sin1 (sin 1).
Proof.
  apply enclosureQ_ok.
  rewrite <- !(sum_Q (sin_term 1)) by apply sin_term_Q.
  apply (pre_sin_bound 1 4); lra.
Qed.

Lemma cos1_ok : encloses cos1 (cos 1).
Proof.
  apply enclosureQ_ok.
  rewrite <- !(sum_Q (cos_term 1)) by apply cos_term_Q.
  apply (pre_cos_bound 1 4); lra.
Qed.

(** *** Sine and cosine of a positive integer *)

Lemma itwice_ok cs v :
  encloses cs.1 (cos v) -> encloses cs.2 (sin v) ->
  encloses (itwice cs).1 (cos (2 * v)) /\ encloses (itwice cs).2 (sin (2 * v)).
Proof.
  destruct cs as [c s]. cbn [fst snd itwice]. intros Hc Hs.
  rewrite cos_2a, sin_2a. split.
  - apply isub_ok; by apply imul_ok.
  - replace (2 * sin v * cos v) with (sin v * cos v + sin v * cos v) by ring.
    apply iadd_ok; by apply imul_ok.
Qed.

Lemma isucc_ok cs v :
  encloses cs.1 (cos v) -> encloses cs.2 (sin v) ->
  encloses (isucc cs).1 (cos (v + 1)) /\ encloses (isucc cs).2 (sin (v + 1)).
Proof.
  destruct cs as [c s]. cbn [fst snd isucc]. intros Hc Hs.
  rewrite cos_plus, sin_plus. split.
  - apply isub_ok; apply imul_ok; auto using sin1_ok, cos1_ok.
  - apply iadd_ok; apply imul_ok; auto using sin1_ok, cos1_ok.
Qed.

Lemma cosSin_ok (k : positive) :
  encloses (cosSin k).1 (cos (IZR (Z.pos k))) /\
  encloses (cosSin k).2 (sin (IZR (Z.pos k))).
Proof.
  induction k as [k [IHc IHs]|k [IHc IHs]|]; cbn [cosSin].
  - replace (IZR (Z.pos k~1)) with (2 * IZR (Z.pos k) + 1)
      by (change (Z.pos k~1) with (2 * Z.pos k + 1)%Z;
          rewrite plus_IZR, mult_IZR; ring).
    apply isucc_ok; by apply itwice_ok.
  - replace (IZR (Z.pos k~0)) with (2 * IZR (Z.pos k))
      by (change (Z.pos k~0) with (2 * Z.pos k)%Z;
          rewrite mult_IZR; ring).
    by apply itwice_ok.
  - split; [apply cos1_ok|apply sin1_ok].
Qed.

(** *** The random source at an integer seed *)

Lemma ifrac_ok s i v :
  ifrac s = Some i -> encloses s v ->
  encloses i (v * 43758.5453 - IZR (Zfloor (v * 43758.5453))).
Proof.
  unfold ifrac. intros Hi Hv.
  set (l := (Z.min (lo s * 437585453) (hi s * 437585453) / 10000)%Z) in *.
  set (h := cdiv (Z.max (lo s * 437585453) (hi s * 437585453)) 10000) in *.
  destruct (Z.eqb_spec (h / prec) (l / prec)) as [Hz|]; [|done].
  injection Hi as <-. pose proof prec_pos as HP.
  assert (Hn : fx l <= v * 43758.5453 <= fx h).
  { destruct Hv as [Hlo Hhi]. split.
    - etrans; [apply fx_div_floor; reflexivity|].
      transitivity (fx (lo s * 437585453) / IZR 10000).
      + apply Rmult_le_compat_r; [lra|]. apply fx_le. lia.
      + unfold fx in *. rewrite mult_IZR. lra.
    - etrans; [|apply fx_div_ceil; reflexivity].
      transitivity (fx (hi s * 437585453) / IZR 10000).
      + unfold fx in *. rewrite mult_IZR. lra.
      + apply Rmult_le_compat_r; [lra|]. apply fx_le. lia. }
  assert (Hfloor : Zfloor (v * 43758.5453) = (l / prec)%Z).
  { apply Zfloor_eq.
    pose proof (fx_div_floor l prec ltac:(reflexivity)) as Hl.
    assert (Hh : fx h < IZR (l / prec) + 1).
    { rewrite <- Hz.
      assert (h < prec * (h / prec + 1))%Z as Hlt
        by (pose proof (Z.mul_succ_div_gt h prec ltac:(reflexivity)); lia).
      apply IZR_lt in Hlt. rewrite mult_IZR, plus_IZR in Hlt.
      unfold fx. apply (Rmult_lt_reg_r (IZR prec)); [done|].
      unfold Rdiv. rewrite Rmult_assoc, Rinv_l by lra. lra. }
    assert (Hl' : IZR (l / prec) <= fx l).
    { pose proof (Z.mul_div_le l prec ltac:(reflexivity)) as Hle.
      apply IZR_le in Hle. rewrite mult_IZR in Hle.
      unfold fx. apply (Rmult_le_reg_r (IZR prec)); [done|].
      unfold Rdiv. rewrite Rmult_assoc, Rinv_l by lra. lra. }
    lra. }
  rewrite Hfloor. unfold encloses. cbn [lo hi]. rewrite !fx_minus.
  assert (Hzz : fx (l / prec * prec) = IZR (l / prec)).
  { unfold fx. rewrite mult_IZR. field. lra. }
  rewrite Hzz. lra.
Qed.

(** [seededRandom 0 0 seed] at a positive integer seed lies in the
    enclosure computed for it. *)
Lemma randomAt_ok (k : positive) (i : itv) (seed : R) :
  randomAt k = Some i -> seed = IZR (Z.pos k) ->
  encloses i (seededRandom 0 0 seed).
Proof.
  intros Hi ->. unfold seededRandom. cbv zeta.
  replace (0 * 12.9898 + 0 * 78.233 + IZR (Z.pos k)) with (IZR (Z.pos k))
    by ring.
  apply (ifrac_ok (cosSin k).2); [done|]. apply cosSin_ok.
Qed.

(** ** C2: spacing of the islands *)

(** Replace the draw [seededRandom 0 0 s] of the goal whose seed [s] is the
    integer [k] by a variable, with its enclosure as a hypothesis. *)
Ltac enclose_draw k r :=
  let iv := eval vm_compute in (randomAt k) in
  lazymatch iv with
  | Some ?i =>
      match goal with
      | |- context [seededRandom 0 0 ?s] =>
          let E := fresh "E" in
          assert (E : s = IZR (Z.pos k)) by lra;
          let Hi := fresh "Hi" in
          assert (Hi : randomAt k = Some i) by (vm_compute; reflexivity);
          let H := fresh "H" r in
          pose proof (randomAt_ok k i s Hi E) as H;
          clear E Hi;
          unfold encloses, fx in H; cbn [lo hi] in H;
          let p := eval vm_compute in prec in change prec with p in H;
          set (r := seededRandom 0 0 s) in *; clearbody r
      end
  end.

Lemma sqrt_lower (m d : R) : 0 <= m -> m * m <= d -> m <= sqrt d.
Proof.
  intros Hm Hd. rewrite <- (sqrt_square m Hm). by apply sqrt_le_1_alt.
Qed.

Lemma sqrt_upper (m d : R) : 0 <= m -> 0 <= d < m * m -> sqrt d < m.
Proof.
  intros Hm Hd. rewrite <- (sqrt_square m Hm). by apply sqrt_lt_1_alt.
Qed.

Section Spacing.

Context {Texture : Type} (assets : @AssetDictionary Texture).

Lemma wouldOverlap_false (islands : list (@Island Texture)) cx cy est :
  wouldOverlap islands cx cy est = false <->
  forall existing, In existing islands ->
    est + island_radius existing + 50
      <= distance cx cy (island_centerX existing) (island_centerY existing).
Proof.
  unfold wouldOverlap. rewrite <- not_true_iff_false, existsb_exists. split.
  - intros H existing Hin.
    destruct (Rle_lt_dec (est + island_radius existing + 50)
                (distance cx cy (island_centerX existing)
                   (island_centerY existing))) as [Hle|Hlt]; [done|].
    exfalso. apply H. exists existing. split; [done|]. by apply Rltb_true.
  - intros H (existing & Hin & Hlt). apply Rltb_true in Hlt.
    specialize (H existing Hin). unfold distance in H. lra.
Qed.

Lemma islandStep_spaced chunkX chunkY seed (islands : list (@Island Texture)) i :
  islandsSpaced islands ->
  islandsSpaced (islandStep chunkX chunkY seed assets islands i).
Proof.
  intros Hall. unfold islandStep.
  destruct (islandCandidate chunkX chunkY seed i) as [[cx cy] b].
  destruct (wouldOverlap islands cx cy _) eqn:Hov; [done|].
  pose proof (proj1 (wouldOverlap_false _ _ _ _) Hov) as Hnew.
  intros j k earlier later Hjk Hj Hk.
  destruct (decide (k < length islands)%nat) as [Hkl|Hkl].
  - rewrite lookup_app_l in Hj, Hk by lia.
    exact (Hall j k earlier later Hjk Hj Hk).
  - rewrite lookup_app_r in Hk by lia.
    apply list_lookup_singleton_Some in Hk as [Hk <-].
    rewrite lookup_app_l in Hj by lia.
    apply list_elem_of_lookup_2, list_elem_of_In in Hj.
    specialize (Hnew earlier Hj).
    cbn [buildIsland island_radius island_centerX island_centerY]. lra.
Qed.

(** What the code does ensure: every island keeps its estimated radius
    plus the radius of each earlier island plus 50 px away from that
    island, and the chunk holds at most [islandCount] islands. *)
Lemma generateIslandsForChunk_spaced chunkX chunkY seed :
  islandsSpaced (generateIslandsForChunk chunkX chunkY seed assets) /\
  (length (generateIslandsForChunk chunkX chunkY seed assets)
     <= Z.to_nat (islandCount chunkX chunkY seed))%nat.
Proof.
  unfold generateIslandsForChunk.
  destruct (Rltb _ 0.3); [|split; [by intros [|j] k ? ? ? ?|cbn; lia]].
  assert (Hgen : forall idxs (islands : list (@Island Texture)),
    islandsSpaced islands ->
    islandsSpaced (fold_left (islandStep chunkX chunkY seed assets)
                     idxs islands) /\
    (length (fold_left (islandStep chunkX chunkY seed assets) idxs islands)
       <= length islands + length idxs)%nat).
  { induction idxs as [|i idxs IH]; intros islands Hall; cbn [fold_left].
    - split; [done|lia].
    - destruct (IH _ (islandStep_spaced chunkX chunkY seed islands i Hall))
        as [Hs Hl].
      split; [done|]. etrans; [exact Hl|]. cbn [length].
      unfold islandStep.
      destruct (islandCandidate chunkX chunkY seed i) as [[cx cy] b].
      destruct (wouldOverlap islands cx cy _); [lia|].
      rewrite length_app. cbn [length]. lia. }
  destruct (Hgen (Zrange 0 (islandCount chunkX chunkY seed - 1)) [])
    as [Hs Hl]; [by intros [|j] k ? ? ? ?|].
  split; [done|]. rewrite Zrange_length in Hl. cbn [length] in Hl. lia.
Qed.

(** A candidate that overlaps an accepted island is skipped: the array of
    islands stays as it is, and the slot draws no other candidate. *)
Lemma islandStep_rejects chunkX chunkY seed (islands : list (@Island Texture)) i :
  wouldOverlap islands (islandCandidate chunkX chunkY seed i).1.1
    (islandCandidate chunkX chunkY seed i).1.2
    (IZR (islandCandidate chunkX chunkY seed i).2 * TILE_SIZE * 1.8) = true ->
  islandStep chunkX chunkY seed assets islands i = islands.
Proof.
  unfold islandStep.
  destruct (islandCandidate chunkX chunkY seed i) as [[cx cy] b].
  cbn [fst snd]. by intros ->.
Qed.

(** The islands of the chunk (0, 0) of seed 338: an oval island of base
    radius 14 and a circular island of base radius 12, with their centers
    to a hundredth of a pixel. *)
Lemma islands_338 :
  exists cx0 cy0 cx1 cy1 : R,
    generateIslandsForChunk 0 0 338 assets
    = [buildIsland (islandKey 0 0 0) cx0 cy0 14 oval (338 + 0 * 100) assets;
       buildIsland (islandKey 0 0 1) cx1 cy1 12 circle (338 + 1 * 100) assets]
    /\ 130.79 <= cx0 <= 130.80 /\ 140.63 <= cy0 <= 140.64
    /\ 428.81 <= cx1 <= 428.82 /\ 480.41 <= cy1 <= 480.42.
Proof.
  unfold generateIslandsForChunk, islandCount.
  enclose_draw 338%positive chunkRandom.
  rewrite (proj2 (Rltb_true chunkRandom 0.3)) by lra.
  enclose_draw 438%positive countDraw.
  rewrite (Zfloor_eq 1 (countDraw * 3)) by lra.
  change (Zrange 0 (1 + 1 - 1)) with [0; 1]%Z. cbn [fold_left].
  unfold islandStep, islandCandidate, islandShape. cbv beta iota zeta.
  cbn [wouldOverlap existsb app].
  enclose_draw 338%positive x0. enclose_draw 339%positive y0.
  enclose_draw 340%positive r0. enclose_draw 341%positive s0.
  enclose_draw 348%positive x1. enclose_draw 349%positive y1.
  enclose_draw 350%positive r1. enclose_draw 351%positive s1.
  rewrite (Zfloor_eq 6 (r0 * 10)) by lra.
  rewrite (Zfloor_eq 4 (r1 * 10)) by lra.
  change (6 + 8)%Z with 14%Z. change (4 + 8)%Z with 12%Z.
  rewrite (proj2 (Rltb_false s0 0.3)) by lra.
  rewrite (proj2 (Rltb_true s0 0.5)) by lra.
  rewrite (proj2 (Rltb_true s1 0.3)) by lra.
  cbn [buildIsland island_centerX island_centerY island_radius orb].
  unfold CHUNK_SIZE, TILE_SIZE, SPRITE_TILE_SIZE, GAME_SCALE.
  set (cx0 := (0 * 64 + (x0 * 64 * 0.6 + 64 * 0.2)) * (10 * 1)).
  set (cy0 := (0 * 64 + (y0 * 64 * 0.6 + 64 * 0.2)) * (10 * 1)).
  set (cx1 := (0 * 64 + (x1 * 64 * 0.6 + 64 * 0.2)) * (10 * 1)).
  set (cy1 := (0 * 64 + (y1 * 64 * 0.6 + 64 * 0.2)) * (10 * 1)).
  assert (Hcx0 : 130.79 <= cx0 <= 130.80) by (unfold cx0; lra).
  assert (Hcy0 : 140.63 <= cy0 <= 140.64) by (unfold cy0; lra).
  assert (Hcx1 : 428.81 <= cx1 <= 428.82) by (unfold cx1; lra).
  assert (Hcy1 : 480.41 <= cy1 <= 480.42) by (unfold cy1; lra).
  assert (Hfar : Rltb (sqrt ((cx1 - cx0) * (cx1 - cx0)
                             + (cy1 - cy0) * (cy1 - cy0)))
                   (12 * (10 * 1) * 1.8 + 14 * (10 * 1) + 50) = false).
  { apply Rltb_false, sqrt_lower; [lra|]. nra. }
  rewrite Hfar. by exists cx0, cy0, cx1, cy1.
Qed.

(** C2, at the chunk (0, 0) of seed 338.  The chunk holds two islands, of
    base radius 14 and 12 tiles; their centers are less than the sum of
    their estimated radii ([baseRadius * TILE_SIZE * 1.8] each) plus 50 px
    apart. *)
Theorem islands_closer_than_estimated :
  exists first second : @Island Texture,
    generateIslandsForChunk 0 0 338 assets = [first; second] /\
    island_radius first = 14 * TILE_SIZE /\
    island_radius second = 12 * TILE_SIZE /\
    distance (island_centerX first) (island_centerY first)
             (island_centerX second) (island_centerY second)
      < 14 * TILE_SIZE * 1.8 + 12 * TILE_SIZE * 1.8 + 50.
Proof.
  destruct islands_338 as (cx0 & cy0 & cx1 & cy1 & -> & H0 & H1 & H2 & H3).
  eexists. eexists. split; [reflexivity|].
  cbn [buildIsland island_centerX island_centerY island_radius].
  split; [reflexivity|]. split; [reflexivity|].
  unfold distance, TILE_SIZE, SPRITE_TILE_SIZE, GAME_SCALE. cbv zeta.
  apply sqrt_upper; [lra|]. nra.
Qed.

Lemma islandTexture_semiDeep normalizedDist tileRandom :
  1.5 <= normalizedDist < 1.8 ->
  islandTexture assets normalizedDist tileRandom
  = Some (oceanSemiDeep assets).
Proof.
  intros H. unfold islandTexture.
  rewrite !(proj2 (Rltb_false _ _)) by lra.
  by rewrite (proj2 (Rltb_true normalizedDist 1.8)) by lra.
Qed.

(** The two islands of that chunk overlap on the map: the tile of the
    first island at offset (14, 20) tiles and the tile of the second at
    offset (-15, -13) tiles, both of the semi-deep transition ring, are
    sprites of side [TILE_SIZE] whose corners are less than [TILE_SIZE]
    apart on both axes. *)
Lemma islands_338_tiles_overlap :
  exists (first second : @Island Texture) (t1 t2 : @IslandTile Texture),
    generateIslandsForChunk 0 0 338 assets = [first; second] /\
    In t1 (island_tiles first) /\ In t2 (island_tiles second) /\
    Rabs ((island_centerX first + offsetX t1)
          - (island_centerX second + offsetX t2)) < TILE_SIZE /\
    Rabs ((island_centerY first + offsetY t1)
          - (island_centerY second + offsetY t2)) < TILE_SIZE.
Proof.
  destruct islands_338 as (cx0 & cy0 & cx1 & cy1 & -> & H0 & H1 & H2 & H3).
  eexists. eexists.
  exists {| offsetX := 14 * TILE_SIZE; offsetY := 20 * TILE_SIZE;
            texture := oceanSemiDeep assets |}.
  exists {| offsetX := (-15) * TILE_SIZE; offsetY := (-13) * TILE_SIZE;
            texture := oceanSemiDeep assets |}.
  split; [reflexivity|].
  cbn [buildIsland island_centerX island_centerY island_tiles
       offsetX offsetY].
  split; [|split].
  - unfold islandTiles, shapeModifiers.
    enclose_draw 338%positive horizontalDraw.
    unfold Rgtb. rewrite (proj2 (Rltb_false 0.5 horizontalDraw)) by lra.
    apply in_flat_map. exists 20%Z. split; [by apply Zrange_In|].
    apply in_flat_map. exists 14%Z. split; [by apply Zrange_In|].
    unfold islandTileAt. destruct (Req_dec_T 0 0) as [_|Hne]; [|done].
    rewrite islandTexture_semiDeep; [by left|].
    assert (Hd : 21 <= sqrt (14 / 0.7 * (14 / 0.7) + 20 / 1.5 * (20 / 1.5))
                 < 25.2).
    { split; [apply sqrt_lower|apply sqrt_upper]; lra. }
    lra.
  - unfold islandTiles, shapeModifiers.
    apply in_flat_map. exists (-13)%Z. split; [by apply Zrange_In|].
    apply in_flat_map. exists (-15)%Z. split; [by apply Zrange_In|].
    unfold islandTileAt. destruct (Req_dec_T 0 0) as [_|Hne]; [|done].
    rewrite islandTexture_semiDeep; [by left|].
    assert (Hd : 18 <= sqrt (-15 / 1 * (-15 / 1) + -13 / 1 * (-13 / 1))
                 < 21.6).
    { split; [apply sqrt_lower|apply sqrt_upper]; lra. }
    lra.
  - unfold TILE_SIZE, SPRITE_TILE_SIZE, GAME_SCALE.
    split; apply Rabs_def1; lra.
Qed.

End Spacing.

(** * Instances *)


(** C10 for the coordinate (3, -4), on a cache that holds that chunk. *)
Lemma getChunk_coordinates_witness :
  reachable 338 assetNames (getChunk (ChunkCache_new 338 assetNames) 3 (-4)).1
  /\
  chunk_chunkX
    (ref_chunk
       (getChunk (getChunk (ChunkCache_new 338 assetNames) 3 (-4)).1
                 3 (-4)).2) = 3%Z /\
  chunk_chunkY
    (ref_chunk
       (getChunk (getChunk (ChunkCache_new 338 assetNames) 3 (-4)).1
                 3 (-4)).2) = (-4)%Z /\
  (forall x' y', getKey 3 (-4) = getKey x' y' -> 3%Z = x' /\ (-4)%Z = y').
Proof.
  split.
  - apply reachable_getChunk, reachable_new.
  - apply (getChunk_coordinates 338 assetNames).
    apply reachable_getChunk, reachable_new.
Defined.

(** C8 for [cleanup(0, 0, 1)] on a cache that holds the chunk (5, 5). *)
Lemma cleanup_evicts_witness :
  reachable 338 assetNames (getChunk (ChunkCache_new 338 assetNames) 5 5).1
  /\
  let this := (getChunk (ChunkCache_new 338 assetNames) 5 5).1 in
  let this' := cleanup this 0 0 1 in
  (forall key ref, this_cache this' !! key = Some ref ->
     (Z.abs (chunk_chunkX (ref_chunk ref) - 0) <= 1)%Z /\
     (Z.abs (chunk_chunkY (ref_chunk ref) - 0) <= 1)%Z) /\
  (forall key ref, this_cache this !! key = Some ref ->
     (Z.abs (chunk_chunkX (ref_chunk ref) - 0) <= 1)%Z ->
     (Z.abs (chunk_chunkY (ref_chunk ref) - 0) <= 1)%Z ->
     this_cache this' !! key = Some ref) /\
  (forall x y evicted, this_cache this !! getKey x y = Some evicted ->
     (1 < Z.abs (x - 0) \/ 1 < Z.abs (y - 0))%Z ->
     this_cache this' !! getKey x y = None /\
     let '(this'', fresh) := getChunk this' x y in
     ref_chunk fresh = ref_chunk evicted /\
     ref_addr fresh <> ref_addr evicted /\
     this_cache this'' !! getKey x y = Some fresh).
Proof.
  split.
  - apply reachable_getChunk, reachable_new.
  - apply (cleanup_evicts 338 assetNames).
    apply reachable_getChunk, reachable_new.
Defined.

(** * Further properties of the generator *)

(** ** noise2D *)

(** The three octaves of [noise2D], written out. *)
Lemma noise2D_octaves (x y seed scale : R) :
  noise2D x y seed scale
  = (seededRandom (x * scale) (y * scale) seed
     + seededRandom (x * scale * 2) (y * scale * 2) (seed + 1000) * 0.5
     + seededRandom (x * scale * 4) (y * scale * 4) (seed + 2000) * 0.25)
    / 1.75.
Proof.
  unfold noise2D. cbn [fold_left].
  replace (x * scale * 1) with (x * scale) by lra.
  replace (y * scale * 1) with (y * scale) by lra.
  replace (x * scale * (1 * 2)) with (x * scale * 2) by lra.
  replace (y * scale * (1 * 2)) with (y * scale * 2) by lra.
  replace (x * scale * (1 * 2 * 2)) with (x * scale * 4) by lra.
  replace (y * scale * (1 * 2 * 2)) with (y * scale * 4) by lra.
  replace (seed + IZR 0 * 1000) with seed by lra.
  replace (seed + IZR 1 * 1000) with (seed + 1000) by lra.
  replace (seed + IZR 2 * 1000) with (seed + 2000) by lra.
  lra.
Qed.

(** X1. The three-octave noise is normalised: whatever the position, the
    seed and the scale, it lies in [0, 1). *)
Theorem noise2D_range (x y seed scale : R) :
  0 <= noise2D x y seed scale < 1.
Proof.
  rewrite noise2D_octaves.
  pose proof (seededRandom_range (x * scale) (y * scale) seed).
  pose proof (seededRandom_range (x * scale * 2) (y * scale * 2)
                (seed + 1000)).
  pose proof (seededRandom_range (x * scale * 4) (y * scale * 4)
                (seed + 2000)).
  lra.
Qed.

(** ** Lists built by nested loops *)

Lemma NoDup_flat_map_disjoint {A B : Type} (f : A -> list B) (l : list A) :
  List.NoDup l ->
  (forall a, In a l -> List.NoDup (f a)) ->
  (forall a a' b, In a l -> In a' l -> In b (f a) -> In b (f a') -> a = a') ->
  List.NoDup (flat_map f l).
Proof.
  induction l as [|a l IH]; intros Hl Hf Hdis; [constructor|].
  cbn [flat_map]. apply List.NoDup_cons_iff in Hl as [Ha Hl].
  apply List.NoDup_app.
  - apply Hf. by left.
  - apply IH; [done|intros; apply Hf; by right|].
    intros a1 a2 b H1 H2. apply Hdis; by right.
  - intros b Hb Hb'. apply in_flat_map in Hb' as (a' & Ha' & Hb').
    assert (a = a') as -> by (eapply Hdis; [by left|by right|done..]).
    done.
Qed.

Section Islands.

Context {Texture : Type} (assets : @AssetDictionary Texture).

(** ** buildIsland *)

Lemma islandTileAt_offsets radiusTiles shape seed sx sy rot dy dx t :
  In t (islandTileAt assets radiusTiles shape seed sx sy rot dy dx) ->
  offsetX t = IZR dx * TILE_SIZE /\ offsetY t = IZR dy * TILE_SIZE /\
  exists normalizedDist tileRandom,
    islandTexture assets normalizedDist tileRandom = Some (texture t).
Proof.
  unfold islandTileAt. destruct (Req_dec_T rot 0);
    match goal with
    | |- context [islandTexture assets ?n ?r] =>
        destruct (islandTexture assets n r) as [tx|] eqn:Htx
    end; try done;
    (intros [<-|[]]; cbn [offsetX offsetY texture];
     split; [done|]; split; [done|]; eauto).
Qed.

Lemma IZR_TILE_SIZE_inj (a b : Z) : IZR a * TILE_SIZE = IZR b * TILE_SIZE -> a = b.
Proof.
  unfold TILE_SIZE, SPRITE_TILE_SIZE, GAME_SCALE. intros H.
  apply eq_IZR. lra.
Qed.

(** X2. Within one island no two tiles have the same offset: every
    offset of the scan window is visited once and yields at most one
    tile. *)
Theorem island_tiles_unique_offsets (id : string) (centerX centerY : R)
    (baseRadius : Z) (shape : Shape) (seed : R) :
  List.NoDup
    (map (fun t => (offsetX t, offsetY t))
       (island_tiles
          (buildIsland id centerX centerY baseRadius shape seed assets))).
Proof.
  cbn [buildIsland island_tiles]. unfold islandTiles.
  destruct (shapeModifiers shape seed) as [[sx sy] rot].
  rewrite map_flat_map. apply NoDup_flat_map_disjoint.
  - apply Zrange_NoDup.
  - intros dy _. rewrite map_flat_map. apply NoDup_flat_map_disjoint.
    + apply Zrange_NoDup.
    + intros dx _.
      destruct (islandTileAt assets baseRadius shape seed sx sy rot dy dx)
        as [|t [|t' l]] eqn:Hcell; cbn [map].
      * constructor.
      * constructor; [by intros []|constructor].
      * exfalso. revert Hcell. unfold islandTileAt.
        destruct (Req_dec_T rot 0);
          match goal with
          | |- context [islandTexture assets ?n ?r] =>
              destruct (islandTexture assets n r)
          end; done.
    + intros dx dx' [ox oy] _ _ H1 H2.
      apply in_map_iff in H1 as (t1 & [= <- <-] & H1).
      apply in_map_iff in H2 as (t2 & [= Hx Hy] & H2).
      apply islandTileAt_offsets in H1 as (Hx1 & _ & _).
      apply islandTileAt_offsets in H2 as (Hx2 & _ & _).
      apply IZR_TILE_SIZE_inj. congruence.
  - intros dy dy' [ox oy] _ _ H1 H2.
    rewrite map_flat_map in H1, H2.
    apply in_flat_map in H1 as (dx1 & _ & H1).
    apply in_flat_map in H2 as (dx2 & _ & H2).
    apply in_map_iff in H1 as (t1 & [= <- <-] & H1).
    apply in_map_iff in H2 as (t2 & [= Hx Hy] & H2).
    apply islandTileAt_offsets in H1 as (_ & Hy1 & _).
    apply islandTileAt_offsets in H2 as (_ & Hy2 & _).
    apply IZR_TILE_SIZE_inj. congruence.
Qed.

(** X4. Every tile of an island carries one of the nine terrain textures
    of the dictionary (never a cloud texture, the jet, the border tile, the
    deep or the super-deep ocean), and its offset is a whole number of
    tiles inside the scan window of [baseRadius + 8] tiles. *)
Theorem island_tiles_textures (id : string) (centerX centerY : R)
    (baseRadius : Z) (shape : Shape) (seed : R) :
  List.Forall (fun t : @IslandTile Texture =>
    In (texture t)
       [mountain assets; rocks assets; tree assets; soil assets;
        grass assets; sand assets; shoal assets; oceanShallow assets;
        oceanSemiDeep assets]
    /\ exists dx dy : Z,
         (- (baseRadius + 8) <= dx <= baseRadius + 8)%Z /\
         (- (baseRadius + 8) <= dy <= baseRadius + 8)%Z /\
         offsetX t = IZR dx * TILE_SIZE /\ offsetY t = IZR dy * TILE_SIZE)
    (island_tiles
       (buildIsland id centerX centerY baseRadius shape seed assets)).
Proof.
  apply List.Forall_forall. intros t.
  cbn [buildIsland island_tiles]. unfold islandTiles.
  destruct (shapeModifiers shape seed) as [[sx sy] rot].
  intros Hin. apply in_flat_map in Hin as (dy & Hdy & Hin).
  apply in_flat_map in Hin as (dx & Hdx & Hin).
  apply Zrange_In in Hdy, Hdx.
  apply islandTileAt_offsets in Hin as (Hx & Hy & nd & tr & Htx).
  split; [|by exists dx, dy].
  revert Htx. unfold islandTexture.
  repeat match goal with
         | |- context [Rltb ?a ?b] => destruct (Rltb a b)
         end;
    intros [= <-]; cbn [In]; tauto.
Qed.

(** The tile the scan emits at the center of an island of base radius 8
    or more. *)
Lemma islandTileAt_center radiusTiles shape seed :
  (8 <= radiusTiles)%Z ->
  islandTileAt assets radiusTiles shape seed
    (shapeModifiers shape seed).1.1 (shapeModifiers shape seed).1.2
    (shapeModifiers shape seed).2 0 0
  = [ {| offsetX := 0 * TILE_SIZE; offsetY := 0 * TILE_SIZE;
         texture := mountain assets |} ].
Proof.
  intros Hr. assert (Hr' : 8 <= IZR radiusTiles) by (by apply IZR_le).
  unfold islandTileAt.
  set (sx := (shapeModifiers shape seed).1.1).
  set (sy := (shapeModifiers shape seed).1.2).
  set (rot := (shapeModifiers shape seed).2).
  assert (Hzero : forall rx ry, rx = 0 -> ry = 0 ->
            sqrt (rx / sx * (rx / sx) + ry / sy * (ry / sy)) = 0).
  { intros rx ry -> ->. unfold Rdiv. rewrite !Rmult_0_l, Rplus_0_l.
    apply sqrt_0. }
  assert (Hdist :
    (let '(rx, ry) :=
       if Req_dec_T rot 0 then (0, 0)
       else (0 * cos rot - 0 * sin rot, 0 * sin rot + 0 * cos rot) in
     sqrt (rx / sx * (rx / sx) + ry / sy * (ry / sy))) = 0).
  { destruct (Req_dec_T rot 0); apply Hzero; ring. }
  destruct (Req_dec_T rot 0); rewrite Hdist.
  all: assert (Hnd : forall d, -1.5 <= d < 1.5 -> d / IZR radiusTiles < 0.2)
    by (intros d Hd; apply (Rmult_lt_reg_r (IZR radiusTiles)); [lra|];
        unfold Rdiv; rewrite Rmult_assoc, Rinv_l by lra; nra).
  all: assert (Hnoise : 0 <= noise2D 0 0 seed 0.2 < 1)
    by (rewrite noise2D_octaves;
        pose proof (seededRandom_range (0 * 0.2) (0 * 0.2) seed);
        pose proof (seededRandom_range (0 * 0.2 * 2) (0 * 0.2 * 2)
                      (seed + 1000));
        pose proof (seededRandom_range (0 * 0.2 * 4) (0 * 0.2 * 4)
                      (seed + 2000)); lra).
  all: unfold islandTexture.
  all: destruct shape;
    rewrite (proj2 (Rltb_true _ 0.2)) by (apply Hnd; lra); reflexivity.
Qed.

(** ** generateIslandsForChunk *)

(** The island built for an accepted candidate [i]. *)
Lemma islandStep_sublist chunkX chunkY seed idxs
    (islands : list (@Island Texture)) :
  exists accepted,
    sublist accepted idxs /\
    fold_left (islandStep chunkX chunkY seed assets) idxs islands
    = islands ++
      map (fun i =>
             buildIsland (islandKey chunkX chunkY i)
               (islandCandidate chunkX chunkY seed i).1.1
               (islandCandidate chunkX chunkY seed i).1.2
               (islandCandidate chunkX chunkY seed i).2
               (islandShape chunkX chunkY seed i) (seed + IZR i * 100)
               assets) accepted.
Proof.
  revert islands. induction idxs as [|i idxs IH]; intros islands.
  - exists []. split; [constructor|]. cbn. by rewrite app_nil_r.
  - cbn [fold_left].
    destruct (IH (islandStep chunkX chunkY seed assets islands i))
      as (accepted & Hsub & ->).
    unfold islandStep.
    destruct (islandCandidate chunkX chunkY seed i) as [[cx cy] b] eqn:Hc.
    destruct (wouldOverlap islands cx cy _).
    + exists accepted. split; [by constructor|reflexivity].
    + exists (i :: accepted). split; [by constructor|].
      cbn [map]. rewrite Hc. cbn [fst snd]. by rewrite <- app_assoc.
Qed.

Lemma islandCandidate_range chunkX chunkY seed i :
  (8 <= (islandCandidate chunkX chunkY seed i).2 <= 17)%Z /\
  (IZR chunkX * CHUNK_SIZE + 0.2 * CHUNK_SIZE) * TILE_SIZE
    <= (islandCandidate chunkX chunkY seed i).1.1
    < (IZR chunkX * CHUNK_SIZE + 0.8 * CHUNK_SIZE) * TILE_SIZE /\
  (IZR chunkY * CHUNK_SIZE + 0.2 * CHUNK_SIZE) * TILE_SIZE
    <= (islandCandidate chunkX chunkY seed i).1.2
    < (IZR chunkY * CHUNK_SIZE + 0.8 * CHUNK_SIZE) * TILE_SIZE.
Proof.
  unfold islandCandidate. cbn [fst snd].
  pose proof (seededRandom_range (IZR chunkX) (IZR chunkY) (seed + IZR i * 10)).
  pose proof (seededRandom_range (IZR chunkX) (IZR chunkY) (seed + IZR i * 10 + 1)).
  pose proof (floor_draw _ 10
    (seededRandom_range (IZR chunkX) (IZR chunkY) (seed + IZR i * 10 + 2))
    ltac:(lia)).
  unfold CHUNK_SIZE, TILE_SIZE, SPRITE_TILE_SIZE, GAME_SCALE.
  repeat split; try lia; lra.
Qed.

Lemma islandCount_range chunkX chunkY seed :
  (1 <= islandCount chunkX chunkY seed <= 3)%Z.
Proof.
  unfold islandCount.
  pose proof (floor_draw _ 3
    (seededRandom_range (IZR chunkX) (IZR chunkY) (seed + 100)) ltac:(lia)).
  lia.
Qed.

(** The islands of a chunk, as the islands built for the accepted
    candidates. *)
Lemma generateIslandsForChunk_accepted chunkX chunkY seed :
  exists accepted,
    sublist accepted (Zrange 0 (islandCount chunkX chunkY seed - 1)) /\
    generateIslandsForChunk chunkX chunkY seed assets
    = map (fun i =>
             buildIsland (islandKey chunkX chunkY i)
               (islandCandidate chunkX chunkY seed i).1.1
               (islandCandidate chunkX chunkY seed i).1.2
               (islandCandidate chunkX chunkY seed i).2
               (islandShape chunkX chunkY seed i) (seed + IZR i * 100)
               assets) accepted.
Proof.
  unfold generateIslandsForChunk. destruct (Rltb _ 0.3).
  - destruct (islandStep_sublist chunkX chunkY seed
                (Zrange 0 (islandCount chunkX chunkY seed - 1)) [])
      as (accepted & Hsub & ->).
    by exists accepted.
  - exists []. split; [apply sublist_nil_l|done].
Qed.

(** X5. A chunk holds no island when its occupancy draw is 0.3 or more,
    and between one and three islands otherwise (the first candidate is
    never rejected).  Every island has a radius of 80 to 170 px and its
    center in the chunk's interior, from 0.2 to 0.8 of the chunk on each
    axis. *)
Theorem chunk_islands_shape (chunkX chunkY : Z) (seed : R) :
  let islands := chunk_islands (generateChunk chunkX chunkY seed assets) in
  (0.3 <= seededRandom (IZR chunkX) (IZR chunkY) seed -> islands = []) /\
  (seededRandom (IZR chunkX) (IZR chunkY) seed < 0.3 ->
     (1 <= length islands <= 3)%nat) /\
  (forall island, In island islands ->
     80 <= island_radius island <= 170 /\
     (IZR chunkX + 0.2) * (CHUNK_SIZE * TILE_SIZE) <= island_centerX island
       < (IZR chunkX + 0.8) * (CHUNK_SIZE * TILE_SIZE) /\
     (IZR chunkY + 0.2) * (CHUNK_SIZE * TILE_SIZE) <= island_centerY island
       < (IZR chunkY + 0.8) * (CHUNK_SIZE * TILE_SIZE)).
Proof.
  cbv zeta. cbn [generateChunk chunk_islands]. split; [|split].
  - intros Hdraw. unfold generateIslandsForChunk.
    by rewrite (proj2 (Rltb_false _ _)).
  - intros Hdraw.
    pose proof (islandCount_range chunkX chunkY seed) as Hcount.
    pose proof (generateIslandsForChunk_spaced assets chunkX chunkY seed)
      as [_ Hle].
    split; [|lia].
    unfold generateIslandsForChunk. rewrite (proj2 (Rltb_true _ _)) by done.
    assert (Zrange 0 (islandCount chunkX chunkY seed - 1)
            = 0%Z :: Zrange 1 (islandCount chunkX chunkY seed - 1)) as ->.
    { unfold Zrange.
      replace (Z.to_nat (islandCount chunkX chunkY seed - 1 - 0 + 1))
        with (S (Z.to_nat (islandCount chunkX chunkY seed - 1 - 1 + 1)))
        by lia.
      cbn [seq map]. f_equal. rewrite <- seq_shift, map_map.
      apply map_ext. intros k. lia. }
    cbn [fold_left].
    destruct (islandStep_sublist chunkX chunkY seed
                (Zrange 1 (islandCount chunkX chunkY seed - 1))
                (islandStep chunkX chunkY seed assets [] 0))
      as (accepted & _ & ->).
    rewrite length_app. unfold islandStep.
    destruct (islandCandidate chunkX chunkY seed 0) as [[cx cy] b].
    cbn [wouldOverlap existsb app length]. lia.
  - intros island Hin.
    destruct (generateIslandsForChunk_accepted chunkX chunkY seed)
      as (accepted & _ & Heq).
    rewrite Heq in Hin. apply in_map_iff in Hin as (i & <- & _).
    cbn [buildIsland island_radius island_centerX island_centerY].
    pose proof (islandCandidate_range chunkX chunkY seed i)
      as ([Hlo Hhi] & Hx & Hy).
    apply IZR_le in Hlo, Hhi.
    unfold CHUNK_SIZE, TILE_SIZE, SPRITE_TILE_SIZE, GAME_SCALE in *.
    repeat split; lra.
Qed.

(** X3. Every island of a generated chunk has a mountain tile at its
    center (offset 0, 0), whatever its shape. *)
Theorem chunk_islands_center_mountain (chunkX chunkY : Z) (seed : R) :
  List.Forall (fun island : @Island Texture =>
    In {| offsetX := 0 * TILE_SIZE; offsetY := 0 * TILE_SIZE;
          texture := mountain assets |} (island_tiles island))
    (chunk_islands (generateChunk chunkX chunkY seed assets)).
Proof.
  apply List.Forall_forall. intros island.
  cbn [generateChunk chunk_islands]. intros Hin.
  destruct (generateIslandsForChunk_accepted chunkX chunkY seed)
    as (accepted & _ & Heq).
  rewrite Heq in Hin. apply in_map_iff in Hin as (i & <- & _).
  pose proof (islandCandidate_range chunkX chunkY seed i) as ([Hlo _] & _).
  cbn [buildIsland island_tiles]. unfold islandTiles.
  set (b := (islandCandidate chunkX chunkY seed i).2) in *.
  pose proof (islandTileAt_center b (islandShape chunkX chunkY seed i)
                (seed + IZR i * 100) Hlo) as Hcenter.
  destruct (shapeModifiers _ _) as [[sx sy] rot]. cbn [fst snd] in Hcenter.
  apply in_flat_map. exists 0%Z. split; [apply Zrange_In; lia|].
  apply in_flat_map. exists 0%Z. split; [apply Zrange_In; lia|].
  rewrite Hcenter. by left.
Qed.

End Islands.

(** ** Island ids *)

Lemma islandKey_inj (x y i x' y' i' : Z) :
  islandKey x y i = islandKey x' y' i' -> x = x' /\ y = y' /\ i = i'.
Proof.
  unfold islandKey. intros Heq.
  apply comma_split in Heq as [Hx Heq]; try apply comma_free_pretty_Z.
  apply comma_split in Heq as [Hy Hi]; try apply comma_free_pretty_Z.
  repeat split; by apply (inj pretty).
Qed.

Section Terrain.

Context {Texture : Type} (seed : R) (assets : @AssetDictionary Texture).

(** On a cache that satisfies the invariant, the chunks [getChunks] pushes
    are the chunks generated for the coordinates asked for. *)
Lemma getChunks_generated coords
    (st : @ChunkCache Texture * list (@ChunkRef Texture)) :
  cache_inv seed assets st.1 ->
  exists pushed,
    (getChunks coords st).2 = st.2 ++ pushed /\
    map ref_chunk pushed
    = map (fun xy : Z * Z => generateChunk xy.1 xy.2 seed assets) coords.
Proof.
  intros Hinv.
  pose proof (cache_inv_getChunks seed assets coords st Hinv)
    as (_ & _ & Hentries).
  destruct (getChunks_spec coords st) as (pushed & Hl & Hall).
  exists pushed. split; [done|]. clear Hl. revert Hall Hentries.
  generalize (getChunks coords st).1 as final. intros final Hall Hentries.
  induction Hall as [|xy chunk coords' pushed' Hk _ IH]; [done|].
  cbn [map]. f_equal; [|done].
  destruct (Hentries _ _ Hk) as (Hkey & Hgen & _).
  apply getKey_inj in Hkey as [Hx Hy]. congruence.
Qed.

Lemma chunk_island_ids chunkX chunkY :
  exists accepted,
    sublist accepted (Zrange 0 (islandCount chunkX chunkY seed - 1)) /\
    map island_id (chunk_islands (generateChunk chunkX chunkY seed assets))
    = map (islandKey chunkX chunkY) accepted.
Proof.
  destruct (generateIslandsForChunk_accepted assets chunkX chunkY seed)
    as (accepted & Hsub & Heq).
  exists accepted. split; [done|].
  cbn [generateChunk chunk_islands]. rewrite Heq, map_map. done.
Qed.

(** X6. The islands [TerrainLayer] renders, flattened from the chunks
    around the player, have pairwise different ids; the ids are the keys
    of the rendered list. *)
Theorem allIslands_ids_unique (chunkCache : @ChunkCache Texture)
    (playerX playerY : R) :
  reachable seed assets chunkCache ->
  List.NoDup
    (map island_id (allIslands (visibleChunks chunkCache playerX playerY).2)).
Proof.
  intros Hreach. apply reachable_inv in Hreach.
  unfold visibleChunks. rewrite getChunksInRadius_getChunks.
  set (cx := currentChunk (parallax playerX)).
  set (cy := currentChunk (parallax playerY)).
  destruct (getChunks_generated (square cx cy 2) (chunkCache, []) Hreach)
    as (pushed & -> & Hgen).
  cbn [snd app]. unfold allIslands.
  assert (Hflat :
    map island_id
      (flat_map (fun chunk : @ChunkRef Texture =>
                   chunk_islands (ref_chunk chunk)) pushed)
    = flat_map (fun xy : Z * Z =>
                  map island_id
                    (chunk_islands (generateChunk xy.1 xy.2 seed assets)))
        (square cx cy 2)).
  { rewrite map_flat_map.
    transitivity
      (flat_map (fun c : @Chunk Texture => map island_id (chunk_islands c))
                (map ref_chunk pushed)).
    - rewrite !flat_map_concat_map, map_map. done.
    - rewrite Hgen, !flat_map_concat_map, map_map. done. }
  rewrite Hflat. apply NoDup_flat_map_disjoint.
  - apply square_NoDup.
  - intros [x y] _. cbn [fst snd].
    destruct (chunk_island_ids x y) as (accepted & Hsub & ->).
    apply Stdlib.Lists.Finite.Injective_map_NoDup.
    + intros i i' Heq. by apply islandKey_inj in Heq as (_ & _ & ->).
    + apply NoDup_ListNoDup. eapply sublist_NoDup; [|exact Hsub].
      apply NoDup_ListNoDup, Zrange_NoDup.
  - intros [x y] [x' y'] id _ _. cbn [fst snd].
    destruct (chunk_island_ids x y) as (accepted & _ & ->).
    destruct (chunk_island_ids x' y') as (accepted' & _ & ->).
    intros H1 H2.
    apply in_map_iff in H1 as (i & <- & _).
    apply in_map_iff in H2 as (i' & Heq & _).
    apply islandKey_inj in Heq as (-> & -> & _). done.
Qed.

End Terrain.

(** ** Deep-ocean patches *)

Lemma distance_dist_euc x0 y0 x1 y1 : distance x0 y0 x1 y1 = dist_euc x0 y0 x1 y1.
Proof. reflexivity. Qed.

(** The points of a patch lie within [patchSize] tiles of its center, and
    the center is one of them. *)
Lemma patchPoints_near globalX globalY (patchSize : Z) (p : Point) :
  In p (patchPoints globalX globalY patchSize) ->
  distance (pt_x p) (pt_y p) globalX globalY <= IZR patchSize * TILE_SIZE.
Proof.
  unfold patchPoints. intros Hin.
  apply in_flat_map in Hin as (py & Hpy & Hin).
  apply in_flat_map in Hin as (px & Hpx & Hin).
  destruct (Rleb _ (IZR patchSize)) eqn:Hle; [|done].
  destruct Hin as [<-|[]]. apply Rleb_true in Hle.
  apply Zrange_In in Hpy.
  assert (Hs : 0 <= IZR patchSize) by (apply IZR_le; lia).
  unfold distance, TILE_SIZE, SPRITE_TILE_SIZE, GAME_SCALE. cbn [pt_x pt_y].
  replace ((globalX + IZR px * (10 * 1) - globalX)
           * (globalX + IZR px * (10 * 1) - globalX)
           + (globalY + IZR py * (10 * 1) - globalY)
             * (globalY + IZR py * (10 * 1) - globalY))
    with ((10 * 10) * (IZR px * IZR px + IZR py * IZR py)) by ring.
  rewrite sqrt_mult_alt, sqrt_square by lra. nra.
Qed.

Lemma patchPoints_center globalX globalY (patchSize : Z) :
  (0 <= patchSize)%Z ->
  In {| pt_x := globalX + 0 * TILE_SIZE; pt_y := globalY + 0 * TILE_SIZE |}
     (patchPoints globalX globalY patchSize).
Proof.
  intros Hs. unfold patchPoints.
  apply in_flat_map. exists 0%Z. split; [apply Zrange_In; lia|].
  apply in_flat_map. exists 0%Z. split; [apply Zrange_In; lia|].
  rewrite (proj2 (Rleb_true _ _)); [by left|].
  replace (0 * 0 + 0 * 0) with 0 by ring. rewrite sqrt_0.
  apply IZR_le. lia.
Qed.

Lemma patchCandidate_size chunkX chunkY seed i :
  (3 <= (patchCandidate chunkX chunkY seed i).2 <= 7)%Z.
Proof.
  unfold patchCandidate. cbn [snd].
  pose proof (floor_draw _ 5
    (seededRandom_range (IZR chunkX) (IZR chunkY)
       (seed + 9000 + IZR i * 3 + 2)) ltac:(lia)).
  lia.
Qed.

(** X7. Every deep-ocean point of a generated chunk, not only the patch
    centers, lies more than [island.radius + 30] px from the center of
    every island of the chunk: a patch extends at most 7 tiles from a
    center that is more than [island.radius + 100] px away. *)
Theorem patch_points_clear_of_islands {Texture : Type}
    (assets : @AssetDictionary Texture) (chunkX chunkY : Z) (seed : R) :
  let chunk := generateChunk chunkX chunkY seed assets in
  List.Forall (fun p : Point =>
    List.Forall (fun island : @Island Texture =>
      distance (pt_x p) (pt_y p)
               (island_centerX island) (island_centerY island)
        > island_radius island + 30) (chunk_islands chunk))
    (chunk_deepOceanPatches chunk).
Proof.
  cbv zeta. apply List.Forall_forall. intros p Hp.
  apply List.Forall_forall. intros island Hisl. revert Hp Hisl.
  cbn [generateChunk chunk_islands chunk_deepOceanPatches].
  unfold generateDeepOceanPatches. rewrite patchStep_fold. cbn [app].
  intros Hp Hisl. apply in_flat_map in Hp as ([[gx gy] sz] & Hacc & Hp).
  cbn [fst snd] in Hp. apply filter_In in Hacc as [Hcand Hfar].
  cbn [fst snd] in Hfar.
  pose proof (proj1 (farFromIslands_spec _ _ _) Hfar island Hisl) as Hclear.
  apply in_map_iff in Hcand as (i & Hi & _).
  pose proof (patchCandidate_size chunkX chunkY seed i) as Hsz.
  rewrite Hi in Hsz. cbn [snd] in Hsz.
  pose proof (patchPoints_near _ _ _ _ Hp) as Hnear.
  assert (Hsz' : IZR sz <= 7) by (apply IZR_le; lia).
  assert (Htri :
    distance gx gy (island_centerX island) (island_centerY island)
    <= distance gx gy (pt_x p) (pt_y p)
       + distance (pt_x p) (pt_y p)
           (island_centerX island) (island_centerY island))
    by apply triangle.
  pose proof (distance_sym gx gy (pt_x p) (pt_y p)) as Hsym.
  unfold TILE_SIZE, SPRITE_TILE_SIZE, GAME_SCALE in Hnear. lra.
Qed.

(** ** Cloud formations *)

Lemma Zrange_cons (lo hi : Z) :
  (lo <= hi)%Z -> Zrange lo hi = lo :: Zrange (lo + 1) hi.
Proof.
  intros Hle. unfold Zrange.
  replace (Z.to_nat (hi - lo + 1))
    with (S (Z.to_nat (hi - (lo + 1) + 1))) by lia.
  cbn [seq map]. f_equal; [lia|]. rewrite <- seq_shift, map_map.
  apply map_ext. intros k. lia.
Qed.

Lemma cloudDraw_range chunkX chunkY seed i attempts :
  IZR chunkX * (CHUNK_SIZE * TILE_SIZE)
    <= (cloudDraw chunkX chunkY seed i attempts).1.1
    < (IZR chunkX + 1) * (CHUNK_SIZE * TILE_SIZE) /\
  IZR chunkY * (CHUNK_SIZE * TILE_SIZE)
    <= (cloudDraw chunkX chunkY seed i attempts).1.2
    < (IZR chunkY + 1) * (CHUNK_SIZE * TILE_SIZE) /\
  exists radius : Z,
    (1 <= radius <= 100)%Z /\
    (cloudDraw chunkX chunkY seed i attempts).2 = IZR radius.
Proof.
  unfold cloudDraw. cbn [fst snd].
  pose proof (seededRandom_range (IZR chunkX) (IZR chunkY)
                (seed + 8000 + IZR i * 5 + IZR attempts)).
  pose proof (seededRandom_range (IZR chunkX) (IZR chunkY)
                (seed + 8000 + IZR i * 5 + 1 + IZR attempts)).
  pose proof (floor_draw _ 100
    (seededRandom_range (IZR chunkX) (IZR chunkY)
       (seed + 8000 + IZR i * 5 + 2 + IZR attempts)) ltac:(lia)).
  unfold CHUNK_SIZE, TILE_SIZE, SPRITE_TILE_SIZE, GAME_SCALE.
  split; [lra|]. split; [lra|]. eexists. split; [|reflexivity]. lia.
Qed.

Section Clouds.

Context {Texture : Type} (assets : @AssetDictionary Texture).

(** A cloud slot leaves the array as it is or appends the formation built
    from one of its draws. *)
Lemma cloudStep_cases chunkX chunkY seed
    (clouds : list (@CloudFormation Texture)) i :
  cloudStep chunkX chunkY seed assets clouds i = clouds \/
  exists attempts,
    cloudStep chunkX chunkY seed assets clouds i
    = clouds ++
      [buildCloudFormation (islandKey chunkX chunkY i)
         (cloudDraw chunkX chunkY seed i attempts).1.1
         (cloudDraw chunkX chunkY seed i attempts).1.2
         (cloudDraw chunkX chunkY seed i attempts).2
         (seed + IZR i * 50) assets].
Proof.
  unfold cloudStep.
  pose proof (placeCloud_spec (Z.to_nat maxAttempts) clouds
                chunkX chunkY seed i 0 ltac:(done) ltac:(done)) as Hspec.
  destruct (placeCloud (Z.to_nat maxAttempts) clouds chunkX chunkY seed i 0)
    as [[[cx cy] r] att].
  destruct Hspec as (_ & Hlast & _ & _).
  destruct (_ && _); [by left|]. right. exists (att - 1)%Z.
  by rewrite <- Hlast.
Qed.

Lemma cloudStep_fold_cases chunkX chunkY seed idxs
    (clouds : list (@CloudFormation Texture)) :
  exists pushed,
    fold_left (cloudStep chunkX chunkY seed assets) idxs clouds
    = clouds ++ pushed /\
    (length pushed <= length idxs)%nat /\
    List.Forall (fun cloud =>
      exists i attempts,
        cloud = buildCloudFormation (islandKey chunkX chunkY i)
                  (cloudDraw chunkX chunkY seed i attempts).1.1
                  (cloudDraw chunkX chunkY seed i attempts).1.2
                  (cloudDraw chunkX chunkY seed i attempts).2
                  (seed + IZR i * 50) assets) pushed.
Proof.
  revert clouds. induction idxs as [|i idxs IH]; intros clouds.
  - exists []. cbn. by rewrite app_nil_r.
  - cbn [fold_left].
    destruct (IH (cloudStep chunkX chunkY seed assets clouds i))
      as (pushed & -> & Hlen & Hall).
    destruct (cloudStep_cases chunkX chunkY seed clouds i)
      as [->|(attempts & ->)].
    + exists pushed. split; [done|]. split; [cbn [length]; lia|done].
    + eexists (_ :: pushed). split; [by rewrite <- app_assoc|].
      split; [cbn [length]; lia|]. constructor; [|done]. eauto.
Qed.

(** X8. Every generated chunk holds between one and three cloud
    formations (the first slot always places its cloud); each has its
    center inside the chunk's pixel square and a whole radius between 1
    and 100 px. *)
Theorem chunk_clouds_shape (chunkX chunkY : Z) (seed : R) :
  let clouds := chunk_clouds (generateChunk chunkX chunkY seed assets) in
  (1 <= length clouds <= 3)%nat /\
  List.Forall (fun cloud : @CloudFormation Texture =>
    IZR chunkX * (CHUNK_SIZE * TILE_SIZE) <= cloud_centerX cloud
      < (IZR chunkX + 1) * (CHUNK_SIZE * TILE_SIZE) /\
    IZR chunkY * (CHUNK_SIZE * TILE_SIZE) <= cloud_centerY cloud
      < (IZR chunkY + 1) * (CHUNK_SIZE * TILE_SIZE) /\
    exists radius : Z,
      (1 <= radius <= 100)%Z /\ cloud_radius cloud = IZR radius) clouds.
Proof.
  cbv zeta. cbn [generateChunk chunk_clouds]. unfold generateCloudsForChunk.
  assert (Hcount : (1 <= cloudCount chunkX chunkY seed <= 3)%Z).
  { unfold cloudCount.
    pose proof (floor_draw _ 3
      (seededRandom_range (IZR chunkX) (IZR chunkY) (seed + 7000))
      ltac:(lia)).
    lia. }
  split.
  - rewrite Zrange_cons by lia. cbn [fold_left].
    destruct (cloudStep_fold_cases chunkX chunkY seed
                (Zrange (0 + 1) (cloudCount chunkX chunkY seed - 1))
                (cloudStep chunkX chunkY seed assets [] 0))
      as (pushed & -> & Hlen & _).
    rewrite Zrange_length in Hlen. rewrite length_app.
    assert (length (cloudStep chunkX chunkY seed assets [] 0) = 1%nat)
      as ->; [|lia].
    unfold cloudStep. cbn [placeCloud Z.to_nat Pos.to_nat Pos.iter_op Init.Nat.add].
    destruct (cloudDraw chunkX chunkY seed 0 0) as [[cx cy] r].
    cbn [checkOverlap existsb andb]. done.
  - destruct (cloudStep_fold_cases chunkX chunkY seed
                (Zrange 0 (cloudCount chunkX chunkY seed - 1)) [])
      as (pushed & -> & _ & Hall).
    cbn [app]. eapply List.Forall_impl; [|exact Hall].
    intros cloud (i & attempts & ->).
    cbn [buildCloudFormation cloud_centerX cloud_centerY cloud_radius].
    apply cloudDraw_range.
Qed.

Lemma cloudAspectRatio_range seed : 0.6 <= cloudAspectRatio seed < 1.6.
Proof.
  unfold cloudAspectRatio.
  pose proof (seededRandom_range 0 3 seed).
  pose proof (seededRandom_range 0 4 seed).
  pose proof (seededRandom_range 0 5 seed).
  destruct (Rltb _ 0.33); [lra|]. destruct (Rltb _ 0.66); lra.
Qed.

Lemma Math_round_near (v : R) : -0.5 <= IZR (Math_round v) - v <= 0.5.
Proof.
  unfold Math_round. pose proof (Zfloor_bound (v + 0.5)). lra.
Qed.

(** A point of an ellipse of half-axes at most [m], shrunk by a factor
    [d] and turned by any angle, stays within [d * m] on each axis. *)
Lemma rotated_extent (w h m d c s c' s' : R) :
  0 <= w <= m -> 0 <= h <= m -> 0 <= d ->
  c * c + s * s = 1 -> c' * c' + s' * s' = 1 ->
  - (d * m) <= c * w * d * c' - s * h * d * s' <= d * m /\
  - (d * m) <= c * w * d * s' + s * h * d * c' <= d * m.
Proof.
  intros Hw Hh Hd Hcs Hcs'.
  set (A := c * w * d). set (B := s * h * d).
  assert (Hm : 0 <= d * m) by nra.
  assert (HAB : A * A + B * B <= (d * m) * (d * m)).
  { unfold A, B.
    assert (c * c * (w * w) <= c * c * (m * m)) by
      (apply Rmult_le_compat_l; nra).
    assert (s * s * (h * h) <= s * s * (m * m)) by
      (apply Rmult_le_compat_l; nra).
    assert (0 <= d * d) by nra.
    replace (c * w * d * (c * w * d) + s * h * d * (s * h * d))
      with (d * d * (c * c * (w * w) + s * s * (h * h))) by ring.
    replace (d * m * (d * m)) with (d * d * ((c * c + s * s) * (m * m)))
      by (rewrite Hcs; ring).
    apply Rmult_le_compat_l; nra. }
  assert (Hrot : (A * c' - B * s') * (A * c' - B * s')
                 + (A * s' + B * c') * (A * s' + B * c') = A * A + B * B).
  { replace (A * A + B * B) with ((A * A + B * B) * (c' * c' + s' * s'))
      by (rewrite Hcs'; ring).
    ring. }
  assert (Hsq : forall v, v * v <= d * m * (d * m) -> - (d * m) <= v <= d * m).
  { intros v Hv. split.
    - destruct (Rle_lt_dec (- (d * m)) v) as [|Hlt]; [done|]. nra.
    - destruct (Rle_lt_dec v (d * m)) as [|Hlt]; [done|]. nra. }
  fold A B. split; apply Hsq.
  - pose proof (Rle_0_sqr (A * s' + B * c')) as Hpos. unfold Rsqr in Hpos. lra.
  - pose proof (Rle_0_sqr (A * c' - B * s')) as Hpos. unfold Rsqr in Hpos. lra.
Qed.

Lemma trig_one (a : R) : cos a * cos a + sin a * sin a = 1.
Proof. pose proof (sin2_cos2 a) as H. unfold Rsqr in H. lra. Qed.

Lemma cloudTileAt_extent seed radius rotation i :
  0 <= radius ->
  let t := cloudTileAt assets seed
             (radius * cloudAspectRatio seed * CLOUD_SIZE)
             (radius / cloudAspectRatio seed * 0.8 * CLOUD_SIZE) rotation i in
  -(1.52 * radius + 5) <= offsetX t <= 1.52 * radius + 5 /\
  -(1.52 * radius + 5) <= offsetY t <= 1.52 * radius + 5.
Proof.
  intros Hr. cbv zeta. unfold cloudTileAt. cbn [offsetX offsetY].
  pose proof (cloudAspectRatio_range seed) as Ha.
  set (a := cloudAspectRatio seed) in *.
  pose proof (seededRandom_range (IZR i) 1 seed) as H1.
  pose proof (seededRandom_range (IZR i) 2 seed) as H2.
  set (d := (seededRandom (IZR i) 1 seed + seededRandom (IZR i) 2 seed)
            / 2 * 0.95).
  assert (Hd : 0 <= d <= 0.95) by (unfold d; lra).
  set (angle := seededRandom (IZR i) 0 seed * PI * 2).
  assert (Hw : 0 <= radius * a * CLOUD_SIZE <= 1.6 * radius)
    by (unfold CLOUD_SIZE; nra).
  assert (Hh : 0 <= radius / a * 0.8 * CLOUD_SIZE <= 1.6 * radius).
  { unfold CLOUD_SIZE, Rdiv.
    assert (0 < / a) by (apply Rinv_0_lt_compat; lra).
    assert (/ a <= / 0.6) by (apply Rinv_le_contravar; lra).
    assert (/ 0.6 <= 1.7) by lra.
    nra. }
  destruct (rotated_extent _ _ (1.6 * radius) d (cos angle) (sin angle)
              (cos rotation) (sin rotation) Hw Hh (proj1 Hd)
              (trig_one angle) (trig_one rotation)) as [HX HY].
  set (X := cos angle * (radius * a * CLOUD_SIZE) * d * cos rotation
            - sin angle * (radius / a * 0.8 * CLOUD_SIZE) * d * sin rotation)
    in *.
  set (Y := cos angle * (radius * a * CLOUD_SIZE) * d * sin rotation
            + sin angle * (radius / a * 0.8 * CLOUD_SIZE) * d * cos rotation)
    in *.
  pose proof (Math_round_near (X / TILE_SIZE)) as HrX.
  pose proof (Math_round_near (Y / TILE_SIZE)) as HrY.
  unfold TILE_SIZE, SPRITE_TILE_SIZE, GAME_SCALE in *.
  assert (d * (1.6 * radius) <= 1.52 * radius) by nra.
  split; lra.
Qed.

(** X9. Every tile of every cloud formation of a generated chunk sits on
    the tile grid, carries the solid or the halftone cloud texture, and
    lies within [1.52 * radius + 5] px of the cloud's center on each
    axis. *)
Theorem chunk_cloud_tiles (chunkX chunkY : Z) (seed : R) :
  List.Forall (fun cloud : @CloudFormation Texture =>
    List.Forall (fun t : @IslandTile Texture =>
      (exists m n : Z,
         offsetX t = IZR m * TILE_SIZE /\ offsetY t = IZR n * TILE_SIZE) /\
      (texture t = cloudCovered assets \/
       texture t = cloudLessCoverOcean assets) /\
      Rabs (offsetX t) <= 1.52 * cloud_radius cloud + 5 /\
      Rabs (offsetY t) <= 1.52 * cloud_radius cloud + 5)
      (cloud_tiles cloud))
    (chunk_clouds (generateChunk chunkX chunkY seed assets)).
Proof.
  cbn [generateChunk chunk_clouds]. unfold generateCloudsForChunk.
  destruct (cloudStep_fold_cases chunkX chunkY seed
              (Zrange 0 (cloudCount chunkX chunkY seed - 1)) [])
    as (pushed & -> & _ & Hall).
  cbn [app]. eapply List.Forall_impl; [|exact Hall].
  intros cloud (i & attempts & ->).
  destruct (cloudDraw_range chunkX chunkY seed i attempts)
    as (_ & _ & r & Hr & Hrad).
  cbn [buildCloudFormation cloud_tiles cloud_radius]. rewrite Hrad.
  assert (Hr0 : 0 <= IZR r) by (apply IZR_le; lia).
  apply List.Forall_forall. intros t Hin.
  apply in_map_iff in Hin as (k & <- & _).
  pose proof (cloudTileAt_extent (seed + IZR i * 50) (IZR r)
                (seededRandom 0 6 (seed + IZR i * 50) * PI) k Hr0) as Hext.
  cbv zeta in Hext. destruct Hext as [HX HY].
  split; [|split; [|split]].
  - unfold cloudTileAt. cbn [offsetX offsetY]. eauto.
  - unfold cloudTileAt. cbn [texture]. destruct (Rltb _ 0.7); auto.
  - by apply Rabs_le.
  - by apply Rabs_le.
Qed.

End Clouds.

(** * Further properties of the chunk cache *)

Lemma Forall2_impl_In {A B : Type} (P Q : A -> B -> Prop) l1 l2 :
  Forall2 P l1 l2 ->
  (forall a b, In a l1 -> P a b -> Q a b) ->
  Forall2 Q l1 l2.
Proof.
  induction 1 as [|a b l1 l2 Hab _ IH]; intros Himp; constructor.
  - apply Himp; [by left|done].
  - apply IH. intros a' b' Hin. apply Himp. by right.
Qed.

Section Cache.

Context {Texture : Type}.

(** When every coordinate asked for is resident, [getChunks] is a series
    of hits: the cache stays as it is. *)
Lemma getChunks_hits coords (this : @ChunkCache Texture) chunks found :
  Forall2 (fun (xy : Z * Z) (chunk : @ChunkRef Texture) =>
             this_cache this !! getKey xy.1 xy.2 = Some chunk) coords found ->
  getChunks coords (this, chunks) = (this, chunks ++ found).
Proof.
  intros Hall. revert chunks.
  induction Hall as [|xy chunk coords found Hk _ IH]; intros chunks.
  - by rewrite app_nil_r.
  - rewrite getChunks_cons. cbn [fst snd].
    rewrite (getChunk_hit _ _ _ _ Hk). cbn [fst snd].
    rewrite IH. by rewrite <- app_assoc.
Qed.

(** X10. Asking again for the chunks of a square that has just been
    loaded returns the very same objects, in the same order, and changes
    neither the table nor the heap: the region is served from the cache. *)
Theorem getChunksInRadius_again (this : @ChunkCache Texture) (cx cy r : Z) :
  let '(this1, chunks) := getChunksInRadius this cx cy r in
  getChunksInRadius this1 cx cy r = (this1, chunks).
Proof.
  rewrite getChunksInRadius_getChunks.
  destruct (getChunks_spec (square cx cy r) (this, [])) as (found & Hl & Hall).
  destruct (getChunks (square cx cy r) (this, [])) as [this1 chunks].
  cbn [fst snd app] in *. subst found.
  rewrite getChunksInRadius_getChunks. by apply (getChunks_hits _ _ []).
Qed.

(** X11. [cleanup] twice with the same window is [cleanup] once. *)
Theorem cleanup_idempotent (this : @ChunkCache Texture) (cx cy keep : Z) :
  cleanup (cleanup this cx cy keep) cx cy keep = cleanup this cx cy keep.
Proof.
  assert (Hmap : this_cache (cleanup (cleanup this cx cy keep) cx cy keep)
                 = this_cache (cleanup this cx cy keep)).
  { apply map_eq. intros key. rewrite (cleanup_lookup (cleanup _ _ _ _)).
    rewrite cleanup_lookup.
    destruct (this_cache this !! key) as [ref|]; [|done].
    destruct (decide (outsideWindow cx cy keep ref)) as [Hout|Hin]; [done|].
    by rewrite decide_False. }
  transitivity
    {| this_cache := this_cache (cleanup (cleanup this cx cy keep) cx cy keep);
       this_seed := this_seed this;
       this_assets := this_assets this;
       heap_next := heap_next this |}; [reflexivity|].
  rewrite Hmap. reflexivity.
Qed.

(** X12. The degenerate windows: a negative radius asks for no chunk and
    leaves the cache alone; a negative keep-radius evicts every chunk. *)
Theorem negative_radius (this : @ChunkCache Texture) (cx cy r : Z) :
  (r < 0)%Z ->
  getChunksInRadius this cx cy r = (this, []) /\
  this_cache (cleanup this cx cy r) = ∅.
Proof.
  intros Hr. split.
  - unfold getChunksInRadius.
    assert (Zrange (- r) r = []) as ->; [|done].
    unfold Zrange. by replace (Z.to_nat (r - - r + 1)) with 0%nat by lia.
  - apply map_empty. intros key. rewrite cleanup_lookup.
    destruct (this_cache this !! key) as [ref|]; [|done].
    rewrite decide_True; [done|]. unfold outsideWindow. lia.
Qed.

Context (seed : R) (assets : @AssetDictionary Texture).

Lemma addresses_distinct_getChunk this x y :
  cache_inv seed assets this -> addresses_distinct this ->
  addresses_distinct (getChunk this x y).1.
Proof.
  intros (_ & _ & Hentries) Hdist. unfold getChunk.
  destruct (this_cache this !! getKey x y) eqn:Hk; [done|].
  cbn [fst]. intros key1 key2 ref1 ref2. cbn [this_cache].
  destruct (decide (getKey x y = key1)) as [<-|Hne1];
    destruct (decide (getKey x y = key2)) as [<-|Hne2];
    rewrite ?lookup_insert_eq, ?lookup_insert_ne by done; try done.
  - intros [= <-] H2 Haddr. cbn [ref_addr] in Haddr.
    destruct (Hentries _ _ H2) as (_ & _ & Hlt). lia.
  - intros H1 [= <-] Haddr. cbn [ref_addr] in Haddr.
    destruct (Hentries _ _ H1) as (_ & _ & Hlt). lia.
  - apply Hdist.
Qed.

Lemma addresses_distinct_getChunks coords
    (st : @ChunkCache Texture * list (@ChunkRef Texture)) :
  cache_inv seed assets st.1 -> addresses_distinct st.1 ->
  addresses_distinct (getChunks coords st).1.
Proof.
  revert st. induction coords as [|xy coords IH]; intros st Hinv Hdist;
    [done|].
  rewrite getChunks_cons. apply IH; cbn [fst].
  - by apply cache_inv_getChunk.
  - by apply addresses_distinct_getChunk.
Qed.

Lemma reachable_addresses_distinct this :
  reachable seed assets this -> addresses_distinct this.
Proof.
  induction 1 as [|this x y Hr IH|this cx cy r Hr IH|this cx cy keep Hr IH].
  - intros key1 key2 ref1 ref2 H1. done.
  - apply addresses_distinct_getChunk; [by apply reachable_inv|done].
  - rewrite getChunksInRadius_getChunks.
    apply (addresses_distinct_getChunks _ (this, []));
      [by apply reachable_inv|done].
  - intros key1 key2 ref1 ref2.
    rewrite !cleanup_lookup.
    destruct (this_cache this !! key1) as [r1|] eqn:H1; [|done].
    destruct (this_cache this !! key2) as [r2|] eqn:H2; [|done].
    repeat case_decide; try done. intros [= <-] [= <-]. by apply IH.
Qed.

(** X13. A reachable cache never hands out one object for two
    coordinates: the chunks it returns for different coordinates live at
    different addresses. *)
Theorem getChunk_objects_distinct (this : @ChunkCache Texture)
    (x y x' y' : Z) :
  reachable seed assets this -> (x, y) <> (x', y') ->
  ref_addr (getChunk this x y).2
  <> ref_addr (getChunk (getChunk this x y).1 x' y').2.
Proof.
  intros Hreach Hne Haddr.
  assert (Hreach1 : reachable seed assets (getChunk this x y).1)
    by (by constructor).
  assert (Hreach2 : reachable seed assets
                      (getChunk (getChunk this x y).1 x' y').1)
    by (by constructor).
  pose proof (getChunk_lookup (getChunk this x y).1 x' y') as H2.
  pose proof (getChunk_preserve (getChunk this x y).1 x' y' _ _
                (getChunk_lookup this x y)) as H1.
  pose proof (reachable_addresses_distinct _ Hreach2 _ _ _ _ H1 H2 Haddr)
    as Hkey.
  apply getKey_inj in Hkey as [-> ->]. done.
Qed.

(** The entries [cleanup] leaves are entries of coordinates inside the
    window. *)
Lemma cleanup_dom this (cx cy keep : Z) key :
  cache_inv seed assets this ->
  is_Some (this_cache (cleanup this cx cy keep) !! key) ->
  key ∈ map (fun xy : Z * Z => getKey xy.1 xy.2) (square cx cy keep).
Proof.
  intros (_ & _ & Hentries) [ref Hk]. rewrite cleanup_lookup in Hk.
  destruct (this_cache this !! key) as [ref'|] eqn:Hk'; [|done].
  case_decide as Hout; [done|]. injection Hk as <-.
  destruct (Hentries _ _ Hk') as (-> & _ & _).
  apply list_elem_of_In, in_map_iff.
  exists (chunk_chunkX (ref_chunk ref'), chunk_chunkY (ref_chunk ref')).
  split; [done|]. apply square_In. unfold outsideWindow in Hout. lia.
Qed.

(** X14. Eviction bounds the cache: after [cleanup] with a keep-radius
    [k >= 0], a reachable cache holds at most [(2k+1)^2] chunks. *)
Theorem cleanup_bounds_size (this : @ChunkCache Texture) (cx cy keep : Z) :
  reachable seed assets this -> (0 <= keep)%Z ->
  (size (this_cache (cleanup this cx cy keep))
     <= Z.to_nat ((2 * keep + 1) * (2 * keep + 1)))%nat.
Proof.
  intros Hreach Hkeep. apply reachable_inv in Hreach.
  rewrite <- (square_length cx cy keep Hkeep).
  rewrite <- (length_map (fun xy : Z * Z => getKey xy.1 xy.2)).
  rewrite <- size_dom.
  etrans; [apply (subseteq_size _
    (list_to_set (map (fun xy : Z * Z => getKey xy.1 xy.2)
                      (square cx cy keep))))|].
  - intros key Hkey. apply elem_of_dom in Hkey.
    apply elem_of_list_to_set. by eapply cleanup_dom.
  - rewrite size_list_to_set; [done|].
    apply NoDup_ListNoDup, Stdlib.Lists.Finite.Injective_map_NoDup;
      [|apply square_NoDup].
    intros [x y] [x' y'] Heq. cbn [fst snd] in Heq.
    apply getKey_inj in Heq as [-> ->]. done.
Qed.

(** X15. What [TerrainLayer] relies on: the five-second [cleanup] around
    the player (keep-radius 4) never evicts a chunk of the visible square
    (radius 2).  After loading the visible chunks and cleaning up at the
    same player position, the next load returns the same objects and
    generates nothing. *)
Theorem cleanup_keeps_visible (chunkCache : @ChunkCache Texture)
    (playerX playerY : R) :
  reachable seed assets chunkCache ->
  let '(loaded, visible) := visibleChunks chunkCache playerX playerY in
  visibleChunks (cleanupOldChunks loaded playerX playerY) playerX playerY
  = (cleanupOldChunks loaded playerX playerY, visible).
Proof.
  intros Hreach. unfold visibleChunks, cleanupOldChunks.
  set (cx := currentChunk (parallax playerX)).
  set (cy := currentChunk (parallax playerY)).
  assert (Hinv : cache_inv seed assets (getChunksInRadius chunkCache cx cy 2).1)
    by (apply reachable_inv; by constructor).
  rewrite getChunksInRadius_getChunks in *.
  destruct (getChunks_spec (square cx cy 2) (chunkCache, []))
    as (found & Hl & Hall).
  destruct (getChunks (square cx cy 2) (chunkCache, [])) as [loaded visible].
  cbn [fst snd app] in *. subst found.
  rewrite getChunksInRadius_getChunks.
  apply (getChunks_hits _ _ []).
  eapply Forall2_impl_In; [exact Hall|].
  intros [x y] chunk Hin Hk. cbn [fst snd] in *.
  rewrite cleanup_lookup, Hk. rewrite decide_False; [done|].
  destruct Hinv as (_ & _ & Hentries).
  destruct (Hentries _ _ Hk) as (Hkey & _ & _).
  apply getKey_inj in Hkey as [Hx Hy].
  apply square_In in Hin. unfold outsideWindow. lia.
Qed.

End Cache.

(** * Instances of the cache properties *)

(** The rendered islands around the origin, on a new cache. *)
Lemma allIslands_ids_unique_witness :
  reachable 338 assetNames (ChunkCache_new 338 assetNames) /\
  List.NoDup
    (map island_id
       (allIslands (visibleChunks (ChunkCache_new 338 assetNames) 0 0).2)).
Proof.
  split.
  - apply reachable_new.
  - apply (allIslands_ids_unique 338 assetNames). apply reachable_new.
Defined.

(** Radius -1 on a new cache. *)
Lemma negative_radius_witness :
  (-1 < 0)%Z /\
  getChunksInRadius (ChunkCache_new 338 assetNames) 0 0 (-1)
  = (ChunkCache_new 338 assetNames, []) /\
  this_cache (cleanup (ChunkCache_new 338 assetNames) 0 0 (-1)) = ∅.
Proof.
  split; [lia|].
  exact (negative_radius (ChunkCache_new 338 assetNames) 0 0 (-1)
           ltac:(lia)).
Defined.

(** The chunks (0, 0) and (1, 0), asked from a new cache. *)
Lemma getChunk_objects_distinct_witness :
  reachable 338 assetNames (ChunkCache_new 338 assetNames) /\
  (0%Z, 0%Z) <> (1%Z, 0%Z) /\
  ref_addr (getChunk (ChunkCache_new 338 assetNames) 0 0).2
  <> ref_addr
       (getChunk (getChunk (ChunkCache_new 338 assetNames) 0 0).1 1 0).2.
Proof.
  split; [apply reachable_new|].
  split; [intros [=]|].
  apply (getChunk_objects_distinct 338 assetNames);
    [apply reachable_new | intros [=]].
Defined.

(** The keep-radius 4 of [TerrainLayer], after loading around (7, 7). *)
Lemma cleanup_bounds_size_witness :
  reachable 338 assetNames
    (getChunksInRadius (ChunkCache_new 338 assetNames) 7 7 2).1 /\
  (0 <= 4)%Z /\
  (size (this_cache
           (cleanup (getChunksInRadius (ChunkCache_new 338 assetNames) 7 7 2).1
              0 0 4))
     <= Z.to_nat ((2 * 4 + 1) * (2 * 4 + 1)))%nat.
Proof.
  split; [apply reachable_getChunksInRadius, reachable_new|].
  split; [lia|].
  apply (cleanup_bounds_size 338 assetNames);
    [apply reachable_getChunksInRadius, reachable_new | lia].
Defined.

(** The player at the origin, on a new cache. *)
Lemma cleanup_keeps_visible_witness :
  reachable 338 assetNames (ChunkCache_new 338 assetNames) /\
  let '(loaded, visible) :=
    visibleChunks (ChunkCache_new 338 assetNames) 0 0 in
  visibleChunks (cleanupOldChunks loaded 0 0) 0 0
  = (cleanupOldChunks loaded 0 0, visible).
Proof.
  split; [apply reachable_new|].
  apply (cleanup_keeps_visible 338 assetNames). apply reachable_new.
Defined.

(** * The game loop *)

(** ** The remainder operator *)

Lemma Ztrunc_nonneg (q : R) :
  0 <= q -> IZR (Ztrunc q) <= q < IZR (Ztrunc q) + 1.
Proof.
  intros Hq. unfold Ztrunc, Rltb.
  destruct (Rlt_dec q 0); [lra|]. apply Zfloor_bound.
Qed.

Lemma Ztrunc_neg (q : R) :
  q < 0 -> IZR (Ztrunc q) - 1 < q <= IZR (Ztrunc q).
Proof.
  intros Hq. unfold Ztrunc, Rltb.
  destruct (Rlt_dec q 0); [|lra]. apply Zceil_bound.
Qed.

(** The remainder differs from the dividend by a multiple of the divisor
    and has the sign of the dividend. *)
Lemma js_mod_spec (a b : R) :
  0 < b ->
  (exists k : Z, js_mod a b = a - b * IZR k) /\
  (0 <= a -> 0 <= js_mod a b < b) /\
  (a < 0 -> - b < js_mod a b <= 0).
Proof.
  intros Hb. split; [by eexists|].
  assert (Hq : a = b * (a / b)) by (field; lra).
  unfold js_mod. split; intros Ha.
  - assert (0 <= a / b) by (apply Rmult_le_pos;
      [lra | left; by apply Rinv_0_lt_compat]).
    pose proof (Ztrunc_nonneg (a / b) ltac:(done)). nra.
  - assert (a / b < 0).
    { apply (Rmult_lt_reg_l b); [done|]. lra. }
    pose proof (Ztrunc_neg (a / b) ltac:(done)). nra.
Qed.






Section Loop.

Context {Texture : Type}.
#[local] Abbreviation GameState := (@GameState Texture).


End Loop.



(** * Directions *)









(** * The input controller *)

Lemma clamp_range (v : R) : MIN_ZOOM <= Rmax MIN_ZOOM (Rmin MAX_ZOOM v) <= MAX_ZOOM.
Proof.
  unfold MIN_ZOOM, MAX_ZOOM, Rmax, Rmin.
  repeat destruct (Rle_dec _ _); lra.
Qed.

Section Input.

Context {Texture : Type}.
#[local] Abbreviation GameState := (@GameState Texture).

(** Which fields each callback can touch. *)
Lemma updateVelocityFromKeys_zoom (seen : GameState) refs prev :
  zoom (updateVelocityFromKeys seen refs prev) = zoom prev.
Proof.
  unfold updateVelocityFromKeys.
  destruct (isResetting seen); [done|].
  destruct (keyVelocity refs) as [vx vy]. by destruct (_ || _).
Qed.

Lemma updateMouseDirection_zoom innerWidth innerHeight clientX clientY refs
    (prev : GameState) :
  zoom (updateMouseDirection innerWidth innerHeight clientX clientY refs prev)
  = zoom prev.
Proof.
  unfold updateMouseDirection. cbv zeta.
  destruct (Rgtb _ 0); [|done]. by destruct (spacebarHeld refs).
Qed.

Lemma updateTouchDirection_zoom innerWidth innerHeight touch
    (prev : GameState) :
  zoom (updateTouchDirection innerWidth innerHeight touch prev) = zoom prev.
Proof.
  unfold updateTouchDirection. cbv zeta. by destruct (Rgtb _ 20).
Qed.

Lemma tick_zoom (seen : GameState) deltaMS prev :
  zoom (tick seen deltaMS prev) = zoom prev.
Proof.
  unfold tick. destruct (isReady seen); [|done].
  destruct (mapBounds seen); [|done]. cbv zeta. by destruct (_ || _).
Qed.

(** X19. Whatever the player does, the zoom stays within
    [MIN_ZOOM, MAX_ZOOM]. *)
Theorem zoom_in_limits (st : InputRefs * GameState) :
  playing st -> MIN_ZOOM <= zoom st.2 <= MAX_ZOOM.
Proof.
  induction 1 as [seedDraw | seen innerWidth innerHeight event [refs prev] _ IH
                  | seen [refs prev] _ IH | seen deltaMS [refs prev] _ IH
                  | action [refs prev] _ IH]; cbn [fst snd] in *.
  - cbn. unfold MIN_ZOOM, MAX_ZOOM. lra.
  - destruct event as [key|key|x y|x y| |deltaY|touches|touches|touches];
      cbn [dispatch].
    + unfold handleKeyDown. destruct (String.eqb key " "); cbn [snd];
        by rewrite updateVelocityFromKeys_zoom.
    + unfold handleKeyUp. destruct (String.eqb key " "); cbn [snd];
        by rewrite updateVelocityFromKeys_zoom.
    + unfold handleMouseDown. destruct (_ || _); cbn [snd]; [done|].
      by rewrite updateMouseDirection_zoom.
    + unfold handleMouseMove. destruct (_ && _); cbn [snd]; [|done].
      by rewrite updateMouseDirection_zoom.
    + unfold handleMouseUp. cbv zeta. by destruct (noKeys _).
    + unfold handleWheel. cbv zeta. cbn [snd setZoom zoom].
      apply clamp_range.
    + unfold handleTouchStart.
      destruct touches as [|touch0 [|touch1 [|touch2 touches]]];
        cbn [snd]; [done| |done|done].
      by rewrite updateTouchDirection_zoom.
    + unfold handleTouchMove.
      destruct touches as [|touch0 [|touch1 [|touch2 touches]]];
        cbn [snd]; [done| | |done].
      * destruct (touchStartPos refs); cbn [snd]; [|done].
        by rewrite updateTouchDirection_zoom.
      * cbv zeta. cbn [snd]. destruct (Rgtb _ 0); [|done].
        cbn [setZoom zoom]. apply clamp_range.
    + unfold handleTouchEnd.
      destruct touches as [|touch0 [|touch1 touches]]; cbn [snd];
        [|by rewrite updateTouchDirection_zoom|done].
      by destruct (noKeys refs).
  - unfold mouseEffect. by destruct (isResetting seen).
  - by rewrite tick_zoom.
  - destruct action; cbn [perform]; try done.
    cbn. unfold MIN_ZOOM, MAX_ZOOM. lra.
Qed.

(** ** The velocity and the heading *)


Lemma velocity_inv_ext (state state' : GameState) :
  playerVelocity state = playerVelocity state' ->
  targetRotation state = targetRotation state' ->
  velocity_inv state' -> velocity_inv state.
Proof. unfold velocity_inv. by intros -> ->. Qed.









End Input.

(** * The content items *)

(** ** generateContentPositions *)

Section Positions.

Variable measureText : TextStyle -> string -> R * R.
Variable random : nat -> R.

#[local] Abbreviation sizeOf := (calculateContentSize measureText).

Lemma along_positionOf type offset current :
  along type (positionOf type offset current) = alongCurrent type current.
Proof. by destruct type. Qed.

Lemma across_positionOf type offset current :
  across type (positionOf type offset current) = offset.
Proof. by destruct type. Qed.

Lemma alongCurrent_advance type current step :
  alongCurrent type (advance type current step)
  = alongCurrent type current + step.
Proof. destruct type; cbn; lra. Qed.

(** One run of the placing loop, item by item. *)
Lemma placeItems_cons type data size rest current id n :
  placeItems random type ((data, size) :: rest) current id n
  = let item :=
      {| item_id := idPrefix type +:+ pretty (Z.of_nat id);
         item_type := type;
         item_position :=
           positionOf type (-150 + random n * (150 - -150)) current;
         item_data := data |} in
    match rest with
    | [] => ([item], S id, S n)
    | (_, nextSize) :: _ =>
        let step := extent type size / 2 + minSpacing
                    + (0 + random (S n) * (minSpacing - 0))
                    + extent type nextSize / 2 in
        let '(items, id', n') :=
          placeItems random type rest (advance type current step) (S id)
            (S (S n)) in
        (item :: items, id', n')
    end.
Proof.
  destruct rest as [|[data' size'] rest]; [done|].
  cbn [placeItems randomOffset]. cbv zeta. done.
Qed.

(** What the loop pushes: one item per entry, of the category, with the
    ids counted up from [id]. *)
Lemma placeItems_items type withSizes current id n :
  let '(items, id', _) := placeItems random type withSizes current id n in
  map item_data items = map fst withSizes /\
  Forall (fun item => item_type item = type) items /\
  map item_id items
  = map (fun k => idPrefix type +:+ pretty (Z.of_nat k))
        (seq id (length withSizes)) /\
  id' = (id + length withSizes)%nat.
Proof.
  induction withSizes as [|[data size] rest IH] in current, id, n |- *.
  { cbn. repeat split; [constructor | lia]. }
  rewrite placeItems_cons. cbv zeta.
  destruct rest as [|[data' size'] rest].
  { cbn. repeat split; [by repeat constructor | lia]. }
  set (step := _ + _ + _ + _).
  specialize (IH (advance type current step) (S id) (S (S n))).
  destruct (placeItems random type ((data', size') :: rest) _ _ _)
    as [[items id'] n'].
  destruct IH as (Hdata & Htype & Hids & Hid).
  cbn [map length seq fst item_data item_id]. rewrite Hdata, Hids.
  repeat split; [by constructor | cbn [length] in Hid; lia].
Qed.

(** The first item sits where the loop variable starts. *)
Lemma placeItems_head type data size rest current id n :
  exists item items,
    (placeItems random type ((data, size) :: rest) current id n).1.1
    = item :: items /\
    item_type item = type /\ item_data item = data /\
    along type (item_position item) = alongCurrent type current.
Proof.
  rewrite placeItems_cons. cbv zeta.
  destruct rest as [|[data' size'] rest].
  - eexists _, _. split; [done|]. cbn [item_type item_data item_position].
    by rewrite along_positionOf.
  - destruct (placeItems random type _ _ _ _) as [[items id'] n'].
    eexists _, _. split; [done|]. cbn [item_type item_data item_position].
    by rewrite along_positionOf.
Qed.

Lemma placeItems_ids type withSizes current id n :
  map item_id (placeItems random type withSizes current id n).1.1
  = map (fun k => idPrefix type +:+ pretty (Z.of_nat k))
        (seq id (length withSizes)) /\
  map item_data (placeItems random type withSizes current id n).1.1
  = map fst withSizes.
Proof.
  pose proof (placeItems_items type withSizes current id n) as H.
  destruct (placeItems random type withSizes current id n) as [[items id'] n'].
  by destruct H as (? & _ & ? & _).
Qed.

Lemma ids_NoDup type (id len : nat) :
  List.NoDup (map (fun k => idPrefix type +:+ pretty (Z.of_nat k))
                  (seq id len)).
Proof.
  apply Stdlib.Lists.Finite.Injective_map_NoDup; [|apply List.seq_NoDup].
  intros k k' Heq. apply Nat2Z.inj, (inj pretty).
  by destruct type; cbn in Heq; simplify_eq.
Qed.

Lemma ids_disjoint type type' (id len id' len' : nat) (key : string) :
  type <> type' ->
  In key (map (fun k => idPrefix type +:+ pretty (Z.of_nat k)) (seq id len)) ->
  In key (map (fun k => idPrefix type' +:+ pretty (Z.of_nat k))
              (seq id' len')) ->
  False.
Proof.
  intros Hne (k & <- & _)%in_map_iff (k' & Heq & _)%in_map_iff.
  destruct type, type'; cbv [idPrefix String.append] in Heq; congruence.
Qed.

Hypothesis random_range : forall k, 0 <= random k < 1.

(** The free space between a box and the next one of its category is
    [minSpacing] plus a random extra below [minSpacing]. *)
Lemma placeItems_gaps type withSizes current id n :
  Forall (fun entry => entry.2 = sizeOf entry.1) withSizes ->
  Forall (fun gap => minSpacing <= gap < minSpacing * 2)
    (gaps measureText (placeItems random type withSizes current id n).1.1).
Proof.
  induction withSizes as [|[data size] rest IH] in current, id, n |- *;
    intros Hsizes.
  { constructor. }
  rewrite placeItems_cons. cbv zeta.
  destruct rest as [|[data' size'] rest].
  { constructor. }
  set (step := _ + _ + _ + _).
  apply Forall_cons in Hsizes as [Hsize Hsizes]. cbn [fst snd] in Hsize.
  specialize (IH (advance type current step) (S id) (S (S n)) Hsizes).
  destruct (placeItems_head type data' size' rest
              (advance type current step) (S id) (S (S n)))
    as (next & items' & Hitems & Htype & Hdata & Halong).
  destruct (placeItems random type ((data', size') :: rest) _ _ _)
    as [[items id'] n'].
  cbn [fst] in *. subst items. cbn [gaps]. constructor; [|done].
  unfold nearEdge, farEdge, boxExtent. rewrite Htype, Hdata, Halong.
  cbn [item_type item_data item_position].
  rewrite along_positionOf, alongCurrent_advance.
  apply Forall_cons in Hsizes as [Hsize' _]. cbn [fst snd] in Hsize'.
  rewrite <- Hsize, <- Hsize'. unfold step, minSpacing.
  pose proof (random_range (S n)). lra.
Qed.

(** The items stay within 150 pixels of the line of their category. *)
Lemma placeItems_across type withSizes current id n :
  Forall (fun item => -150 <= across type (item_position item) < 150)
    (placeItems random type withSizes current id n).1.1.
Proof.
  induction withSizes as [|[data size] rest IH] in current, id, n |- *.
  { constructor. }
  rewrite placeItems_cons. cbv zeta.
  assert (Hoffset : -150 <= -150 + random n * (150 - -150) < 150)
    by (pose proof (random_range n); lra).
  destruct rest as [|[data' size'] rest].
  { cbn [fst]. constructor; [|constructor].
    cbn [item_position]. rewrite across_positionOf. lra. }
  set (step := _ + _ + _ + _).
  specialize (IH (advance type current step) (S id) (S (S n))).
  destruct (placeItems random type ((data', size') :: rest) _ _ _)
    as [[items id'] n'].
  constructor; [|done]. cbn [item_position]. rewrite across_positionOf. lra.
Qed.

(** No box reaches nearer to the origin than the first one. *)
Lemma placeItems_nearEdge type withSizes current id n :
  Forall (fun entry => entry.2 = sizeOf entry.1 /\ 0 <= extent type entry.2)
    withSizes ->
  Forall (fun item =>
            alongCurrent type current
            - match withSizes with
              | [] => 0
              | (_, size) :: _ => extent type size / 2
              end <= nearEdge measureText item)
    (placeItems random type withSizes current id n).1.1.
Proof.
  induction withSizes as [|[data size] rest IH] in current, id, n |- *;
    intros Hsizes.
  { constructor. }
  rewrite placeItems_cons. cbv zeta.
  apply Forall_cons in Hsizes as [[Hsize Hpos] Hsizes]. cbn [fst snd] in *.
  assert (Hfirst : forall offset id,
    alongCurrent type current - extent type size / 2
    <= nearEdge measureText
         {| item_id := id; item_type := type;
            item_position := positionOf type offset current;
            item_data := data |}).
  { intros offset id0. unfold nearEdge, boxExtent.
    cbn [item_type item_data item_position].
    rewrite along_positionOf, <- Hsize. lra. }
  destruct rest as [|[data' size'] rest].
  { cbn [fst]. constructor; [apply Hfirst|constructor]. }
  set (step := _ + _ + _ + _).
  specialize (IH (advance type current step) (S id) (S (S n)) Hsizes).
  destruct (placeItems random type ((data', size') :: rest) _ _ _)
    as [[items id'] n'].
  constructor; [apply Hfirst|].
  cbn [fst] in *. eapply Forall_impl; [exact IH|].
  intros item Hitem. cbn beta in Hitem.
  rewrite alongCurrent_advance in Hitem.
  apply Forall_cons in Hsizes as [[_ Hpos'] _]. cbn [snd] in Hpos'.
  unfold step, minSpacing in Hitem.
  pose proof (random_range (S n)). lra.
Qed.

(** ** The three loops together *)

Lemma ofType_same type items :
  Forall (fun item => item_type item = type) items ->
  ofType type items = items.
Proof.
  induction 1 as [|item items Htype _ IH]; [done|].
  unfold ofType in *. cbn [List.filter]. rewrite Htype, IH.
  by destruct type.
Qed.

Lemma ofType_other type type' items :
  type <> type' ->
  Forall (fun item => item_type item = type') items ->
  ofType type items = [].
Proof.
  intros Hne. induction 1 as [|item items Htype _ IH]; [done|].
  unfold ofType in *. cbn [List.filter]. rewrite Htype, IH.
  by destruct type, type'.
Qed.

Lemma ofType_app type items items' :
  ofType type (items ++ items') = ofType type items ++ ofType type items'.
Proof. apply List.filter_app. Qed.

Lemma firstHalf_extent type (datas : list ContentData) :
  firstHalf type (map (fun data => (data, sizeOf data)) datas)
  = match map (fun data => (data, sizeOf data)) datas with
    | [] => 0
    | (_, size) :: _ => extent type size / 2
    end.
Proof.
  destruct datas as [|data datas]; [done|]. cbn [map firstHalf].
  unfold orZero, Rneb. by destruct (Req_dec_T _ 0) as [->|].
Qed.

(** The result of [generateContentPositions] as three runs of the
    placing loop, each started half the first box beyond the viewport
    and its buffer. *)
Lemma generateContentPositions_loops whoisData worksData socialNetwork
    viewportWidth viewportHeight :
  exists currentY currentX currentNegX id1 id2 n1 n2 n3,
    (generateContentPositions measureText random whoisData worksData
       socialNetwork viewportWidth viewportHeight).1
    = (placeItems random whois (map (fun data => (data, sizeOf data)) whoisData)
         currentY 0 n1).1.1
      ++ (placeItems random works
            (map (fun data => (data, sizeOf data)) worksData)
            currentX id1 n2).1.1
      ++ (placeItems random social_network
            (map (fun data => (data, sizeOf data)) socialNetwork)
            currentNegX id2 n3).1.1 /\
    id1 = length whoisData /\
    id2 = (length whoisData + length worksData)%nat /\
    alongCurrent whois currentY
    = default 1080 viewportHeight / 2 + viewportBuffer
      + firstHalf whois (map (fun data => (data, sizeOf data)) whoisData) /\
    alongCurrent works currentX
    = default 1920 viewportWidth / 2 + viewportBuffer
      + firstHalf works (map (fun data => (data, sizeOf data)) worksData) /\
    alongCurrent social_network currentNegX
    = default 1920 viewportWidth / 2 + viewportBuffer
      + firstHalf social_network
          (map (fun data => (data, sizeOf data)) socialNetwork).
Proof.
  unfold generateContentPositions. cbv zeta.
  destruct (totalSize random _ _ 0) as [totalWhoisHeight n1].
  destruct (totalSize random _ _ n1) as [totalWorksWidth n2].
  destruct (totalSize random _ _ n2) as [totalSocialWidth n3].
  set (whoisWithSizes := map (fun data => (data, sizeOf data)) whoisData).
  set (worksWithSizes := map (fun data => (data, sizeOf data)) worksData).
  set (socialWithSizes := map (fun data => (data, sizeOf data)) socialNetwork).
  set (currentY := - _ - firstHalf whois _).
  set (currentX := _ + firstHalf works _).
  set (currentNegX := - _ - firstHalf social_network _).
  pose proof (placeItems_items whois whoisWithSizes currentY 0 n3) as Hwhois.
  destruct (placeItems random whois _ _ 0 n3) as [[whoisItems id1] n4]
    eqn:Hw.
  destruct Hwhois as (_ & _ & _ & ->).
  pose proof (placeItems_items works worksWithSizes currentX
                (0 + length whoisWithSizes) n4) as Hworks.
  destruct (placeItems random works _ _ _ n4) as [[worksItems id2] n5]
    eqn:Hk.
  destruct Hworks as (_ & _ & _ & ->).
  destruct (placeItems random social_network _ _ _ n5)
    as [[socialItems id3] n6] eqn:Hs.
  exists currentY, currentX, currentNegX, (0 + length whoisWithSizes)%nat,
    (0 + length whoisWithSizes + length worksWithSizes)%nat, n3, n4, n5.
  rewrite Hw, Hk, Hs. cbn [fst].
  clear Hw Hk Hs.
  subst currentY currentX currentNegX
    whoisWithSizes worksWithSizes socialWithSizes.
  rewrite !length_map.
  split; [done|]. split; [done|]. split; [done|].
  cbn [alongCurrent]. split; [lra|]. split; lra.
Qed.

Lemma sized_sizes (datas : list ContentData) :
  Forall (fun entry : ContentData * (R * R) => entry.2 = sizeOf entry.1)
    (map (fun data => (data, sizeOf data)) datas).
Proof. apply Forall_map. by apply Forall_forall. Qed.

Lemma placeItems_types type withSizes current id n :
  Forall (fun item => item_type item = type)
    (placeItems random type withSizes current id n).1.1.
Proof.
  pose proof (placeItems_items type withSizes current id n) as H.
  destruct (placeItems random type withSizes current id n) as [[items id'] n'].
  by destruct H as (_ & H & _).
Qed.

(** X24. The ids of the content items are pairwise different (they are
    the keys of the texture map and of the rendered list), and the items
    carry the given data in the order whois, works, social. *)
Theorem content_ids whoisData worksData socialNetwork
    viewportWidth viewportHeight :
  let items :=
    (generateContentPositions measureText random whoisData worksData
       socialNetwork viewportWidth viewportHeight).1 in
  List.NoDup (map item_id items) /\
  map item_data items = whoisData ++ worksData ++ socialNetwork /\
  map item_type items
  = map (fun _ => whois) whoisData ++ map (fun _ => works) worksData
    ++ map (fun _ => social_network) socialNetwork.
Proof.
  destruct (generateContentPositions_loops whoisData worksData socialNetwork
              viewportWidth viewportHeight)
    as (currentY & currentX & currentNegX & id1 & id2 & n1 & n2 & n3
        & Hitems & _).
  cbv zeta. rewrite Hitems, !map_app.
  set (whoisSized := map (fun data => (data, sizeOf data)) whoisData).
  set (worksSized := map (fun data => (data, sizeOf data)) worksData).
  set (socialSized := map (fun data => (data, sizeOf data)) socialNetwork).
  destruct (placeItems_ids whois whoisSized currentY 0 n1) as [-> ->].
  destruct (placeItems_ids works worksSized currentX id1 n2) as [-> ->].
  destruct (placeItems_ids social_network socialSized currentNegX id2 n3) as [-> ->].
  split; [|split].
  - apply List.NoDup_app; repeat split.
    + apply ids_NoDup.
    + apply List.NoDup_app; repeat split; [apply ids_NoDup..|].
      intros key Hk Hs.
      by apply (ids_disjoint works social_network _ _ _ _ _
                  ltac:(discriminate) Hk Hs).
    + intros key Hw [Hk|Hs]%in_app_iff.
      * by apply (ids_disjoint whois works _ _ _ _ _
                    ltac:(discriminate) Hw Hk).
      * by apply (ids_disjoint whois social_network _ _ _ _ _
                    ltac:(discriminate) Hw Hs).
  - unfold whoisSized, worksSized, socialSized. rewrite !map_map. cbn [fst]. by rewrite !map_id.
  - pose proof (placeItems_types whois whoisSized currentY 0 n1) as HW.
    pose proof (placeItems_types works worksSized currentX id1 n2) as HK.
    pose proof (placeItems_types social_network socialSized currentNegX id2 n3) as HS.
    assert (Htypes : forall type datas items,
      Forall (fun item => item_type item = type) items ->
      map item_data items = datas ->
      map item_type items = map (fun _ : ContentData => type) datas).
    { intros type datas items Htype <-. rewrite map_map.
      induction Htype as [|item items' Heq _ IH]; [done|].
      cbn [map]. by rewrite Heq, IH. }
    f_equal; [|f_equal]; apply Htypes; try done.
    all: rewrite (proj2 (placeItems_ids _ _ _ _ _)).
    all: unfold whoisSized, worksSized, socialSized; rewrite map_map; cbn [fst]; by rewrite map_id.
Qed.

(** X22. Boxes of one category never touch: along the line of the
    category, the free space between the box of an item and the box of
    the next is at least [minSpacing] (150 pixels) and less than twice
    that, whatever the sizes of the texts. *)
Theorem content_gaps whoisData worksData socialNetwork
    viewportWidth viewportHeight (type : ContentType) :
  Forall (fun gap => minSpacing <= gap < minSpacing * 2)
    (gaps measureText
       (ofType type
          (generateContentPositions measureText random whoisData worksData
             socialNetwork viewportWidth viewportHeight).1)).
Proof.
  destruct (generateContentPositions_loops whoisData worksData socialNetwork
              viewportWidth viewportHeight)
    as (currentY & currentX & currentNegX & id1 & id2 & n1 & n2 & n3
        & -> & _).
  rewrite !ofType_app.
  pose proof (placeItems_types whois
    (map (fun data => (data, sizeOf data)) whoisData) currentY 0 n1) as HW.
  pose proof (placeItems_types works
    (map (fun data => (data, sizeOf data)) worksData) currentX id1 n2) as HK.
  pose proof (placeItems_types social_network
    (map (fun data => (data, sizeOf data)) socialNetwork) currentNegX id2 n3)
    as HS.
  destruct type.
  - rewrite (ofType_same _ _ HW), (ofType_other whois works _ ltac:(discriminate) HK),
      (ofType_other whois social_network _ ltac:(discriminate) HS), !app_nil_r.
    apply placeItems_gaps, sized_sizes.
  - rewrite (ofType_other works whois _ ltac:(discriminate) HW), (ofType_same _ _ HK),
      (ofType_other works social_network _ ltac:(discriminate) HS), app_nil_r.
    apply placeItems_gaps, sized_sizes.
  - rewrite (ofType_other social_network whois _ ltac:(discriminate) HW),
      (ofType_other social_network works _ ltac:(discriminate) HK),
      (ofType_same _ _ HS).
    apply placeItems_gaps, sized_sizes.
Qed.

Hypothesis measureText_nonneg :
  forall style text,
    0 <= (measureText style text).1 /\ 0 <= (measureText style text).2.

Lemma calculateContentSize_min (data : ContentData) :
  80 <= (sizeOf data).1 /\ 100 <= (sizeOf data).2.
Proof.
  unfold calculateContentSize. cbv zeta.
  pose proof (measureText_nonneg makeContentHeaderStyle (header data)) as H1.
  pose proof (measureText_nonneg (withWordWrap makeContentHeaderStyle 700)
                (header data)) as H2.
  pose proof (measureText_nonneg makeContentTextStyle (content data)) as H3.
  pose proof (measureText_nonneg (withWordWrap makeContentTextStyle 700)
                (content data)) as H4.
  destruct (measureText makeContentHeaderStyle _) as [w1 h1].
  destruct (measureText (withWordWrap makeContentHeaderStyle 700) _)
    as [w2 h2].
  destruct (measureText makeContentTextStyle _) as [w3 h3].
  destruct (measureText (withWordWrap makeContentTextStyle 700) _)
    as [w4 h4].
  cbn [fst snd] in *.
  destruct (Rgtb w1 700), (Rgtb w3 700); cbn [fst snd];
    (split; [|lra]); unfold Rmax; destruct (Rle_dec _ _); lra.
Qed.

Lemma sized_nonneg type (datas : list ContentData) :
  Forall (fun entry : ContentData * (R * R) =>
            entry.2 = sizeOf entry.1 /\ 0 <= extent type entry.2)
    (map (fun data => (data, sizeOf data)) datas).
Proof.
  apply Forall_map, Forall_forall. intros data _. cbn [fst snd].
  split; [done|]. pose proof (calculateContentSize_min data).
  destruct type; cbn [extent]; lra.
Qed.

Lemma placeItems_beyond type datas current id n (viewport : R) :
  alongCurrent type current
  = viewport / 2 + viewportBuffer
    + firstHalf type (map (fun data => (data, sizeOf data)) datas) ->
  Forall (fun item =>
            item_type item = type /\
            viewport / 2 + viewportBuffer <= nearEdge measureText item /\
            -150 <= across type (item_position item) < 150)
    (placeItems random type (map (fun data => (data, sizeOf data)) datas)
       current id n).1.1.
Proof.
  intros Hcurrent.
  pose proof (placeItems_types type
    (map (fun data => (data, sizeOf data)) datas) current id n) as Htypes.
  pose proof (placeItems_across type
    (map (fun data => (data, sizeOf data)) datas) current id n) as Hacross.
  pose proof (placeItems_nearEdge type
    (map (fun data => (data, sizeOf data)) datas) current id n
    (sized_nonneg type datas)) as Hnear.
  rewrite Hcurrent, firstHalf_extent in Hnear.
  rewrite Forall_forall in Htypes, Hacross, Hnear. apply Forall_forall.
  intros item Hitem. split; [by apply Htypes|].
  split; [|by apply Hacross].
  specialize (Hnear item Hitem). cbn beta in Hnear.
  destruct (map _ datas) as [|[data size] rest]; lra.
Qed.

(** X23. No content is in sight at the start: the box of every item
    begins at least [viewportBuffer] (200 pixels) beyond the edge of the
    viewport in the direction of its category, and its centre is offset
    from the line of the category by less than 150 pixels. *)
Theorem content_beyond_viewport whoisData worksData socialNetwork
    viewportWidth viewportHeight :
  Forall (fun item =>
            viewportAlong (item_type item) (default 1920 viewportWidth)
              (default 1080 viewportHeight) / 2 + viewportBuffer
            <= nearEdge measureText item /\
            -150 <= across (item_type item) (item_position item) < 150)
    (generateContentPositions measureText random whoisData worksData
       socialNetwork viewportWidth viewportHeight).1.
Proof.
  destruct (generateContentPositions_loops whoisData worksData socialNetwork
              viewportWidth viewportHeight)
    as (currentY & currentX & currentNegX & id1 & id2 & n1 & n2 & n3
        & -> & _ & _ & HY & HX & HNegX).
  rewrite !Forall_app. repeat split.
  - eapply Forall_impl;
      [exact (placeItems_beyond whois whoisData currentY 0 n1 _ HY)|].
    by intros item (-> & ? & ?).
  - eapply Forall_impl;
      [exact (placeItems_beyond works worksData currentX id1 n2 _ HX)|].
    by intros item (-> & ? & ?).
  - eapply Forall_impl;
      [exact (placeItems_beyond social_network socialNetwork currentNegX
                id2 n3 _ HNegX)|].
    by intros item (-> & ? & ?).
Qed.

Lemma totalSize_ge (extents : list R) (total : R) (n : nat) :
  Forall (fun size => 0 <= size) extents ->
  total <= (totalSize random extents total n).1.
Proof.
  induction extents as [|size rest IH] in total, n |- *; intros Hpos.
  { cbn. lra. }
  apply Forall_cons in Hpos as [Hsize Hrest].
  cbn [totalSize randomOffset]. cbv zeta.
  destruct rest as [|next rest].
  - cbn. lra.
  - etrans; [|by apply IH].
    apply Forall_cons in Hrest as [Hnext _].
    pose proof (random_range n). unfold minSpacing. nra.
Qed.

(** X25. The map bounds are whole numbers and reach at least
    [viewportBuffer] beyond the viewport on both axes: for a viewport
    that is not negative they are positive, as the wrap of the game loop
    needs them. *)
Theorem content_mapBounds whoisData worksData socialNetwork
    viewportWidth viewportHeight :
  let bounds :=
    (generateContentPositions measureText random whoisData worksData
       socialNetwork viewportWidth viewportHeight).2 in
  default 1920 viewportWidth / 2 + viewportBuffer <= bounds.1 /\
  default 1080 viewportHeight / 2 + viewportBuffer <= bounds.2 /\
  exists x y : Z, bounds = (IZR x, IZR y).
Proof.
  unfold generateContentPositions. cbv zeta.
  set (whoisExtents := map (fun d : ContentData * (R * R) => extent whois d.2)
                         (map (fun data => (data, sizeOf data)) whoisData)).
  set (worksExtents := map (fun d : ContentData * (R * R) => extent works d.2)
                         (map (fun data => (data, sizeOf data)) worksData)).
  set (socialExtents :=
         map (fun d : ContentData * (R * R) => extent social_network d.2)
           (map (fun data => (data, sizeOf data)) socialNetwork)).
  assert (Hextents : forall type datas,
    Forall (fun size => 0 <= size)
      (map (fun d : ContentData * (R * R) => extent type d.2)
         (map (fun data => (data, sizeOf data)) datas))).
  { intros type datas. apply Forall_map.
    eapply Forall_impl; [apply (sized_nonneg type)|]. by intros entry [_ ?]. }
  pose proof (totalSize_ge whoisExtents
    (default 1080 viewportHeight / 2 + viewportBuffer) 0 (Hextents _ _))
    as Hwhois.
  destruct (totalSize random whoisExtents _ 0) as [totalWhoisHeight n1].
  pose proof (totalSize_ge worksExtents
    (default 1920 viewportWidth / 2 + viewportBuffer) n1 (Hextents _ _))
    as Hworks.
  destruct (totalSize random worksExtents _ n1) as [totalWorksWidth n2].
  destruct (totalSize random socialExtents _ n2) as [totalSocialWidth n3].
  destruct (placeItems random whois _ _ 0 n3) as [[whoisItems id1] n4].
  destruct (placeItems random works _ _ id1 n4) as [[worksItems id2] n5].
  destruct (placeItems random social_network _ _ id2 n5)
    as [[socialItems id3] n6].
  cbn [fst snd] in *.
  pose proof (Zceil_bound (Rmax totalWorksWidth totalSocialWidth)).
  pose proof (Zceil_bound totalWhoisHeight).
  pose proof (Rmax_l totalWorksWidth totalSocialWidth).
  split; [lra|]. split; [lra|]. by eexists _, _.
Qed.

End Positions.

(** ** ContentItems: the wrapped copies *)

Lemma Zrange_around_0 : Zrange (-1) 1 = [-1; 0; 1]%Z.
Proof. reflexivity. Qed.

Lemma sqrt_lt_components (a b r : R) :
  sqrt (a * a + b * b) < r -> (- r < a < r) /\ (- r < b < r).
Proof.
  intros Hlt.
  assert (Hr : 0 < r) by (pose proof (sqrt_pos (a * a + b * b)); lra).
  assert (Hsq : a * a + b * b < r * r).
  { destruct (Rlt_dec (a * a + b * b) (r * r)) as [|Hge]; [done|].
    apply Rnot_lt_le, sqrt_le_1_alt in Hge.
    rewrite sqrt_square in Hge; lra. }
  split; split; nra.
Qed.


Section Wrapping.

Context {Texture : Type}.
#[local] Abbreviation GameState := (@GameState Texture).



(** X27. On a map of at least twice the render distance in width and in
    height no item is rendered twice: at most one of its nine wrapped
    copies is near the player. *)
Theorem visibleItems_one_copy (state : GameState) (boundX boundY : R) :
  mapBounds state = Some (boundX, boundY) ->
  renderDistance <= boundX -> renderDistance <= boundY ->
  (length (visibleItems state) <= length (contentItems state))%nat /\
  Forall (fun item =>
            (length (wrappedCopies (playerPosition state) (boundX * 2)
                       (boundY * 2) item) <= 1)%nat)
    (contentItems state).
Proof.
  intros Hbounds Hx Hy.
  assert (Hone : forall item,
    (length (wrappedCopies (playerPosition state) (boundX * 2)
               (boundY * 2) item) <= 1)%nat).
  { intros item. unfold wrappedCopies. rewrite Zrange_around_0.
    cbn [flat_map app]. cbv zeta. unfold renderDistance in *.
    repeat match goal with
    | |- context [Rltb (sqrt ?d) 1500] =>
        unfold Rltb at 1;
        destruct (Rlt_dec (sqrt d) 1500) as [Hnear|_];
        [apply sqrt_lt_components in Hnear; destruct Hnear as [? ?]|];
        try (exfalso; lra)
    end.
    all: cbn [app length]; lia. }
  split; [|by apply Forall_forall].
  unfold visibleItems. rewrite Hbounds.
  destruct (contentItemTextures state); [|cbn; lia].
  cbv zeta. cbn [fst snd].
  induction (contentItems state) as [|item items IH]; [done|].
  cbn [flat_map]. rewrite length_app. cbn [length].
  specialize (Hone item). lia.
Qed.

End Wrapping.

(** * Instances of the game properties *)




Lemma touchedRight_playing : playing touchedRight.
Proof. apply playing_event, playing_mount. Qed.

(** The zoom after a touch in a new game. *)
Lemma zoom_in_limits_witness :
  playing touchedRight /\ MIN_ZOOM <= zoom touchedRight.2 <= MAX_ZOOM.
Proof.
  split; [exact touchedRight_playing|].
  exact (zoom_in_limits touchedRight touchedRight_playing).
Defined.







(** The map of 5000 by 5000 pixels is wide enough. *)
Lemma visibleItems_one_copy_witness :
  mapBounds edgeState = Some (2500, 2500) /\
  renderDistance <= 2500 /\ renderDistance <= 2500 /\
  (length (visibleItems edgeState) <= length (contentItems edgeState))%nat /\
  Forall (fun item =>
            (length (wrappedCopies (playerPosition edgeState) (2500 * 2)
                       (2500 * 2) item) <= 1)%nat)
    (contentItems edgeState).
Proof.
  assert (H : renderDistance <= 2500) by (unfold renderDistance; lra).
  split; [reflexivity|]. split; [exact H|]. split; [exact H|].
  apply (visibleItems_one_copy edgeState 2500 2500); [reflexivity|exact H..].
Defined.

Lemma randomHalf_range : forall k, 0 <= randomHalf k < 1.
Proof. intros k. unfold randomHalf. lra. Qed.

Lemma measureMonospace_nonneg :
  forall style text,
    0 <= (measureMonospace style text).1
    /\ 0 <= (measureMonospace style text).2.
Proof.
  intros style text. unfold measureMonospace. cbn [fst snd].
  split; [|lra]. apply Rmult_le_pos; [|lra]. apply IZR_le. lia.
Qed.

(** Two whois texts, in the default viewport. *)
Lemma content_gaps_witness :
  (forall k, 0 <= randomHalf k < 1) /\
  Forall (fun gap => minSpacing <= gap < minSpacing * 2)
    (gaps measureMonospace
       (ofType whois
          (generateContentPositions measureMonospace randomHalf twoTexts [] []
             None None).1)).
Proof.
  split; [exact randomHalf_range|].
  exact (content_gaps measureMonospace randomHalf randomHalf_range
           twoTexts [] [] None None whois).
Defined.

(** Two works texts, in a viewport of 1280 by 720. *)
Lemma content_beyond_viewport_witness :
  (forall k, 0 <= randomHalf k < 1) /\
  (forall style text,
     0 <= (measureMonospace style text).1
     /\ 0 <= (measureMonospace style text).2) /\
  Forall (fun item =>
            viewportAlong (item_type item) (default 1920 (Some 1280))
              (default 1080 (Some 720)) / 2 + viewportBuffer
            <= nearEdge measureMonospace item /\
            -150 <= across (item_type item) (item_position item) < 150)
    (generateContentPositions measureMonospace randomHalf [] twoTexts []
       (Some 1280) (Some 720)).1.
Proof.
  split; [exact randomHalf_range|]. split; [exact measureMonospace_nonneg|].
  exact (content_beyond_viewport measureMonospace randomHalf randomHalf_range
           measureMonospace_nonneg [] twoTexts [] (Some 1280) (Some 720)).
Defined.

(** The same texts in all three categories, in the default viewport. *)
Lemma content_mapBounds_witness :
  (forall k, 0 <= randomHalf k < 1) /\
  (forall style text,
     0 <= (measureMonospace style text).1
     /\ 0 <= (measureMonospace style text).2) /\
  let bounds :=
    (generateContentPositions measureMonospace randomHalf twoTexts twoTexts
       twoTexts None None).2 in
  default 1920 None / 2 + viewportBuffer <= bounds.1 /\
  default 1080 None / 2 + viewportBuffer <= bounds.2 /\
  exists x y : Z, bounds = (IZR x, IZR y).
Proof.
  split; [exact randomHalf_range|]. split; [exact measureMonospace_nonneg|].
  exact (content_mapBounds measureMonospace randomHalf randomHalf_range
           measureMonospace_nonneg twoTexts twoTexts twoTexts None None).
Defined.

(** * The pre-rendered images *)

(** ** measureText: word wrap *)

Lemma fold_Rmax_le {A : Type} (width : A -> R) (bound : R)
    (lines : list A) (start : R) :
  start <= bound -> Forall (fun line => width line <= bound) lines ->
  fold_left (fun maxLineWidth line => Rmax maxLineWidth (width line))
    lines start <= bound.
Proof.
  intros Hstart Hall. induction Hall as [|line lines' Hw _ IH] in start,
    Hstart |- *; [done|].
  cbn [fold_left]. apply IH. by apply Rmax_lub.
Qed.

Section MeasureText.

Import ContentItemImage.

Variable canvasMetrics : string -> string -> R * R * R.

#[local] Abbreviation fits :=
  (fun (font : string) (maxWidth : R) (line : string) =>
     textWidth canvasMetrics font line <= maxWidth).

Lemma nonEmpty_false (text : string) : nonEmpty text = false -> text = "".
Proof.
  unfold nonEmpty. intros H%negb_false_iff. by apply String.eqb_eq.
Qed.

(** While the words are laid out, every line pushed fits, and so does
    the line being filled unless it is still empty. *)
Lemma wrapWord_fits font maxWidth words lines currentLine :
  Forall (fits font maxWidth) words ->
  Forall (fits font maxWidth) lines ->
  (nonEmpty currentLine = true -> fits font maxWidth currentLine) ->
  let '(lines', currentLine') :=
    fold_left (wrapWord canvasMetrics font maxWidth) words
      (lines, currentLine) in
  Forall (fits font maxWidth) lines' /\
  (nonEmpty currentLine' = true -> fits font maxWidth currentLine').
Proof.
  intros Hwords. induction Hwords as [|word words Hword _ IH]
    in lines, currentLine |- *; intros Hlines Hcurrent; [done|].
  cbn [fold_left]. unfold wrapWord at 2. cbv zeta.
  unfold Rleb. destruct (Rle_dec _ maxWidth) as [Hfit|Hwide].
  - by apply IH.
  - apply IH; [|done].
    destruct (nonEmpty currentLine); [|done].
    apply Forall_app. split; [done|]. constructor; [by apply Hcurrent|done].
Qed.

(** X28. Text whose words each fit within [maxWidth] is wrapped so that
    every line fits: the measured width never exceeds [maxWidth]. *)
Theorem measureText_fits (text font : string) (maxWidth : R) :
  0 <= maxWidth ->
  Forall (fun word => textWidth canvasMetrics font word <= maxWidth)
    (split " " text) ->
  let measured := measureText canvasMetrics text font maxWidth in
  measure_width measured <= maxWidth /\
  Forall (fun line => textWidth canvasMetrics font line <= maxWidth)
    (measure_lines measured).
Proof.
  intros Hmax Hwords. unfold measureText. cbv zeta.
  unfold Rleb. destruct (Rle_dec _ maxWidth) as [Hone|Hwrap].
  { cbn [measure_width measure_lines]. split; [done|].
    constructor; [exact Hone|constructor]. }
  pose proof (wrapWord_fits font maxWidth (split " " text) [] EmptyString
                Hwords ltac:(constructor) ltac:(done)) as Hfold.
  destruct (fold_left _ (split " " text) _) as [lines currentLine].
  destruct Hfold as [Hlines Hcurrent].
  cbn [measure_width measure_lines].
  assert (Hall : Forall (fits font maxWidth)
                   (if nonEmpty currentLine then lines ++ [currentLine]
                    else lines)).
  { destruct (nonEmpty currentLine); [|done].
    apply Forall_app. split; [done|]. constructor; [by apply Hcurrent|done]. }
  split; [|done].
  by apply fold_Rmax_le.
Qed.

End MeasureText.

(** ** The border of tiles *)

Section Border.

Import ContentItemImage.

Lemma image_seededRandom_range (seed index : R) :
  0 <= seededRandom seed index < 1.
Proof.
  unfold seededRandom. cbv zeta.
  pose proof (Zfloor_bound (sin (seed + index * 12.9898) * 43758.5453)). lra.
Qed.

Lemma depth_draw_range (seed index : R) :
  (2 <= Zfloor (2 + seededRandom seed index * 3) <= 4)%Z.
Proof.
  pose proof (image_seededRandom_range seed index) as Hr.
  pose proof (Zfloor_bound (2 + seededRandom seed index * 3)) as Hf.
  split.
  - apply Zfloor_lub. lra.
  - assert (Hlt : IZR (Zfloor (2 + seededRandom seed index * 3)) < IZR 5)
      by lra.
    apply lt_IZR in Hlt. lia.
Qed.

(** The fraction of the way through a segment of the circle. *)
Lemma segment_fraction (normalizedAngle segmentSize : R) :
  0 < segmentSize ->
  0 <= (normalizedAngle
        - IZR (Zfloor (normalizedAngle / segmentSize)) * segmentSize)
       / segmentSize < 1.
Proof.
  intros Hs. pose proof (Zfloor_bound (normalizedAngle / segmentSize)) as Hf.
  replace ((normalizedAngle
            - IZR (Zfloor (normalizedAngle / segmentSize)) * segmentSize)
           / segmentSize)
    with (normalizedAngle / segmentSize
          - IZR (Zfloor (normalizedAngle / segmentSize))) by (field; lra).
  lra.
Qed.

(** The depth of the border lies between 2 and 4 tiles at every angle. *)
Lemma getDepthForAngle_range (seed angle : R) :
  (2 <= getDepthForAngle seed angle <= 4)%Z.
Proof.
  unfold getDepthForAngle. cbv zeta.
  set (normalizedAngle := js_mod _ _).
  assert (Hsize : 0 < PI * 2 / 8) by (pose proof PI_RGT_0; lra).
  pose proof (segment_fraction normalizedAngle (PI * 2 / 8) Hsize) as Ht.
  set (t := (_ - _) / _) in *.
  set (segmentIndex := Zfloor (normalizedAngle / (PI * 2 / 8))).
  pose proof (depth_draw_range seed (IZR segmentIndex)) as [H1 H1'].
  pose proof (depth_draw_range seed (IZR (Z.rem (segmentIndex + 1) 8)))
    as [H2 H2'].
  set (depth1 := Zfloor (2 + seededRandom seed (IZR segmentIndex) * 3)) in *.
  set (depth2 := Zfloor (2 + seededRandom seed
                               (IZR (Z.rem (segmentIndex + 1) 8)) * 3)) in *.
  apply IZR_le in H1, H1', H2, H2'.
  assert (Hmix : 2 <= IZR depth1 + (IZR depth2 - IZR depth1) * t <= 4).
  { replace (IZR depth1 + (IZR depth2 - IZR depth1) * t)
      with (IZR depth1 * (1 - t) + IZR depth2 * t) by ring.
    assert (0 <= (IZR depth1 - 2) * (1 - t)) by (apply Rmult_le_pos; lra).
    assert (0 <= (IZR depth2 - 2) * t) by (apply Rmult_le_pos; lra).
    assert (0 <= (4 - IZR depth1) * (1 - t)) by (apply Rmult_le_pos; lra).
    assert (0 <= (4 - IZR depth2) * t) by (apply Rmult_le_pos; lra).
    lra. }
  split.
  - apply Zfloor_lub. lra.
  - pose proof (Zfloor_bound (IZR depth1 + (IZR depth2 - IZR depth1) * t)).
    assert (Hlt : IZR (Zfloor (IZR depth1 + (IZR depth2 - IZR depth1) * t))
                  < IZR 5) by lra.
    apply lt_IZR in Hlt. lia.
Qed.

(** The tiles the two loops visit. *)
Lemma borderTiles_In (seed : R) (halfWidth halfHeight : Z) (tile : R * R) :
  In tile (borderTiles seed halfWidth halfHeight) <->
  exists tileX tileY : Z,
    (- halfWidth - maxDepth <= tileX <= halfWidth + maxDepth)%Z /\
    (- halfHeight - maxDepth <= tileY <= halfHeight + maxDepth)%Z /\
    isOutsideContent halfWidth halfHeight tileX tileY = true /\
    distanceFromEdge halfWidth halfHeight tileX tileY
    <= IZR (getDepthForAngle seed (Math_atan2 (IZR tileY) (IZR tileX))) /\
    tile = (IZR tileX * TILE_SIZE, IZR tileY * TILE_SIZE).
Proof.
  unfold borderTiles. rewrite in_flat_map. split.
  - intros (tileY & HY%Zrange_In & Hin). apply in_flat_map in Hin.
    destruct Hin as (tileX & HX%Zrange_In & Hin).
    destruct (isOutsideContent _ _ _ _) eqn:Hout; [|done].
    cbv zeta in Hin. unfold Rleb in Hin.
    destruct (Rle_dec _ _) as [Hdepth|]; [|done].
    destruct Hin as [<-|[]]. by exists tileX, tileY.
  - intros (tileX & tileY & HX & HY & Hout & Hdepth & ->).
    exists tileY. split; [by apply Zrange_In|].
    apply in_flat_map. exists tileX. split; [by apply Zrange_In|].
    rewrite Hout. cbv zeta. unfold Rleb.
    destruct (Rle_dec _ _); [by left|done].
Qed.

Variable canvasMetrics : string -> string -> R * R * R.

(** X29. The frame of tiles around a content image: every tile sprite
    lies wholly inside the canvas and outside the light content area, and
    every tile position within two tiles of the frame carries a sprite,
    so the border has no hole there. *)
Theorem border_tiles_placed (data : ContentData) (id : string) :
  let image := generateContentItemImage canvasMetrics data id in
  let '(contentX, contentY, _, _) := contentRect image in
  let halfWidth := Zfloor (contentWidth image / 2 / TILE_SIZE) in
  let halfHeight := Zfloor (contentHeight image / 2 / TILE_SIZE) in
  Forall (fun corner : R * R =>
            (0 <= corner.1 /\ corner.1 + TILE_SIZE <= canvasWidth image) /\
            (0 <= corner.2 /\ corner.2 + TILE_SIZE <= canvasHeight image) /\
            (corner.1 + TILE_SIZE < contentX
             \/ contentX + contentWidth image < corner.1
             \/ corner.2 + TILE_SIZE < contentY
             \/ contentY + contentHeight image < corner.2))
    (tileCorners image) /\
  forall tileX tileY : Z,
    (- halfWidth - maxDepth <= tileX <= halfWidth + maxDepth)%Z ->
    (- halfHeight - maxDepth <= tileY <= halfHeight + maxDepth)%Z ->
    isOutsideContent halfWidth halfHeight tileX tileY = true ->
    distanceFromEdge halfWidth halfHeight tileX tileY <= 2 ->
    In (canvasWidth image / 2 + IZR tileX * TILE_SIZE - TILE_SIZE / 2,
        canvasHeight image / 2 + IZR tileY * TILE_SIZE - TILE_SIZE / 2)
       (tileCorners image).
Proof.
  unfold generateContentItemImage. cbv zeta.
  cbn [contentRect contentWidth contentHeight canvasWidth canvasHeight
       tileCorners].
  set (contentWidth := Rmax _ _ + 40 * 2).
  set (contentHeight := _ + 20 + _ + 40 * 2).
  set (halfWidth := Zfloor (contentWidth / 2 / TILE_SIZE)).
  set (halfHeight := Zfloor (contentHeight / 2 / TILE_SIZE)).
  pose proof (Zfloor_bound (contentWidth / 2 / TILE_SIZE)) as HW.
  pose proof (Zfloor_bound (contentHeight / 2 / TILE_SIZE)) as HH.
  fold halfWidth in HW. fold halfHeight in HH.
  unfold TILE_SIZE, SPRITE_TILE_SIZE, GAME_SCALE, maxDepth in *.
  split.
  - apply Forall_map, Forall_forall. intros tile Htile.
    apply list_elem_of_In, borderTiles_In in Htile
      as (tileX & tileY & HX & HY & Hout & _ & ->).
    cbn [fst snd]. unfold TILE_SIZE, SPRITE_TILE_SIZE, GAME_SCALE.
    unfold maxDepth in HX, HY.
    destruct HX as [HX HX'], HY as [HY HY'].
    apply IZR_le in HX, HX', HY, HY'.
    rewrite ?minus_IZR, ?plus_IZR, ?opp_IZR in *.
    split; [lra|]. split; [lra|].
    unfold isOutsideContent in Hout.
    apply orb_true_iff in Hout as [Hout|Hout];
      [apply orb_true_iff in Hout as [Hout|Hout];
       [apply orb_true_iff in Hout as [Hout|Hout]|]|].
    + apply Z.ltb_lt in Hout. left.
      assert (IZR tileX <= - IZR halfWidth - 2)
        by (rewrite <- opp_IZR, <- minus_IZR; apply IZR_le; lia).
      lra.
    + apply Z.gtb_lt in Hout. right. left.
      assert (IZR halfWidth + 2 <= IZR tileX)
        by (rewrite <- plus_IZR; apply IZR_le; lia).
      lra.
    + apply Z.ltb_lt in Hout. right. right. left.
      assert (IZR tileY <= - IZR halfHeight - 2)
        by (rewrite <- opp_IZR, <- minus_IZR; apply IZR_le; lia).
      lra.
    + apply Z.gtb_lt in Hout. right. right. right.
      assert (IZR halfHeight + 2 <= IZR tileY)
        by (rewrite <- plus_IZR; apply IZR_le; lia).
      lra.
  - intros tileX tileY HX HY Hout Hnear.
    apply (in_map (fun tile : R * R =>
                     ((contentWidth + (4 * 2 + 2) * (10 * 1) * 2) / 2
                      + tile.1 - 10 * 1 / 2,
                      (contentHeight + (4 * 2 + 2) * (10 * 1) * 2) / 2
                      + tile.2 - 10 * 1 / 2))
                  _ (IZR tileX * (10 * 1), IZR tileY * (10 * 1))).
    apply borderTiles_In. exists tileX, tileY.
    split; [done|]. split; [done|]. split; [done|]. split; [|done].
    etrans; [exact Hnear|].
    pose proof (getDepthForAngle_range (idSeed id)
                  (Math_atan2 (IZR tileY) (IZR tileX))) as [Hdepth _].
    apply IZR_le in Hdepth. lra.
Qed.

End Border.

(** ** CloudLayer: the tiled clouds *)

(** The tile of a row of [count] tiles of one width, laid from [start],
    that holds a point. *)
Lemma tile_index (start width point : R) (count : Z) :
  0 < width -> start <= point < start + IZR count * width ->
  exists x : Z, (0 <= x <= count - 1)%Z /\
    start + IZR x * width <= point < start + IZR x * width + width.
Proof.
  intros Hwidth Hpoint.
  exists (Zfloor ((point - start) / width)).
  pose proof (Zfloor_bound ((point - start) / width)) as Hfloor.
  assert (Hq : point - start = (point - start) / width * width)
    by (field; lra).
  set (q := (point - start) / width) in *.
  split; [split|].
  - apply Zfloor_lub. apply Rmult_le_reg_r with width; [done|]. lra.
  - assert (Hlt : IZR (Zfloor q) < IZR count).
    { apply Rmult_lt_reg_r with width; [done|]. nra. }
    apply lt_IZR in Hlt. lia.
  - nra.
Qed.

Section Clouds.

Context {Texture : Type}.

(** X30. The tiled clouds reach the right and the bottom edge of the map
    but not always the left and the top one: the sprites cover every
    point of the map from [- bounds + max 0 offset] on, where [offset] is
    the remainder of the parallax offset by the tile size, and no sprite
    begins before [- bounds + offset]. *)
Theorem CloudLayer_covers (state : @GameState Texture)
    (cloudImage : @CloudImageData Texture) (boundX boundY : R) :
  cloud_isTiled cloudImage = true ->
  mapBounds state = Some (boundX, boundY) ->
  0 < cloud_width cloudImage -> 0 < cloud_height cloudImage ->
  let offsetX := js_mod ((playerPosition state).1 * (1 - CLOUD_PARALLAX))
                   (cloud_width cloudImage) in
  let offsetY := js_mod ((playerPosition state).2 * (1 - CLOUD_PARALLAX))
                   (cloud_height cloudImage) in
  (forall pointX pointY : R,
     - boundX + Rmax 0 offsetX <= pointX <= boundX ->
     - boundY + Rmax 0 offsetY <= pointY <= boundY ->
     exists sprite,
       In sprite (CloudLayer state cloudImage) /\
       sprite.1 <= pointX < sprite.1 + cloud_width cloudImage /\
       sprite.2 <= pointY < sprite.2 + cloud_height cloudImage) /\
  Forall (fun sprite : R * R =>
            - boundX + offsetX <= sprite.1 /\ - boundY + offsetY <= sprite.2)
    (CloudLayer state cloudImage).
Proof.
  intros Htiled Hbounds Hwidth Hheight offsetX offsetY.
  unfold CloudLayer. rewrite Htiled, Hbounds. cbv zeta. cbn [fst snd].
  fold offsetX offsetY.
  set (tileWidth := cloud_width cloudImage) in *.
  set (tileHeight := cloud_height cloudImage) in *.
  set (tilesX := (Zceil (boundX * 2 / tileWidth) + 1)%Z).
  set (tilesY := (Zceil (boundY * 2 / tileHeight) + 1)%Z).
  assert (Hreach : forall bound size offset,
    0 < size -> - size < offset ->
    bound < - bound + offset + IZR (Zceil (bound * 2 / size) + 1) * size).
  { intros bound size offset Hsize Hoffset.
    pose proof (Zceil_bound (bound * 2 / size)) as [_ Hceil].
    rewrite plus_IZR.
    assert (bound * 2 = bound * 2 / size * size) by (field; lra).
    nra. }
  assert (Hoffset : forall a size, 0 < size -> - size < js_mod a size).
  { intros a size Hsize.
    destruct (js_mod_spec a size Hsize) as (_ & Hpos & Hneg).
    destruct (Rle_dec 0 a) as [Ha|Ha].
    - specialize (Hpos Ha). lra.
    - apply Rnot_le_lt in Ha. specialize (Hneg Ha). lra. }
  split.
  - intros pointX pointY HX HY.
    pose proof (Rmax_l 0 offsetX). pose proof (Rmax_r 0 offsetX).
    pose proof (Rmax_l 0 offsetY). pose proof (Rmax_r 0 offsetY).
    destruct (tile_index (- boundX + offsetX) tileWidth pointX tilesX Hwidth)
      as (x & Hx & HpointX).
    { split; [lra|]. pose proof (Hreach boundX tileWidth offsetX Hwidth
        (Hoffset _ _ Hwidth)). unfold tilesX. lra. }
    destruct (tile_index (- boundY + offsetY) tileHeight pointY tilesY
                Hheight) as (y & Hy & HpointY).
    { split; [lra|]. pose proof (Hreach boundY tileHeight offsetY Hheight
        (Hoffset _ _ Hheight)). unfold tilesY. lra. }
    exists (- boundX + IZR x * tileWidth + offsetX,
            - boundY + IZR y * tileHeight + offsetY).
    split.
    + apply in_flat_map. exists y. split; [apply Zrange_In; lia|].
      apply in_map_iff. exists x. split; [done|]. apply Zrange_In. lia.
    + cbn [fst snd]. lra.
  - apply Forall_forall. intros sprite Hsprite.
    apply list_elem_of_In, in_flat_map in Hsprite
      as (y & Hy%Zrange_In & Hsprite).
    apply in_map_iff in Hsprite as (x & <- & Hx%Zrange_In).
    cbn [fst snd].
    assert (0 <= IZR x) by (apply IZR_le; lia).
    assert (0 <= IZR y) by (apply IZR_le; lia).
    nra.
Qed.

End Clouds.

(** * Instances of the image properties *)

Lemma twoWords_fit :
  Forall (fun word =>
            ContentItemImage.textWidth metricsMonospace "32px" word <= 100)
    (split " " "Hello world").
Proof.
  cbn [split Ascii.eqb Bool.eqb]. unfold ContentItemImage.textWidth.
  constructor; [change (IZR 5 * 10 <= 100); lra|].
  constructor; [change (IZR 5 * 10 <= 100); lra|]. constructor.
Qed.

(** Two words of five characters, wrapped at 100 pixels. *)
Lemma measureText_fits_witness :
  0 <= 100 /\
  Forall (fun word =>
            ContentItemImage.textWidth metricsMonospace "32px" word <= 100)
    (split " " "Hello world") /\
  let measured :=
    ContentItemImage.measureText metricsMonospace "Hello world" "32px" 100 in
  ContentItemImage.measure_width measured <= 100 /\
  Forall (fun line =>
            ContentItemImage.textWidth metricsMonospace "32px" line <= 100)
    (ContentItemImage.measure_lines measured).
Proof.
  assert (H : 0 <= 100) by lra.
  split; [exact H|]. split; [exact twoWords_fit|].
  exact (measureText_fits metricsMonospace "Hello world" "32px" 100 H
           twoWords_fit).
Defined.

(** The ready game on its map of 5000 by 5000 pixels, under the pattern
    of 2000 by 2000. *)
Lemma CloudLayer_covers_witness :
  cloud_isTiled tiledClouds = true /\
  mapBounds readyState = Some (2500, 2500) /\
  0 < cloud_width tiledClouds /\ 0 < cloud_height tiledClouds /\
  let offsetX := js_mod ((playerPosition readyState).1 * (1 - CLOUD_PARALLAX))
                   (cloud_width tiledClouds) in
  let offsetY := js_mod ((playerPosition readyState).2 * (1 - CLOUD_PARALLAX))
                   (cloud_height tiledClouds) in
  (forall pointX pointY : R,
     - 2500 + Rmax 0 offsetX <= pointX <= 2500 ->
     - 2500 + Rmax 0 offsetY <= pointY <= 2500 ->
     exists sprite,
       In sprite (CloudLayer readyState tiledClouds) /\
       sprite.1 <= pointX < sprite.1 + cloud_width tiledClouds /\
       sprite.2 <= pointY < sprite.2 + cloud_height tiledClouds) /\
  Forall (fun sprite : R * R =>
            - 2500 + offsetX <= sprite.1 /\ - 2500 + offsetY <= sprite.2)
    (CloudLayer readyState tiledClouds).
Proof.
  assert (H : 0 < 2000) by lra.
  split; [reflexivity|]. split; [reflexivity|].
  split; [exact H|]. split; [exact H|].
  exact (CloudLayer_covers readyState tiledClouds 2500 2500 eq_refl eq_refl
           H H).
Defined.
